(** * ForceSensorController: the resampling engine, the reading queue,
      the calibration fit and the scale selection of [boa.py] and [scale.py]

    Python floats are embedded as exact rationals ([Q]): every arithmetic
    operation of the source is translated by the exact operation, and the two
    places where the source itself rounds ([round(x)] and [round(x, prec)])
    are translated by exact round-half-to-even.  Equality of floats is [Qeq].
    An exception raised by the source is the [None] of an [option].

    The embedding is an idealisation of binary64, and what is proved of it is
    proved of exact arithmetic: a quotient or a product of two floats is not
    rounded to the nearest double (in the source [0.75 / 0.1] is the tie
    [7.5] and [0.1 * 7] is [0.7000000000000001]), there is no infinity and
    no NaN, and so none of the [OverflowError] and [ValueError] that
    [round] raises on them.  A property that depends on the value that an
    operation computes (an equality or a bound between computed values, the
    bucket chosen next to a half-way point, the outcome of the overlap test
    of [addReadings] for times one interval apart) holds of the source only
    up to the rounding of its operations.

    The calls into the GUI ([self.gui...]) carry no state of the model and are
    left out.  The reader processes are embedded by what they do to their
    queue, one operation at a time; [ReadingsQ.push] and [ReadingsQ.read]
    run their operations without another process in between, and
    [PushRead] interleaves the operations of a push with those of a
    read. *)

From Stdlib Require Import ZArith QArith Qabs Qround Qpower List Bool String Lia Lqa.
From Stdlib Require Import Sorting.Sorted.
Import ListNotations.

Set Implicit Arguments.

(** ** A small error monad: [None] is a raised exception *)

Definition bind {A B : Type} (m : option A) (f : A -> option B) : option B :=
  match m with
  | Some a => f a
  | None => None
  end.

Notation "x <- m ;; k" := (bind m (fun x => k))
  (at level 61, m at next level, right associativity).

(** ** Python's numeric built-ins on exact rationals *)

Module Py.

Open Scope Q_scope.

(** [round(x)] with one argument: the nearest integer, ties to the even one. *)
Definition round (q : Q) : Z :=
  let f := Qfloor q in
  match Qcompare (q - inject_Z f) (1 # 2) with
  | Lt => f
  | Gt => (f + 1)%Z
  | Eq => if Z.even f then f else (f + 1)%Z
  end.

(** [round(x, ndigits)]: the nearest multiple of [10 ** -ndigits], ties to even. *)
Definition round_ndigits (q : Q) (ndigits : Z) : Q :=
  inject_Z (round (q * 10 ^ ndigits)) / 10 ^ ndigits.

(** [x / y] on floats; division by zero raises [ZeroDivisionError]. *)
Definition truediv (x y : Q) : option Q :=
  if Qeq_bool y 0 then None else Some (x / y).

(** [max(a, b)]: the first argument unless the second is strictly larger. *)
Definition max (a b : Q) : Q :=
  if Qle_bool b a then a else b.

(** [a < b] *)
Definition ltb (a b : Q) : bool := negb (Qle_bool b a).

(** [sum(vals)] *)
Definition sum (vals : list Q) : Q := fold_left Qplus vals 0.

(** [len(l)] as a Python int *)
Definition len {A : Type} (l : list A) : Z := Z.of_nat (List.length l).

End Py.

Open Scope Q_scope.

(** ** [LoadCellControl._round] and [_downSampleReadings] *)

(** A reading is a [(time, val)] pair; a downsampled triple is
    [(roundedTime, mean, count)]. *)
Definition reading : Type := Q * Q.
Definition triple : Type := Q * Q * Z.

(** [_round(x, base, prec=100)]: [round(base * round(float(x) / base), prec)].
    The callers leave [prec] to its default.  The quotient and the product
    are exact here and rounded to the nearest double in the source, so the
    two can choose different multiples of [base] when the quotient is within
    a rounding error of a half-way point, and the source raises when the
    quotient overflows or is NaN. *)
Definition default_prec : Z := 100.

Definition _round (x base : Q) (prec : Z) : option Q :=
  q <- Py.truediv x base ;;
  Some (Py.round_ndigits (base * inject_Z (Py.round q)) prec).


(** The dict [d] of [_downSampleReadings]: rounded time to the list of values,
    kept in insertion order (keys are compared by float equality). *)
Definition dict : Type := list (Q * list Q).

Fixpoint dict_add (d : dict) (roundedTime val : Q) : dict :=
  match d with
  | [] => [(roundedTime, [val])]
  | (k, vals) :: d' =>
      if Qeq_bool k roundedTime then (k, vals ++ [val]) :: d'
      else (k, vals) :: dict_add d' roundedTime val
  end.

(** The loop [for time, val in readings] over the dict built so far. *)
Fixpoint group_readings (readings : list reading) (sampleInterval : Q) (d : dict)
  : option dict :=
  match readings with
  | [] => Some d
  | (time, val) :: rest =>
      roundedTime <- _round time sampleInterval default_prec ;;
      group_readings rest sampleInterval (dict_add d roundedTime val)
  end.

(** [avg(vals) = sum(vals) / len(vals)] *)
Definition avg (vals : list Q) : option Q :=
  Py.truediv (Py.sum vals) (inject_Z (Py.len vals)).

(** The list comprehension [(rt, avg(vals), len(vals)) for rt, vals in d.items()]. *)
Fixpoint bucket_triples (d : dict) : option (list triple) :=
  match d with
  | [] => Some []
  | (rt, vals) :: d' =>
      a <- avg vals ;;
      rest <- bucket_triples d' ;;
      Some ((rt, a, Py.len vals) :: rest)
  end.

(** [result.sort(key=lambda t: t[0])]: a stable sort on the rounded time. *)
Definition key (t : triple) : Q := fst (fst t).

Fixpoint sort_insert (x : triple) (l : list triple) : list triple :=
  match l with
  | [] => [x]
  | y :: l' => if Py.ltb (key x) (key y) then x :: y :: l' else y :: sort_insert x l'
  end.

Fixpoint sort_by_key (l : list triple) : list triple :=
  match l with
  | [] => []
  | x :: l' => sort_insert x (sort_by_key l')
  end.

Definition _downSampleReadings (readings : list reading) (sampleInterval : Q)
  : option (list triple) :=
  d <- group_readings readings sampleInterval [] ;;
  result <- bucket_triples d ;;
  Some (sort_by_key result).

(** ** The calibration engine ([class Calibration]) *)

Module Calibration.

Open Scope string_scope.
Open Scope list_scope.

(** 1N = .1019kg = .2248lbs *)
Definition CONVERSIONS : list (string * Q) :=
  [("N", 1.0%Q); ("kg", 0.101971621298%Q); ("lbs", 0.2248089431%Q)].

(** [CONVERSIONS[units]]; an unknown unit raises [KeyError]. *)
Fixpoint getitem (table : list (string * Q)) (units : string) : option Q :=
  match table with
  | [] => None
  | (u, c) :: table' => if String.eqb u units then Some c else getitem table' units
  end.

(** [convertBetween]: [x * (a / b)], exact here and rounded twice in the
    source. *)
Definition convertBetween (x : Q) (fromUnits toUnits : string) : option Q :=
  a <- getitem CONVERSIONS toUnits ;;
  b <- getitem CONVERSIONS fromUnits ;;
  c <- Py.truediv a b ;;
  Some (x * c)%Q.

(** [np.poly1d(coeffs)(x)]: Horner evaluation, highest degree first. *)
Definition poly1d (coeffs : list Q) (x : Q) : Q :=
  fold_left (fun y pv => y * x + pv)%Q coeffs 0%Q.

Record Fit : Type := MkFit { m : Q; b : Q }.

Definition measured2real (self : Fit) (inp : Q) (toUnits : string) : option Q :=
  convertBetween (poly1d [m self; b self] inp) "N" toUnits.

(** [real2measured]: with a slope of zero the divisions by [self.m] give
    no number: [None] stands for the [ZeroDivisionError] of a Python number
    and for the [inf] or [nan] that a numpy slope gives. *)
Definition real2measured (self : Fit) (inp : Q) (fromUnits : string) : option Q :=
  newtons <- convertBetween inp fromUnits "N" ;;
  m2 <- Py.truediv 1.0%Q (m self) ;;
  b2 <- Py.truediv (- b self)%Q (m self) ;;
  Some (poly1d [m2; b2] newtons).

Definition inUnits (self : Fit) (units : string) : option Fit :=
  m2 <- convertBetween (m self) "N" units ;;
  b2 <- convertBetween (b self) "N" units ;;
  Some (MkFit m2 b2).

Record t : Type := MkCalibration { pts : list (Q * Q); fit : option Fit }.

Section FitLine.

(** [np.polyfit(x, y, 1)] belongs to numpy, not to this repository: [fitLine]
    takes it as a parameter.  [None] stands for the [ValueError] that
    [fitLine] catches, [Some (m, b)] for the returned coefficients. *)
Variable polyfit : list Q -> list Q -> option (Q * Q).

Definition fitLine (pts : list (Q * Q)) : option Fit :=
  if (Py.len pts <? 2)%Z then None
  else
    let x := map fst pts in
    let y := map snd pts in
    match polyfit x y with
    | Some (m, b) => Some (MkFit m b)
    | None => None
    end.

(** Tuple equality and [pt in self.pts]. *)
Definition pt_eqb (p q : Q * Q) : bool :=
  Qeq_bool (fst p) (fst q) && Qeq_bool (snd p) (snd q).

Definition pt_in (pt : Q * Q) (l : list (Q * Q)) : bool := existsb (pt_eqb pt) l.

Definition addPoint (self : t) (pt : Q * Q) (units : string) : option t :=
  let '(measured, real) := pt in
  newreal <- convertBetween real units "N" ;;
  let pt := (measured, newreal) in
  if pt_in pt (pts self) then Some self
  else
    let pts' := pts self ++ [pt] in
    Some (MkCalibration pts' (fitLine pts')).

(** [list.remove]: drops the first equal element, [ValueError] when absent. *)
Fixpoint list_remove (l : list (Q * Q)) (pt : Q * Q) : option (list (Q * Q)) :=
  match l with
  | [] => None
  | p :: l' =>
      if pt_eqb p pt then Some l'
      else (r <- list_remove l' pt ;; Some (p :: r))
  end.

Definition removePoint (self : t) (pt : Q * Q) : t :=
  match list_remove (pts self) pt with
  | Some pts' => MkCalibration pts' (fitLine pts')
  | None => self
  end.

(** [Calibration(pts=pts, units=units)] *)
Fixpoint add_points (self : t) (l : list (Q * Q)) (units : string) : option t :=
  match l with
  | [] => Some self
  | p :: l' => self' <- addPoint self p units ;; add_points self' l' units
  end.

Definition init (l : list (Q * Q)) (units : string) : option t :=
  add_points (MkCalibration [] None) l units.

End FitLine.

Definition hasFit (self : t) : bool :=
  match fit self with
  | Some _ => true
  | None => false
  end.

(** The expressions [cal.fit.measured2real(inp, units)] and
    [cal.fit.real2measured(inp, units)]: with [fit] equal to [None] the
    attribute access raises and no value is produced. *)
Definition fit_measured2real (self : t) (inp : Q) (units : string) : option Q :=
  f <- fit self ;; measured2real f inp units.

Definition fit_real2measured (self : t) (inp : Q) (units : string) : option Q :=
  f <- fit self ;; real2measured f inp units.

(** numpy's [polyfit] of degree 1 in exact arithmetic, after numpy's
    documentation and implementation: the columns [x] and [1] of the design
    matrix are divided by their Euclidean norms and the system is solved by
    [lstsq], which returns the least-squares solution of minimal norm and only
    warns ([RankWarning]) when the matrix is rank deficient.
    - every [x] is zero: the norm of the first column is zero, the scaled
      column is not a number and [lstsq] raises [LinAlgError], a [ValueError];
    - the [x] are not all equal: the ordinary least-squares line;
    - every [x] equals the same non-zero [c]: both scaled columns coincide up
      to sign, the minimal-norm solution splits the mean of [y] evenly
      between them, which gives slope [mean / (2 c)] and intercept [mean / 2]. *)
Definition np_polyfit (x y : list Q) : option (Q * Q) :=
  let n := inject_Z (Py.len x) in
  let sx := Py.sum x in
  let sy := Py.sum y in
  let sxx := Py.sum (map (fun xi => xi * xi)%Q x) in
  let sxy := Py.sum (map (fun p => fst p * snd p)%Q (combine x y)) in
  let det := (n * sxx - sx * sx)%Q in
  if Qeq_bool sxx 0 then None
  else if Qeq_bool det 0 then
    Some ((sy / n) / (2 * (sx / n)), (sy / n) / 2)%Q
  else
    let slope := ((n * sxy - sx * sy) / det)%Q in
    Some (slope, ((sy - slope * sx) / n)%Q).

End Calibration.

(** ** The bounded reading queue ([multiprocessing.Queue(maxsize)]) *)

Module ReadingsQ.

Record t : Type := MkQueue { maxsize : Z; items : list reading }.

(** [multiprocessing.Queue(maxsize)]; a [maxsize] of zero or less asks for a
    queue without a bound of its own. *)
Definition create (maxsize : Z) : t := MkQueue maxsize [].

Definition full (q : t) : bool :=
  if (maxsize q <=? 0)%Z then false else (maxsize q <=? Py.len (items q))%Z.

Definition empty (q : t) : bool :=
  match items q with
  | [] => true
  | _ :: _ => false
  end.

(** [get()] waits for an item: on an empty queue that nobody else fills it
    never returns ([None]). *)
Definition get (q : t) : option (reading * t) :=
  match items q with
  | [] => None
  | x :: rest => Some (x, MkQueue (maxsize q) rest)
  end.

(** [put(item)] waits for a free slot: on a full queue that nobody else
    empties it never returns ([None]). *)
Definition put (q : t) (item : reading) : option t :=
  if full q then None else Some (MkQueue (maxsize q) (items q ++ [item])).

(** [while self.readingsQ.full(): self.readingsQ.get()] of [SerialReader.run];
    every turn of the loop removes one item, so the items left bound it. *)
Fixpoint throw_out_oldest (maxsize : Z) (l : list reading) : option t :=
  if full (MkQueue maxsize l) then
    match l with
    | [] => None
    | _ :: rest => throw_out_oldest maxsize rest
    end
  else Some (MkQueue maxsize l).

(** The push of [SerialReader.run]: make room, then [put] the pair, with no
    other process at the queue in between ([PushRead] has the steps of a
    push one by one, interleaved with those of a read). *)
Definition push (q : t) (pair : reading) : option t :=
  q' <- throw_out_oldest (maxsize q) (items q) ;;
  put q' pair.

Fixpoint push_all (q : t) (pairs : list reading) : option t :=
  match pairs with
  | [] => Some q
  | p :: rest => q' <- push q p ;; push_all q' rest
  end.

(** [SerialScale.read]: [while not self.readingsQ.empty(): readings.append(get())]. *)
Fixpoint read_items (maxsize : Z) (l : list reading) (readings : list reading)
  : list reading * t :=
  match l with
  | [] => (readings, MkQueue maxsize [])
  | x :: rest => read_items maxsize rest (readings ++ [x])
  end.

Definition read (q : t) : list reading * t :=
  read_items (maxsize q) (items q) [].

End ReadingsQ.

(** [SerialScale.MAX_BUFFERED_READINGS] and [BluetoothScale.MAX_BUFFERED_READINGS] *)
Definition MAX_BUFFERED_READINGS : Z := 10000.

(** ** Scales ([class SerialScale], [class BluetoothScale]) *)

Inductive Scale : Type :=
| SerialScale (port : string) (readingsQ : ReadingsQ.t)
| BluetoothScale (address name : string) (readingsQ : ReadingsQ.t).

(** [__str__] *)
Definition str (s : Scale) : string :=
  match s with
  | SerialScale port _ => ("Serial Scale at " ++ port)%string
  | BluetoothScale _ name _ => ("Bluetooth Scale " ++ name)%string
  end.

Definition readingsQ (s : Scale) : ReadingsQ.t :=
  match s with
  | SerialScale _ q => q
  | BluetoothScale _ _ q => q
  end.

Definition with_readingsQ (s : Scale) (q : ReadingsQ.t) : Scale :=
  match s with
  | SerialScale port _ => SerialScale port q
  | BluetoothScale address name _ => BluetoothScale address name q
  end.

(** [s.read()]: the pending readings, and the scale with its queue emptied. *)
Definition Scale_read (s : Scale) : list reading * Scale :=
  let '(readings, q) := ReadingsQ.read (readingsQ s) in
  (readings, with_readingsQ s q).

(** Scale objects live in a store shared by [self.scales], [self.scale] and
    the searchers; a scale is named by its position in the store. *)
Definition store : Type := list Scale.

(** What [self.scale] can hold: [None], [self.randomGenerator], or a scale
    of the store. *)
Inductive selection : Type :=
| NoScale
| RandomGenerator
| ScaleAt (ref : nat).

Fixpoint store_set (h : store) (ref : nat) (s : Scale) : store :=
  match h, ref with
  | [], _ => []
  | _ :: h', O => s :: h'
  | x :: h', S ref' => x :: store_set h' ref' s
  end.

(** ** [class LoadCellControl] *)

Record LoadCellControl : Type := MkLoadCellControl {
  length : Z;                       (* self.length = 100000 *)
  data : list (Q * Q);              (* deque([], self.length) *)
  numSamplesLastReading : Z;
  scales : list nat;                (* references into the store *)
  scale : selection;
  calibration : Calibration.t;
  sampleRate : Q;
  baudrate : Z
}.

Definition set_data (self : LoadCellControl) (d : list (Q * Q)) (n : Z)
  : LoadCellControl :=
  MkLoadCellControl (length self) d n (scales self) (scale self)
    (calibration self) (sampleRate self) (baudrate self).

Definition set_scale (self : LoadCellControl) (s : selection) : LoadCellControl :=
  MkLoadCellControl (length self) (data self) (numSamplesLastReading self)
    (scales self) s (calibration self) (sampleRate self) (baudrate self).

(** [__init__], with the two values read from the GUI as arguments. *)
Definition init (sampleRate : Q) (baudrate : Z) : LoadCellControl :=
  MkLoadCellControl 100000 [] 0 [] NoScale (Calibration.MkCalibration [] None)
    sampleRate baudrate.

(** [deque.append] on a deque of maximal length [maxlen]: once full, the
    leftmost entry is discarded. *)
Definition deque_append (maxlen : Z) (d : list (Q * Q)) (x : Q * Q) : list (Q * Q) :=
  if (maxlen <=? 0)%Z then []
  else if (Py.len d <? maxlen)%Z then d ++ [x]
  else tl d ++ [x].

Definition deque_extend (maxlen : Z) (d : list (Q * Q)) (l : list (Q * Q))
  : list (Q * Q) :=
  fold_left (deque_append maxlen) l d.

(** [self.data[-1]] and [self.data[-1] = x] *)
Definition last_entry (d : list (Q * Q)) : option (Q * Q) :=
  match rev d with
  | [] => None
  | x :: _ => Some x
  end.

Definition set_last_entry (d : list (Q * Q)) (x : Q * Q) : list (Q * Q) :=
  removelast d ++ [x].

Definition last_triple (l : list triple) : option triple :=
  match rev l with
  | [] => None
  | x :: _ => Some x
  end.

Definition clear (self : LoadCellControl) : LoadCellControl :=
  set_data self [] 0.

Definition time_and_val (t : triple) : Q * Q := fst t.

(** [addReadings].  The overlap test [fabs(t - lastTime) < sampleInterval]
    is on exact values here; in the source the rounded times are doubles,
    and two of them one interval apart can differ by less than the
    interval. *)
Definition addReadings (self : LoadCellControl) (readings : list reading)
  : option LoadCellControl :=
  if (Py.len readings <? 1)%Z then Some self
  else
    sampleInterval <- Py.truediv 1.0 (sampleRate self) ;;
    downsampled <- _downSampleReadings readings sampleInterval ;;
    first <- hd_error downsampled ;;
    let '(t, v, n) := first in
    match last_entry (data self) with
    | Some (lastTime, lastVal) =>
        if Py.ltb (Qabs (t - lastTime)) sampleInterval then
          let nslr := numSamplesLastReading self in
          avgVal <- Py.truediv (lastVal * inject_Z nslr + v * inject_Z n)
                               (inject_Z (nslr + n)) ;;
          let newestTime := Py.max t lastTime in
          let data' := set_last_entry (data self) (newestTime, avgVal) in
          let newPoints := tl downsampled in
          Some (set_data self
                  (deque_extend (length self) data' (map time_and_val newPoints))
                  (nslr + n)%Z)
        else
          final <- last_triple downsampled ;;
          Some (set_data self
                  (deque_extend (length self) (data self) (map time_and_val downsampled))
                  (snd final))
    | None =>
        final <- last_triple downsampled ;;
        Some (set_data self
                (deque_extend (length self) (data self) (map time_and_val downsampled))
                (snd final))
    end.

(** The operations on the series buffer, and a run of them. *)
Inductive op : Type :=
| AddReadings (readings : list reading)
| Clear.

Definition step (self : LoadCellControl) (o : op) : option LoadCellControl :=
  match o with
  | AddReadings readings => addReadings self readings
  | Clear => Some (clear self)
  end.

Fixpoint run (self : LoadCellControl) (ops : list op) : option LoadCellControl :=
  match ops with
  | [] => Some self
  | o :: ops' => self' <- step self o ;; run self' ops'
  end.

(** *** [saveRecording] *)

(** [np.searchsorted(times, v)] (side "left") on an ascending array: the
    first index whose entry is not below [v]. *)
Fixpoint searchsorted (times : list Q) (v : Q) : nat :=
  match times with
  | [] => O
  | t :: rest => if Py.ltb t v then S (searchsorted rest v) else O
  end.

(** A row handed to [csv_out.writerow]. *)
Inductive csv_row : Type :=
| TextRow (cells : list string)
| NumRow (time val : Q).

(** The rows written to the file, or [None] when no file is opened. *)
Definition saveRecording (self : LoadCellControl) (startTime stopTime : Q)
  : option (list csv_row) :=
  if (Py.len (data self) <? 1)%Z then None
  else
    let arr := data self in
    let times := map fst arr in
    let ilo := searchsorted times startTime in
    let ihi := searchsorted times stopTime in
    if Nat.eqb ilo ihi then None
    else
      let inRange := firstn (ihi - ilo) (skipn ilo arr) in
      Some (TextRow ["time"; "raw reading"]%string
              :: map (fun row => NumRow (fst row) (snd row)) inRange).

(** *** [useScale] *)

(** [for s in self.scales: if name == str(s): ...]: the first scale of the
    list whose display name is [name]. *)
Fixpoint find_scale (h : store) (refs : list nat) (name : string) : option nat :=
  match refs with
  | [] => None
  | r :: refs' =>
      match nth_error h r with
      | Some s => if String.eqb name (str s) then Some r else find_scale h refs' name
      | None => find_scale h refs' name
      end
  end.

Definition useScale (h : store) (self : LoadCellControl) (name : string)
  : store * LoadCellControl :=
  if String.eqb name "Select..." then (h, set_scale self NoScale)
  else if String.eqb name "Random Generator" then (h, set_scale self RandomGenerator)
  else
    match find_scale h (scales self) name with
    | Some r =>
        match nth_error h r with
        | Some s =>
            (* clear the old stuff *)
            let '(_, s') := Scale_read s in
            (store_set h r s', set_scale self (ScaleAt r))
        | None => (h, self)
        end
    | None => (h, self)
    end.

(** ** Auxiliary definitions for the statements and proofs *)

(** The value of [_round] when the base is not zero. *)
Definition round_to (x base : Q) (prec : Z) : Q :=
  Py.round_ndigits (base * inject_Z (Py.round (x / base))) prec.

(** Half a unit of the last decimal place kept by [round(x, prec)]. *)
Definition half_unit (prec : Z) : Q := (1 # 2) / 10 ^ prec.

(** The rounded time of a reading, and the readings assigned to the bucket
    of rounded time [rt]. *)
Definition rounded (base : Q) (r : reading) : Q :=
  round_to (fst r) base default_prec.

Definition assigned (base rt : Q) (readings : list reading) : list reading :=
  filter (fun r => Qeq_bool (rounded base r) rt) readings.

(** [_downSampleReadings] when nothing raises: the dict, the triples and the
    sorted result. *)
Definition groups (base : Q) (readings : list reading) (d : dict) : dict :=
  fold_left (fun d r => dict_add d (rounded base r) (snd r)) readings d.

Definition mean (vals : list Q) : Q := Py.sum vals / inject_Z (Py.len vals).

Definition triples (d : dict) : list triple :=
  map (fun e => (fst e, mean (snd e), Py.len (snd e))) d.

Definition downsample (base : Q) (readings : list reading) : list triple :=
  sort_by_key (triples (groups base readings [])).

(** Orders on triples by rounded time. *)
Definition key_lt (a b : triple) : Prop := key a < key b.
Definition key_neq (a b : triple) : Prop := ~ key a == key b.
Definition fst_neq (a b : Q * list Q) : Prop := ~ fst a == fst b.

(** What an entry of the dict holds after the readings [rs], and the
    readings being covered by the keys of the dict. *)
Definition entry_ok (base : Q) (rs : list reading) (e : Q * list Q) : Prop :=
  snd e = map snd (assigned base (fst e) rs) /\
  exists r, In r rs /\ fst e = rounded base r.

Definition covered (base : Q) (rs : list reading) (d : dict) : Prop :=
  forall r, In r rs -> exists e, In e d /\ fst e == rounded base r.

(** The readings of a batch whose rounded time is the float [rt]. *)
Definition in_bucket (sampleInterval rt : Q) (r : reading) : bool :=
  match _round (fst r) sampleInterval default_prec with
  | Some x => Qeq_bool x rt
  | None => false
  end.

Definition bucket_readings (sampleInterval rt : Q) (readings : list reading)
  : list reading :=
  filter (in_bucket sampleInterval rt) readings.

(** [sampleInterval = 1.0 / self.sampleRate] *)
Definition sample_interval (self : LoadCellControl) : Q := 1.0 / sampleRate self.

(** The times of the series buffer. *)
Definition times (d : list (Q * Q)) : list Q := map fst d.

Definition ascending (l : list Q) : Prop := StronglySorted Qlt l.

(** Two consecutive batches: no reading of the second is earlier than a
    reading of the first. *)
Definition contiguous (first second : list reading) : bool :=
  forallb (fun a => forallb (fun b => Qle_bool (fst a) (fst b)) second) first.

(** Batches in non-decreasing time order: no reading of a batch is earlier
    than a reading ingested since the buffer was last cleared.  [seen] holds
    the readings ingested since then. *)
Fixpoint time_ordered (seen : list reading) (ops : list op) : bool :=
  match ops with
  | [] => true
  | Clear :: ops' => time_ordered [] ops'
  | AddReadings readings :: ops' =>
      contiguous seen readings && time_ordered (seen ++ readings) ops'
  end.

(** The readings ingested since the last [clear]. *)
Definition seen_after (seen : list reading) (o : op) : list reading :=
  match o with
  | AddReadings readings => seen ++ readings
  | Clear => []
  end.

Definition pending (seen : list reading) (ops : list op) : list reading :=
  fold_left seen_after ops seen.

(** What holds of the series buffer after the readings [seen]: the count is
    not negative, the deque is within its maximal length, the times are
    strictly ascending, and the last time is the rounded time of a reading
    seen. *)
Definition buffer_inv (seen : list reading) (self : LoadCellControl) : Prop :=
  (0 <= numSamplesLastReading self)%Z /\
  (0 < length self)%Z /\ (Py.len (data self) <= length self)%Z /\
  ascending (times (data self)) /\
  forall e, last_entry (data self) = Some e ->
    exists r, In r seen /\ fst e = rounded (sample_interval self) r.

(** The rounded times of the two batches either coincide or lie at least
    one sample interval apart. *)
Definition separated (base : Q) (first second : list reading) : bool :=
  forallb (fun a =>
    forallb (fun b =>
      Qeq_bool (rounded base a) (rounded base b)
      || Qle_bool base (Qabs (rounded base b - rounded base a))) second) first.

(** A sample interval with at most [prec] decimals. *)
Definition decimal (prec : Z) (base : Q) : Prop :=
  exists z : Z, base * 10 ^ prec == inject_Z z.

(** The last [c] items of a list. *)
Definition last_items {A : Type} (c : nat) (l : list A) : list A :=
  skipn (List.length l - c) l.

(** The samples of the buffer with [startTime <= time < stopTime]. *)
Definition in_range (startTime stopTime : Q) (sample : Q * Q) : bool :=
  Qle_bool startTime (fst sample) && Py.ltb (fst sample) stopTime.

Definition header_row : csv_row := TextRow ["time"; "raw reading"]%string.

Definition data_row (sample : Q * Q) : csv_row := NumRow (fst sample) (snd sample).

(** The units of the conversion table. *)
Definition units : list string := map fst Calibration.CONVERSIONS.

(** [n * sum(x*x) - sum(x)**2], the determinant of the normal equations. *)
Definition sum_squares (x : list Q) : Q := Py.sum (map (fun xi => xi * xi) x).

Definition normal_det (x : list Q) : Q :=
  inject_Z (Py.len x) * sum_squares x - Py.sum x * Py.sum x.

(** The sum of the squared distances of [a] to the entries of [l]. *)
Definition sq_dist (a : Q) (l : list Q) : Q :=
  Py.sum (map (fun x => (a - x) * (a - x)) l).

(** Calibration points on the line [real = slope * measured + intercept]. *)
Definition on_line (slope intercept : Q) (pts : list (Q * Q)) : Prop :=
  forall p, In p pts -> snd p == slope * fst p + intercept.

Definition two_measured_values (pts : list (Q * Q)) : Prop :=
  exists p q, In p pts /\ In q pts /\ ~ fst p == fst q.

(** A scale after its pending readings have been read. *)
Definition drained (s : Scale) : Scale :=
  with_readingsQ s (ReadingsQ.MkQueue (ReadingsQ.maxsize (readingsQ s)) []).

(** The fit of a calibration is the one computed from its points. *)
Definition fit_current (polyfit : list Q -> list Q -> option (Q * Q))
           (cal : Calibration.t) : Prop :=
  Calibration.fit cal = Calibration.fitLine polyfit (Calibration.pts cal).

(** ** More of [class Calibration] and its users in [LoadCellControl] *)

(** [Calibration.__len__] *)
Definition Calibration_len (self : Calibration.t) : Z :=
  Py.len (Calibration.pts self).

(** [Calibration.convertedTo]: [Calibration(pts=self.pts, units=units)]. *)
Definition convertedTo (polyfit : list Q -> list Q -> option (Q * Q))
           (self : Calibration.t) (units : string) : option Calibration.t :=
  Calibration.init polyfit (Calibration.pts self) units.

Definition set_calibration (self : LoadCellControl) (cal : Calibration.t)
  : LoadCellControl :=
  MkLoadCellControl (length self) (data self) (numSamplesLastReading self)
    (scales self) (scale self) cal (sampleRate self) (baudrate self).

(** [LoadCellControl.removeSamples]: [for p in pts: removePoint(p)]. *)
Definition removeSamples (polyfit : list Q -> list Q -> option (Q * Q))
           (self : LoadCellControl) (pts : list (Q * Q)) : LoadCellControl :=
  set_calibration self
    (fold_left (Calibration.removePoint polyfit) pts (calibration self)).

(** The points of a calibration are pairwise different. *)
Definition different_pts (p q : Q * Q) : Prop := Calibration.pt_eqb p q = false.

Definition distinct_pts (pts : list (Q * Q)) : Prop :=
  StronglySorted different_pts pts.

(** What [convertedTo] stores for a point held in newtons. *)
Definition reinterpreted (cu : Q) (p : Q * Q) : Q * Q :=
  (fst p, snd p * (1.0 / cu))%Q.

(** The points that are none of [l]. *)
Definition without (l : list (Q * Q)) (pts : list (Q * Q)) : list (Q * Q) :=
  filter (fun p => negb (Calibration.pt_in p l)) pts.

(** ** More slots of [LoadCellControl] *)

(** [addReading]: [self.addReadings([reading])]. *)
Definition addReading (self : LoadCellControl) (r : reading)
  : option LoadCellControl :=
  addReadings self [r].

(** [setSampleRate] *)
Definition setSampleRate (self : LoadCellControl) (sr : Q) : LoadCellControl :=
  MkLoadCellControl (length self) (data self) (numSamplesLastReading self)
    (scales self) (scale self) (calibration self) sr (baudrate self).

(** The slots that touch the series buffer, as the GUI may call them in any
    order. *)
Inductive slot :=
| Ingest (readings : list reading)
| IngestOne (r : reading)
| ClearData
| SetSampleRate (sr : Q).

Definition handle (self : LoadCellControl) (s : slot) : option LoadCellControl :=
  match s with
  | Ingest readings => addReadings self readings
  | IngestOne r => addReading self r
  | ClearData => Some (clear self)
  | SetSampleRate sr => Some (setSampleRate self sr)
  end.

Fixpoint handle_all (self : LoadCellControl) (l : list slot)
  : option LoadCellControl :=
  match l with
  | [] => Some self
  | s :: l' => self' <- handle self s ;; handle_all self' l'
  end.

(** No sample rate set is zero. *)
Definition rate_not_zero (s : slot) : Prop :=
  match s with
  | SetSampleRate sr => ~ sr == 0
  | _ => True
  end.

(** The count is not negative, it is zero when the buffer is empty, and the
    buffer is within its maximal length of 100000. *)
Definition bounded (self : LoadCellControl) : Prop :=
  length self = 100000%Z /\
  (0 <= numSamplesLastReading self)%Z /\
  (Py.len (data self) <= 100000)%Z /\
  (data self = [] -> numSamplesLastReading self = 0%Z).



(** ** [class PhonyScale] *)

Module PhonyScale.

Local Open Scope Q_scope.

(** [shouldContinue] of [frange], with the [inc] it closes over. *)
Definition shouldContinue (inc current cutoff : Q) : bool :=
  if Py.ltb 0 inc then Py.ltb current cutoff else Py.ltb cutoff current.

(** The [while] loop of the generator [frange], collected into a list: each
    round yields [result] and sets [result = start + i * inc], [i += 1].
    Without fuel left the loop has not ended. *)
Fixpoint frange_loop (fuel : nat) (start stop inc : Q) (i : Z) (result : Q)
  : option (list Q) :=
  match fuel with
  | O => None
  | S fuel' =>
      if shouldContinue inc result stop then
        rest <- frange_loop fuel' start stop inc (i + 1) (start + inject_Z i * inc) ;;
        Some (result :: rest)
      else Some []
  end.

Definition frange (fuel : nat) (start : Q) (stop inc : option Q)
  : option (list Q) :=
  let '(start, stop) :=
    match stop with
    | None => (0.0, start)
    | Some stop => (start, stop)
    end in
  let inc := match inc with None => 1.0 | Some inc => inc end in
  frange_loop fuel start stop inc 1 start.

Definition SAMPLE_PERIOD : Q := 1.0 / 80.

Record t := MkPhonyScale { last : Q; baudrate : Z }.

(** [int(x)] of a float: truncation toward zero. *)
Definition int (x : Q) : Z := Z.quot (Qnum x) (Zpos (Qden x)).

(** The loop of [read] over the timestamps; [normal k] is the [k]-th value
    that [rand.normal()] returns during the call. *)
Fixpoint read_loop (normal : nat -> Q) (k : nat) (timestamps : list Q)
  : list reading :=
  match timestamps with
  | [] => []
  | timestamp :: rest =>
      (timestamp, inject_Z (int (normal k * 100))) :: read_loop normal (S k) rest
  end.

(** [read], with [now = time.time()]; the scale is left as it is. *)
Definition read (fuel : nat) (self : t) (now : Q) (normal : nat -> Q)
  : option (list reading) :=
  timestamps <- frange fuel (last self) (Some now) (Some SAMPLE_PERIOD) ;;
  Some (read_loop normal 0 timestamps).

End PhonyScale.

(** [start, start + inc, ..., start + (n - 1) * inc], as [frange] computes
    them. *)
Definition arith_seq (start inc : Q) (n : nat) : list Q :=
  match n with
  | O => []
  | S m => start :: map (fun i => start + inject_Z (Z.of_nat i) * inc) (seq 1 m)
  end.

(** The value that [frange] computes in round [i]. *)
Definition frange_point (start inc : Q) (i : nat) : Q :=
  (start + inject_Z (Z.of_nat i) * inc)%Q.

(** [readFromScale]: [if self.scale: self.addReadings(self.scale.read())].
    A scale object is always true.  [gen] is [self.randomGenerator]; [now]
    and [normal] are the clock and the random values of its [read]. *)
Definition readFromScale (h : store) (gen : PhonyScale.t) (fuel : nat) (now : Q)
           (normal : nat -> Q) (self : LoadCellControl)
  : option (store * LoadCellControl) :=
  match scale self with
  | NoScale => Some (h, self)
  | RandomGenerator =>
      readings <- PhonyScale.read fuel gen now normal ;;
      self' <- addReadings self readings ;;
      Some (h, self')
  | ScaleAt r =>
      s <- nth_error h r ;;
      let '(readings, s') := Scale_read s in
      self' <- addReadings self readings ;;
      Some (store_set h r s', self')
  end.

(** ** [class SerialReader] *)

Module SerialReader.

Open Scope string_scope.
Open Scope list_scope.

(** What one call of [self._ser.read(1)] gives: it raises
    [serial.SerialException], returns [b""] after the read timeout, or
    returns one byte.  The port is the list of what the calls to come give;
    once the list is used up nothing arrives any more and a read times
    out. *)
Inductive read_result : Type :=
| SerialException
| TimedOut
| Received (c : Byte.byte).

Definition port : Type := list read_result.

Definition ser_read (ser : port) : read_result * port :=
  match ser with
  | [] => (TimedOut, [])
  | x :: ser' => (x, ser')
  end.

Definition MAX_PACKET_SIZE : nat := 20.

(** A [for] loop whose body may [return]: [Return r] leaves the function with
    [r], [Next s] goes on with the next round; after the last round the
    function falls off its end. *)
Inductive flow (R S : Type) : Type :=
| Return (r : R)
| Next (s : S).

Arguments Return {R S} r.
Arguments Next {R S} s.

Fixpoint for_range {R S : Type} (n : nat) (body : S -> flow R S) (s : S)
         (fall_off : S -> R) : R :=
  match n with
  | O => fall_off s
  | S n' =>
      match body s with
      | Return r => r
      | Next s' => for_range n' body s' fall_off
      end
  end.

Fixpoint bytes_eqb (a b : list Byte.byte) : bool :=
  match a, b with
  | [], [] => true
  | x :: a', y :: b' => Byte.eqb x y && bytes_eqb a' b'
  | _, _ => false
  end.

(** [chars[-2:]] and [chars[:-2]] *)
Definition last_two (chars : list Byte.byte) : list Byte.byte :=
  skipn (List.length chars - 2) chars.

Definition but_last_two (chars : list Byte.byte) : list Byte.byte :=
  firstn (List.length chars - 2) chars.

(** [c.decode()] of one byte: UTF-8 decodes the bytes below 128 and raises
    [UnicodeDecodeError] on the others. *)
Definition decode (c : Byte.byte) : option string :=
  if (Byte.to_N c <? 128)%N then Some (String (Ascii.ascii_of_byte c) EmptyString)
  else None.

Fixpoint decode_all (chars : list Byte.byte) : option (list string) :=
  match chars with
  | [] => Some []
  | c :: rest => s <- decode c ;; strs <- decode_all rest ;; Some (s :: strs)
  end.

(** The body of the loop of [_readline], on [chars] and the port. *)
Definition readline_body (st : list Byte.byte * port)
  : flow (option string * port) (list Byte.byte * port) :=
  let '(chars, ser) := st in
  match ser_read ser with
  | (SerialException, ser') => Return (None, ser')
  | (TimedOut, ser') => Return (None, ser')
  | (Received c, ser') =>
      let chars := chars ++ [c] in
      if bytes_eqb (last_two chars) [Byte.x0d; Byte.x0a] then
        match decode_all (but_last_two chars) with
        | Some strs => Return (Some (String.concat "" strs), ser')
        | None => Return (Some "error", ser')
        end
      else Return (None, ser')
  end.

(** [_readline]: the line read, and the port after it. *)
Definition _readline (ser : port) : option string * port :=
  for_range MAX_PACKET_SIZE readline_body ([], ser) (fun st => (None, snd st)).

(** The commands that [SerialScale] puts into [commandQ]: the poison pill
    [None], and [{"attr": "baudrate", "val": newval}]. *)
Inductive command : Type :=
| PoisonPill
| SetBaudrate (val : Z).

Record t : Type := MkSerialReader {
  is_open : bool;                  (* self._ser.is_open *)
  ser : port;
  commandQ : list command;
  readingsQ : ReadingsQ.t;
  _baudrate : Z;
  ticks : nat                      (* calls of time.time() so far *)
}.

Definition close (self : t) : t :=
  MkSerialReader false (ser self) (commandQ self) (readingsQ self)
    (_baudrate self) (ticks self).

(** A string is true when it is not empty. *)
Definition truthy (line : option string) : bool :=
  match line with
  | Some (String _ _) => true
  | _ => false
  end.

Section Run.

(** [int(line)], which raises on what is not a number, and [time.time()]. *)
Variable int : string -> option Z.
Variable time : nat -> Q.

(** One round of the loop of [run]: [inl] when the loop goes on ([continue]
    or the end of the body), [inr] on [break]; [None] when [put] waits for
    ever. *)
Definition run_body (self : t) : option (t + t) :=
  (* check for updates from outside this thread *)
  let after_cmd : t + t :=
    match commandQ self with
    | [] => inl self
    | PoisonPill :: cmds =>
        inr (MkSerialReader (is_open self) (ser self) cmds (readingsQ self)
               (_baudrate self) (ticks self))
    | SetBaudrate val :: cmds =>
        inl (MkSerialReader (is_open self) (ser self) cmds (readingsQ self)
               val (ticks self))
    end in
  match after_cmd with
  | inr self' => Some (inr self')
  | inl self' =>
      let '(line, ser') := _readline (ser self') in
      let self' := MkSerialReader (is_open self') ser' (commandQ self')
                     (readingsQ self') (_baudrate self') (ticks self') in
      if truthy line then
        match line with
        | Some l =>
            match int l with
            | None => Some (inl self')
            | Some reading =>
                let pair := (time (ticks self'), inject_Z reading) in
                q <- ReadingsQ.push (readingsQ self') pair ;;
                Some (inl (MkSerialReader (is_open self') (ser self')
                             (commandQ self') q (_baudrate self')
                             (S (ticks self'))))
            end
        | None => Some (inr self')
        end
      else Some (inr self')
  end.

(** [while self._ser.is_open: ...] followed by [self.close()], from the
    state after [_openPort] and [_waitForLink]. *)
Fixpoint run_loop (fuel : nat) (self : t) : option t :=
  match fuel with
  | O => None
  | S fuel' =>
      if is_open self then
        r <- run_body self ;;
        match r with
        | inl self' => run_loop fuel' self'
        | inr self' => Some (close self')
        end
      else Some (close self)
  end.

End Run.

End SerialReader.

(** ** The searchers and the list of scales *)

(** The class attributes [SerialScaleSearcher.availableScales] and
    [BluetoothScaleSearcher.availableScales]: two lists of scale objects,
    named by their position in the store. *)
Module Searchers.

Record t : Type := MkSearchers {
  serial_available : list nat;
  bluetooth_available : list nat
}.

End Searchers.

(** [s in l] for scale objects: they define no [__eq__], so two are equal
    when they are the same object. *)
Definition scale_in (s : nat) (l : list nat) : bool := existsb (Nat.eqb s) l.

(** [BluetoothScale(addr, name)]: a new object, with an empty queue of
    [MAX_BUFFERED_READINGS] places. *)
Definition new_BluetoothScale (h : store) (addr name : string) : store * nat :=
  (h ++ [BluetoothScale addr name (ReadingsQ.create MAX_BUFFERED_READINGS)],
   List.length h).

(** [while not cls.Q.empty(): ...] of [BluetoothScaleSearcher.update], over
    the pairs waiting in [cls.Q]. *)
Fixpoint add_found (h : store) (available : list nat)
         (found : list (string * string)) : store * list nat :=
  match found with
  | [] => (h, available)
  | (addr, name) :: rest =>
      let '(h', s) := new_BluetoothScale h addr name in
      add_found h' (available ++ [s]) rest
  end.

(** [BluetoothScaleSearcher.update], up to the start of the search process
    (which only fills [cls.Q] later): [is_open s] is [s.isOpen()], the reader
    process of [s] being alive, and [found] is what waits in [cls.Q]. *)
Definition BluetoothScaleSearcher_update (is_open : nat -> bool)
           (found : list (string * string)) (h : store) (g : Searchers.t)
  : store * Searchers.t :=
  let pruned := filter is_open (Searchers.bluetooth_available g) in
  let '(h', available) := add_found h pruned found in
  (h', Searchers.MkSearchers (Searchers.serial_available g) available).

(** [scale.updateAvailableScales]: the update of the serial searcher is
    commented out. *)
Definition scale_updateAvailableScales := BluetoothScaleSearcher_update.

(** [scale.availableScales]: [result] is the list object of the serial
    searcher itself, and [extend] changes it in place. *)
Definition availableScales (g : Searchers.t) : list nat * Searchers.t :=
  let result := Searchers.serial_available g ++ Searchers.bluetooth_available g in
  (result, Searchers.MkSearchers result (Searchers.bluetooth_available g)).

Definition set_scales (self : LoadCellControl) (l : list nat) : LoadCellControl :=
  MkLoadCellControl (length self) (data self) (numSamplesLastReading self)
    l (scale self) (calibration self) (sampleRate self) (baudrate self).

(** [list.remove(s)]: the first entry equal to [s] is removed; [ValueError]
    when there is none. *)
Fixpoint list_remove_scale (l : list nat) (s : nat) : option (list nat) :=
  match l with
  | [] => None
  | x :: l' =>
      if Nat.eqb x s then Some l'
      else (r <- list_remove_scale l' s ;; Some (x :: r))
  end.

(** [removeScale] *)
Definition removeScale (self : LoadCellControl) (s : nat) : option LoadCellControl :=
  l <- list_remove_scale (scales self) s ;;
  Some (set_scales self l).

Definition is_SerialScale (h : store) (s : nat) : bool :=
  match nth_error h s with
  | Some (SerialScale _ _) => true
  | _ => false
  end.

(** What is put into the [commandQ] of a scale. *)
Definition sent : Type := nat * SerialReader.command.

(** [addScale]: the new state, and the command put by [s.baudrate = ...]. *)
Definition addScale (h : store) (self : LoadCellControl) (s : nat)
  : LoadCellControl * list sent :=
  (set_scales self (scales self ++ [s]),
   if is_SerialScale h s then [(s, SerialReader.SetBaudrate (baudrate self))]
   else []).

(** [setBaudrate] *)
Definition setBaudrate (h : store) (self : LoadCellControl) (br : Z)
  : LoadCellControl * list sent :=
  (MkLoadCellControl (length self) (data self) (numSamplesLastReading self)
     (scales self) (scale self) (calibration self) (sampleRate self) br,
   flat_map (fun s => if is_SerialScale h s
                      then [(s, SerialReader.SetBaudrate br)] else [])
            (scales self)).

(** [for s in self.scales: if s not in available: self.removeScale(s)]: the
    loop reads [self.scales[i]] for [i = 0, 1, ...] until [i] is past the end
    of the list as it is then; a removal shifts the entries behind it. *)
Fixpoint remove_dead (rounds i : nat) (self : LoadCellControl)
         (available : list nat) : option LoadCellControl :=
  match rounds with
  | O => Some self
  | S rounds' =>
      match nth_error (scales self) i with
      | None => Some self
      | Some s =>
          if negb (scale_in s available) then
            self' <- removeScale self s ;;
            remove_dead rounds' (S i) self' available
          else remove_dead rounds' (S i) self available
      end
  end.

(** [for s in available: if s not in self.scales: self.addScale(s)] *)
Fixpoint add_new (h : store) (self : LoadCellControl) (available : list nat)
  : LoadCellControl * list sent :=
  match available with
  | [] => (self, [])
  | s :: rest =>
      if negb (scale_in s (scales self)) then
        let '(self', c) := addScale h self s in
        let '(self'', cs) := add_new h self' rest in
        (self'', c ++ cs)
      else add_new h self rest
  end.

(** [LoadCellControl.updateAvailableScales] *)
Definition updateAvailableScales (is_open : nat -> bool)
           (found : list (string * string))
           (h : store) (g : Searchers.t) (self : LoadCellControl)
  : option (store * Searchers.t * LoadCellControl * list sent) :=
  let '(h', g') := scale_updateAvailableScales is_open found h g in
  let '(available, g'') := availableScales g' in
  (* clear dead ones *)
  self' <- remove_dead (List.length (scales self)) 0 self available ;;
  (* add new ones *)
  let '(self'', cs) := add_new h' self' available in
  Some (h', g'', self'', cs).

(** The timer calls [updateAvailableScales] once a second; each call comes
    with what the outside gives it then. *)
Definition tick : Type := (nat -> bool) * list (string * string).

Fixpoint ticks (h : store) (g : Searchers.t) (self : LoadCellControl)
         (l : list tick) : option (store * Searchers.t * LoadCellControl) :=
  match l with
  | [] => Some (h, g, self)
  | (is_open, found) :: l' =>
      r <- updateAvailableScales is_open found h g self ;;
      let '(h', g', self', _) := r in
      ticks h' g' self' l'
  end.

(** What holds of the list of scales: every scale listed is in the list of
    the serial searcher, no scale is listed twice, and the lists name
    objects of the store. *)
Definition scales_inv (h : store) (g : Searchers.t) (self : LoadCellControl)
  : Prop :=
  incl (scales self) (Searchers.serial_available g) /\
  NoDup (scales self) /\
  Forall (fun s => (s < List.length h)%nat) (Searchers.serial_available g) /\
  Forall (fun s => (s < List.length h)%nat) (Searchers.bluetooth_available g).

(** Calls of [addScale], [removeScale] and [setBaudrate] in any order, with
    the commands put into the queues of the scales so far. *)
Inductive scale_op : Type :=
| AddScale (s : nat)
| RemoveScale (s : nat)
| SetBaudrate (br : Z).

Definition scale_step (h : store) (st : LoadCellControl * list sent) (o : scale_op)
  : option (LoadCellControl * list sent) :=
  let '(self, log) := st in
  match o with
  | AddScale s => let '(self', c) := addScale h self s in Some (self', log ++ c)
  | RemoveScale s => self' <- removeScale self s ;; Some (self', log)
  | SetBaudrate br => let '(self', c) := setBaudrate h self br in Some (self', log ++ c)
  end.

Fixpoint scale_ops (h : store) (st : LoadCellControl * list sent)
         (l : list scale_op) : option (LoadCellControl * list sent) :=
  match l with
  | [] => Some st
  | o :: l' => st' <- scale_step h st o ;; scale_ops h st' l'
  end.

(** The command put last into the queue of the scale [s]. *)
Definition last_sent (log : list sent) (s : nat) : option SerialReader.command :=
  fold_left (fun acc c => if Nat.eqb (fst c) s then Some (snd c) else acc) log None.

(** Every serial scale listed has been sent the baudrate of the
    application last. *)
Definition baudrate_sent (h : store) (st : LoadCellControl * list sent) : Prop :=
  forall s, In s (scales (fst st)) -> is_SerialScale h s = true ->
    last_sent (snd st) s = Some (SerialReader.SetBaudrate (baudrate (fst st))).

(** ** Opening recordings and calibrations *)

(** One row of the file as the loops of [openRecording] and
    [openCalibration] read it: [time, value = row] needs two cells, and
    [float] must read both, or the row is passed over.  The two cells of a
    [NumRow] are floats as [csv] writes them, which [float] reads back as
    they were; [float] is Python's, on the cells that hold text. *)
Definition read_row (float : string -> option Q) (row : csv_row)
  : option (Q * Q) :=
  match row with
  | NumRow time value => Some (time, value)
  | TextRow [time; value] =>
      t <- float time ;; v <- float value ;; Some (t, v)
  | TextRow _ => None
  end.

Fixpoint read_rows (float : string -> option Q) (file : list csv_row)
  : list (Q * Q) :=
  match file with
  | [] => []
  | row :: rest =>
      match read_row float row with
      | Some pt => pt :: read_rows float rest
      | None => read_rows float rest
      end
  end.

(** [openRecording], on the rows of the file opened. *)
Definition openRecording (float : string -> option Q) (self : LoadCellControl)
           (file : list csv_row) : option LoadCellControl :=
  let self := clear self in
  addReadings self (read_rows float file).

(** [saveCalibration]: the rows written, or [None] when no file is opened. *)
Definition saveCalibration (self : LoadCellControl) : option (list csv_row) :=
  if (Calibration_len (calibration self) =? 0)%Z then None
  else
    Some (TextRow ["measured"; "real"]%string
            :: map (fun row => NumRow (fst row) (snd row))
                   (Calibration.pts (calibration self))).

(** [openCalibration], on the rows of the file opened. *)
Definition openCalibration (polyfit : list Q -> list Q -> option (Q * Q))
           (float : string -> option Q) (self : LoadCellControl)
           (file : list csv_row) : option LoadCellControl :=
  cal <- Calibration.init polyfit (read_rows float file) "N" ;;
  Some (set_calibration self cal).

(** Two lists of pairs of floats with equal entries. *)
Definition same_pairs (l l' : list (Q * Q)) : Prop :=
  Forall2 (fun e e' => fst e == fst e' /\ snd e == snd e') l l'.

(** The number of readings that the buckets stand for, and the sum of their
    values, each bucket weighted by its count. *)
Fixpoint total_count (l : list triple) : Z :=
  match l with
  | [] => 0
  | t :: l' => snd t + total_count l'
  end.

Fixpoint weighted_sum (l : list triple) : Q :=
  match l with
  | [] => 0
  | t :: l' => snd (fst t) * inject_Z (snd t) + weighted_sum l'
  end.

(** The same for the dict of [_downSampleReadings]. *)
Fixpoint dict_count (d : dict) : Z :=
  match d with
  | [] => 0
  | e :: d' => Py.len (snd e) + dict_count d'
  end.

Fixpoint dict_sum (d : dict) : Q :=
  match d with
  | [] => 0
  | e :: d' => Py.sum (snd e) + dict_sum d'
  end.

(** ** A push of the reader interleaved with a read of the consumer *)

(** The reader process runs
    [while self.readingsQ.full(): self.readingsQ.get()] and then
    [self.readingsQ.put(pair)] ([SerialReader.run]); the application runs
    [while not self.readingsQ.empty(): readings.append(self.readingsQ.get())]
    ([SerialScale.read]) on the same queue.  Each call on the queue is one
    step of its process, and the steps of the two processes come in any
    order.  A process whose [get] or [put] has to wait stays where it is. *)
Module PushRead.

Inductive producer_pc : Type :=
| AtFull        (* about to call [full()] *)
| AtGet         (* about to call [get()] in the loop *)
| AtPut         (* about to call [put(pair)] *)
| Pushed.       (* the pair has been put *)

Inductive consumer_pc : Type :=
| AtEmpty       (* about to call [empty()] *)
| AtGetItem     (* about to call [get()] in the loop *)
| Returned.     (* [read] has returned its readings *)

Record t : Type := MkState {
  queue : ReadingsQ.t;
  producer : producer_pc;
  consumer : consumer_pc;
  readings : list reading           (* the list that [read] builds *)
}.

Inductive process : Type := Producer | Consumer.

Definition producer_step (pair : reading) (s : t) : t :=
  match producer s with
  | AtFull =>
      if ReadingsQ.full (queue s)
      then MkState (queue s) AtGet (consumer s) (readings s)
      else MkState (queue s) AtPut (consumer s) (readings s)
  | AtGet =>
      match ReadingsQ.get (queue s) with
      | Some (_, q') => MkState q' AtFull (consumer s) (readings s)
      | None => s
      end
  | AtPut =>
      match ReadingsQ.put (queue s) pair with
      | Some q' => MkState q' Pushed (consumer s) (readings s)
      | None => s
      end
  | Pushed => s
  end.

(** After [read] has returned, the next step of the application is the next
    call of [read] (the timer of [readFromScale]). *)
Definition consumer_step (s : t) : t :=
  match consumer s with
  | AtEmpty =>
      if ReadingsQ.empty (queue s)
      then MkState (queue s) (producer s) Returned (readings s)
      else MkState (queue s) (producer s) AtGetItem (readings s)
  | AtGetItem =>
      match ReadingsQ.get (queue s) with
      | Some (x, q') => MkState q' (producer s) AtEmpty (readings s ++ [x])
      | None => s
      end
  | Returned => MkState (queue s) (producer s) AtEmpty []
  end.

Definition step (pair : reading) (s : t) (p : process) : t :=
  match p with
  | Producer => producer_step pair s
  | Consumer => consumer_step s
  end.

(** The steps of a schedule, one after the other. *)
Definition run (pair : reading) (s : t) (schedule : list process) : t :=
  fold_left (step pair) schedule s.

(** A push begins and a read begins. *)
Definition start (q : ReadingsQ.t) : t := MkState q AtFull AtEmpty [].

End PushRead.

(** * Proofs *)

(** ** Rounding to the nearest integer *)

Section RoundFacts.

Local Open Scope Q_scope.

Lemma floor_bounds (q : Q) :
  inject_Z (Qfloor q) <= q /\ q < inject_Z (Qfloor q) + 1.
Proof.
  split; [apply Qfloor_le|].
  pose proof (Qlt_floor q) as H.
  rewrite inject_Z_plus in H. exact H.
Qed.

Lemma round_cases (q : Q) :
  Py.round q = Qfloor q /\ q - inject_Z (Qfloor q) <= 1 # 2 \/
  Py.round q = (Qfloor q + 1)%Z /\ 1 # 2 <= q - inject_Z (Qfloor q).
Proof.
  unfold Py.round.
  destruct (Qcompare_spec (q - inject_Z (Qfloor q)) (1 # 2)) as [E|L|G].
  - destruct (Z.even (Qfloor q)); [left|right]; split; trivial; rewrite E; lra.
  - left; split; trivial; lra.
  - right; split; trivial; lra.
Qed.

(** The rounded value is within one half of the argument. *)
Lemma round_bounds (q : Q) :
  inject_Z (Py.round q) - (1 # 2) <= q /\ q <= inject_Z (Py.round q) + (1 # 2).
Proof.
  destruct (floor_bounds q) as [Hlo Hhi].
  destruct (round_cases q) as [[-> H]|[-> H]].
  - lra.
  - rewrite inject_Z_plus. change (inject_Z 1) with 1. lra.
Qed.

Lemma inject_Z_lt_succ (a c : Z) : inject_Z a < inject_Z c + 1 -> (a <= c)%Z.
Proof.
  intros H.
  assert (inject_Z a < inject_Z (c + 1)) as H'
    by (rewrite inject_Z_plus; exact H).
  rewrite <- Zlt_Qlt in H'. lia.
Qed.

(** An integer strictly within one half of the argument is the rounded value. *)
Lemma round_unique (q : Q) (z : Z) :
  inject_Z z - (1 # 2) < q -> q < inject_Z z + (1 # 2) -> Py.round q = z.
Proof.
  intros Hlo Hhi.
  destruct (round_bounds q) as [Rlo Rhi].
  apply Z.le_antisymm; apply inject_Z_lt_succ; lra.
Qed.

Lemma round_inject_Z (z : Z) : Py.round (inject_Z z) = z.
Proof. apply round_unique; lra. Qed.

Lemma round_comp (q q' : Q) : q == q' -> Py.round q = Py.round q'.
Proof.
  intros E. unfold Py.round.
  assert (Qfloor q = Qfloor q') as F by (rewrite E; reflexivity).
  rewrite <- F.
  assert (Qcompare (q - inject_Z (Qfloor q)) (1 # 2)
          = Qcompare (q' - inject_Z (Qfloor q)) (1 # 2)) as C
    by (apply Qcompare_comp; lra).
  rewrite C. reflexivity.
Qed.

(** Rounding is monotone. *)
Lemma round_mono (q q' : Q) : q <= q' -> (Py.round q <= Py.round q')%Z.
Proof.
  intros Hle.
  destruct (Z_le_gt_dec (Py.round q) (Py.round q')) as [|Hgt]; trivial.
  exfalso.
  destruct (round_bounds q) as [_ Rhi], (round_bounds q') as [Rlo' _].
  assert (inject_Z (Py.round q') + 1 <= inject_Z (Py.round q)) as Hz.
  { rewrite <- (inject_Z_plus _ 1). rewrite <- Zle_Qle. lia. }
  destruct (round_bounds q) as [Rlo _], (round_bounds q') as [_ Rhi'].
  assert (q == q') as E by lra.
  apply round_comp in E. lia.
Qed.

End RoundFacts.

(** ** Rounding to decimal places and to a base *)

Section RoundToFacts.

Local Open Scope Q_scope.

Lemma pow10_pos (prec : Z) : 0 < 10 ^ prec.
Proof. apply Qpower_0_lt. reflexivity. Qed.

Lemma truediv_some (x y : Q) : ~ y == 0 -> Py.truediv x y = Some (x / y).
Proof.
  intros H. unfold Py.truediv.
  destruct (Qeq_bool y 0) eqn:E; trivial.
  apply Qeq_bool_eq in E. contradiction.
Qed.

Lemma truediv_none (x y : Q) : y == 0 -> Py.truediv x y = None.
Proof.
  intros H. unfold Py.truediv. apply Qeq_bool_iff in H. rewrite H. reflexivity.
Qed.

Lemma _round_some (x base : Q) (prec : Z) :
  ~ base == 0 -> _round x base prec = Some (round_to x base prec).
Proof.
  intros H. unfold _round. rewrite (truediv_some x H). reflexivity.
Qed.

Lemma rounded_is_round (base : Q) (r : reading) :
  ~ base == 0 -> _round (fst r) base default_prec = Some (rounded base r).
Proof. apply _round_some. Qed.

Lemma round_ndigits_scaled (q : Q) (prec : Z) :
  Py.round_ndigits q prec * 10 ^ prec == inject_Z (Py.round (q * 10 ^ prec)).
Proof.
  unfold Py.round_ndigits. pose proof (pow10_pos prec). field. lra.
Qed.

(** [round(q, prec)] moves [q] by at most half a unit of the last place. *)
Lemma round_ndigits_bounds (q : Q) (prec : Z) :
  q - half_unit prec <= Py.round_ndigits q prec /\
  Py.round_ndigits q prec <= q + half_unit prec.
Proof.
  pose proof (pow10_pos prec) as HU.
  pose proof (round_ndigits_scaled q prec) as E.
  destruct (round_bounds (q * 10 ^ prec)) as [Lo Hi].
  rewrite <- E in Lo, Hi.
  unfold half_unit.
  set (U := 10 ^ prec) in *. set (y := Py.round_ndigits q prec) in *.
  assert ((1 # 2) / U * U == 1 # 2) as EU by (field; lra).
  split.
  - apply Qmult_le_r with (z := U); trivial.
    setoid_replace ((q - (1 # 2) / U) * U) with (q * U - (1 # 2) / U * U) by ring.
    rewrite EU. lra.
  - apply Qmult_le_r with (z := U); trivial.
    setoid_replace ((q + (1 # 2) / U) * U) with (q * U + (1 # 2) / U * U) by ring.
    rewrite EU. lra.
Qed.

Lemma round_ndigits_mono (q q' : Q) (prec : Z) :
  q <= q' -> Py.round_ndigits q prec <= Py.round_ndigits q' prec.
Proof.
  intros H. pose proof (pow10_pos prec) as HU.
  apply Qmult_le_r with (z := 10 ^ prec); trivial.
  rewrite !round_ndigits_scaled.
  rewrite <- Zle_Qle. apply round_mono.
  apply Qmult_le_compat_r; lra.
Qed.

Lemma round_ndigits_comp (q q' : Q) (prec : Z) :
  q == q' -> Py.round_ndigits q prec = Py.round_ndigits q' prec.
Proof.
  intros E. unfold Py.round_ndigits.
  rewrite (@round_comp (q * 10 ^ prec) (q' * 10 ^ prec)); trivial.
  rewrite E. reflexivity.
Qed.

(** Equal floats round to the very same value. *)
Lemma round_to_comp (x x' base : Q) (prec : Z) :
  x == x' -> round_to x base prec = round_to x' base prec.
Proof.
  intros E. unfold round_to.
  rewrite (@round_comp (x / base) (x' / base)); trivial.
  rewrite E. reflexivity.
Qed.

(** [_round] is monotone in the time for a positive base. *)
Lemma round_to_mono (x x' base : Q) (prec : Z) :
  0 < base -> x <= x' -> round_to x base prec <= round_to x' base prec.
Proof.
  intros Hb Hx. unfold round_to.
  apply round_ndigits_mono.
  apply Qmult_le_l; trivial.
  rewrite <- Zle_Qle. apply round_mono.
  unfold Qdiv. apply Qmult_le_compat_r; trivial.
  apply Qlt_le_weak, Qinv_lt_0_compat, Hb.
Qed.

(** The multiple of the base chosen by [_round] is within half a base of
    the time. *)
Lemma base_multiple_bounds (x base : Q) :
  0 < base ->
  x - base / 2 <= base * inject_Z (Py.round (x / base)) /\
  base * inject_Z (Py.round (x / base)) <= x + base / 2.
Proof.
  intros Hb.
  destruct (round_bounds (x / base)) as [Lo Hi].
  set (k := inject_Z (Py.round (x / base))) in *.
  assert (x == base * (x / base)) as Ex by (field; lra).
  split.
  - setoid_replace (x - base / 2) with (base * (x / base - (1 # 2))).
    + apply Qmult_le_l; trivial. lra.
    + field. lra.
  - setoid_replace (x + base / 2) with (base * (x / base + (1 # 2))).
    + apply Qmult_le_l; trivial. lra.
    + field. lra.
Qed.

(** The rounded time is within half a base, plus half a unit of the last
    decimal place, of the time. *)
Lemma round_to_bounds (x base : Q) (prec : Z) :
  0 < base ->
  Qabs (round_to x base prec - x) <= base / 2 + half_unit prec.
Proof.
  intros Hb.
  destruct (base_multiple_bounds x Hb) as [Lo Hi].
  destruct (round_ndigits_bounds (base * inject_Z (Py.round (x / base))) prec)
    as [Lo' Hi'].
  unfold round_to. apply Qabs_Qle_condition. split; lra.
Qed.

End RoundToFacts.

(** ** Rounding an already rounded time *)

Section Idempotence.

Local Open Scope Q_scope.

Variables (base : Q) (prec : Z).
Hypothesis base_pos : 0 < base.

Lemma scaled_base_pos : 0 < base * 10 ^ prec.
Proof.
  apply Qmult_lt_0_compat; [exact base_pos | apply pow10_pos].
Qed.

(** A multiple [j / 10^prec] of the decimal unit, divided by the base. *)
Lemma unit_multiple_div (j : Z) :
  inject_Z j / 10 ^ prec / base == inject_Z j / (base * 10 ^ prec).
Proof.
  pose proof (pow10_pos prec). field. split; lra.
Qed.

Lemma round_to_idempotent (x : Q) :
  round_to (round_to x base prec) base prec = round_to x base prec.
Proof.
  pose proof scaled_base_pos as HB. pose proof (pow10_pos prec) as HU.
  pose proof unit_multiple_div as Hdiv.
  unfold round_to, Py.round_ndigits.
  set (U := 10 ^ prec) in *. set (B := base * U) in *.
  set (k := Py.round (x / base)).
  set (j := Py.round (base * inject_Z k * U)).
  set (y := inject_Z j / U).
  set (k' := Py.round (y / base)).
  assert (Py.round (base * inject_Z k' * U) = j) as ->; [|reflexivity].
  (* what the two roundings of the first pass give *)
  destruct (round_bounds (base * inject_Z k * U)) as [J1 J2]. fold j in J1, J2.
  destruct (round_bounds (y / base)) as [K1 K2]. fold k' in K1, K2.
  assert (y / base == inject_Z j / B) as Ey by apply Hdiv.
  rewrite Ey in K1, K2.
  assert (inject_Z j == inject_Z j / B * B) as Ej by (field; lra).
  assert ((inject_Z k' - (1 # 2)) * B <= inject_Z j) as K1'.
  { rewrite Ej. apply Qmult_le_compat_r; lra. }
  assert (inject_Z j <= (inject_Z k' + (1 # 2)) * B) as K2'.
  { rewrite Ej. apply Qmult_le_compat_r; lra. }
  assert (base * inject_Z k * U == inject_Z k * B) as E1 by (unfold B; ring).
  assert (base * inject_Z k' * U == inject_Z k' * B) as E2 by (unfold B; ring).
  rewrite E1 in J1, J2.
  destruct (Q_dec B 1) as [[Hlt|Hgt]|Heq].
  - (* the base is finer than the decimal unit *)
    apply round_unique; rewrite E2; lra.
  - (* the base is coarser than the decimal unit: the same multiple again *)
    assert (k' = k) as ->; [|reflexivity].
    unfold k'. rewrite (round_comp Ey).
    apply round_unique.
    + apply Qlt_shift_div_l; trivial. lra.
    + apply Qlt_shift_div_r; trivial. lra.
  - (* the base is the decimal unit *)
    assert (k = j) as Ekj.
    { rewrite Heq in J1, J2.
      apply Z.le_antisymm; apply inject_Z_lt_succ; lra. }
    assert (k' = k) as ->; [|reflexivity].
    unfold k'. rewrite (round_comp Ey). rewrite Ekj.
    rewrite <- (round_inject_Z j) at 2.
    apply round_comp. rewrite Heq. field.
Qed.

End Idempotence.

(** C9. For every interval [base > 0] and every time [t], [_round(t, base)]
    returns a value [y], and [_round(y, base)] returns the same [y]: rounding
    an already rounded time to the same interval changes nothing.  This holds
    for every precision [prec], so also for the default 100. *)
Theorem C9_round_idempotent (t base : Q) (prec : Z) :
  0 < base ->
  exists y, _round t base prec = Some y /\ _round y base prec = Some y.
Proof.
  intros Hb.
  assert (~ base == 0) as Hnz by lra.
  exists (round_to t base prec). split.
  - apply _round_some, Hnz.
  - rewrite (_round_some _ _ Hnz). f_equal. apply round_to_idempotent, Hb.
Qed.

Lemma C9_round_idempotent_witness :
  0 < 1 # 3 /\
  exists y,
    _round (13 # 10) (1 # 3) default_prec = Some y /\
    _round y (1 # 3) default_prec = Some y.
Proof.
  split; [reflexivity|].
  apply (@C9_round_idempotent (13 # 10) (1 # 3) default_prec). reflexivity.
Defined.

(** ** Lists sorted by a relation *)

Section SortedFacts.

Context {A : Type} (R : A -> A -> Prop).

Lemma StronglySorted_app_inv (l1 l2 : list A) :
  StronglySorted R (l1 ++ l2) ->
  StronglySorted R l1 /\ StronglySorted R l2 /\
  Forall (fun a => Forall (R a) l2) l1.
Proof.
  induction l1 as [|a l1 IH]; simpl; intros H.
  - repeat split; trivial; constructor.
  - inversion H as [|? ? Hs Hall]; subst.
    destruct (IH Hs) as (H1 & H2 & H12).
    apply Forall_app in Hall. destruct Hall as [Ha1 Ha2].
    repeat split; trivial; constructor; trivial.
Qed.

Lemma StronglySorted_app (l1 l2 : list A) :
  StronglySorted R l1 -> StronglySorted R l2 ->
  Forall (fun a => Forall (R a) l2) l1 ->
  StronglySorted R (l1 ++ l2).
Proof.
  induction l1 as [|a l1 IH]; simpl; intros H1 H2 H12; trivial.
  inversion H1 as [|? ? Hs Hall]; subst.
  inversion H12 as [|? ? Ha H12']; subst.
  constructor; [apply IH; trivial|].
  apply Forall_app. split; trivial.
Qed.

End SortedFacts.

(** ** The dict of [_downSampleReadings] *)

Section DictFacts.

Local Open Scope Q_scope.

Lemma Qeq_bool_false (a b : Q) : Qeq_bool a b = false <-> ~ a == b.
Proof.
  split.
  - intros H E. apply Qeq_bool_iff in E. congruence.
  - intros H. destruct (Qeq_bool a b) eqn:E; trivial.
    apply Qeq_bool_iff in E. contradiction.
Qed.

(** [dict_add] either extends the list of the one entry with an equal key,
    or appends a fresh entry. *)
Lemma dict_add_cases (d : dict) (k v : Q) :
  (exists d1 k0 vs d2,
      d = d1 ++ (k0, vs) :: d2 /\ k0 == k /\
      Forall (fun e => ~ fst e == k) d1 /\
      dict_add d k v = d1 ++ (k0, vs ++ [v]) :: d2) \/
  (Forall (fun e => ~ fst e == k) d /\ dict_add d k v = d ++ [(k, [v])]).
Proof.
  induction d as [|[k0 vs] d IH]; simpl.
  - right. split; trivial.
  - destruct (Qeq_bool k0 k) eqn:E.
    + left. exists [], k0, vs, d. apply Qeq_bool_iff in E. repeat split; trivial.
    + apply Qeq_bool_false in E.
      destruct IH as [(d1 & k1 & vs1 & d2 & -> & Ek & Hd1 & ->)|[Hd ->]].
      * left. exists ((k0, vs) :: d1), k1, vs1, d2.
        repeat split; trivial. constructor; trivial.
      * right. split; trivial. constructor; trivial.
Qed.

Variable base : Q.

Lemma groups_snoc (rs : list reading) (r : reading) (d : dict) :
  groups base (rs ++ [r]) d = dict_add (groups base rs d) (rounded base r) (snd r).
Proof. unfold groups. rewrite fold_left_app. reflexivity. Qed.

Lemma assigned_snoc (rt : Q) (rs : list reading) (r : reading) :
  assigned base rt (rs ++ [r]) =
  assigned base rt rs ++ (if Qeq_bool (rounded base r) rt then [r] else []).
Proof. unfold assigned. rewrite filter_app. reflexivity. Qed.

Lemma entry_ok_other (rs : list reading) (r : reading) (e : Q * list Q) :
  ~ fst e == rounded base r -> entry_ok base rs e -> entry_ok base (rs ++ [r]) e.
Proof.
  intros Hne [Hv (r0 & Hin & Hk)]. split.
  - rewrite assigned_snoc.
    assert (Qeq_bool (rounded base r) (fst e) = false) as ->.
    { apply Qeq_bool_false. intros E. apply Hne. symmetry. exact E. }
    rewrite app_nil_r. exact Hv.
  - exists r0. split; trivial. apply in_or_app. left. exact Hin.
Qed.

Ltac entries_other Hd Hok :=
  apply Forall_forall; intros ?e ?Hin; apply entry_ok_other;
  [ exact (proj1 (Forall_forall _ _) Hd _ Hin)
  | exact (proj1 (Forall_forall _ _) Hok _ Hin) ].

Lemma groups_invariant (rs : list reading) :
  Forall (entry_ok base rs) (groups base rs []) /\
  StronglySorted fst_neq (groups base rs []) /\
  covered base rs (groups base rs []).
Proof.
  induction rs as [|r rs IH] using rev_ind.
  - simpl. repeat split; try constructor. intros r [].
  - destruct IH as (Hok & Hnd & Hcov).
    rewrite groups_snoc.
    set (d := groups base rs []) in *. set (k := rounded base r).
    destruct (dict_add_cases d k (snd r))
      as [(d1 & k0 & vs & d2 & Ed & Ek & Hd1 & ->)|[Hd ->]].
    + rewrite Ed in Hok, Hnd, Hcov.
      apply Forall_app in Hok. destruct Hok as [Hok1 Hok2].
      inversion Hok2 as [|? ? Hok0 Hok2']; subst.
      assert (Forall (fun e => ~ fst e == k) d2) as Hd2.
      { apply StronglySorted_app_inv in Hnd. destruct Hnd as (_ & Hnd & _).
        inversion Hnd as [|? ? _ Hall]; subst.
        eapply Forall_impl; [|exact Hall].
        intros e He E. apply He. simpl. rewrite Ek, E. reflexivity. }
      repeat split.
      * apply Forall_app. split.
        -- entries_other Hd1 Hok1.
        -- constructor.
           ++ destruct Hok0 as [Hv (r0 & Hin & Hk)]. simpl in *. split; simpl.
              ** rewrite assigned_snoc.
                 assert (Qeq_bool (rounded base r) k0 = true) as ->.
                 { apply Qeq_bool_iff. symmetry. exact Ek. }
                 rewrite map_app, Hv. reflexivity.
              ** exists r0. split; trivial. apply in_or_app. left. exact Hin.
           ++ entries_other Hd2 Hok2'.
      * clear - Hnd. induction d1 as [|e d1 IH]; simpl in *.
        -- inversion Hnd; subst. constructor; trivial.
        -- inversion Hnd as [|? ? Hs Hall]; subst. constructor; [apply IH, Hs|].
           apply Forall_app in Hall. destruct Hall as [H1 H2].
           apply Forall_app. split; trivial.
           inversion H2; subst. constructor; trivial.
      * intros r' Hin. apply in_app_or in Hin. destruct Hin as [Hin|[<-|[]]].
        -- destruct (Hcov r' Hin) as (e & He & Hk).
           apply in_app_or in He. destruct He as [He|[<-|He]].
           ++ exists e. split; trivial. apply in_or_app. left. exact He.
           ++ exists (k0, vs ++ [snd r]). split; trivial.
              apply in_or_app. right. left. reflexivity.
           ++ exists e. split; trivial. apply in_or_app. right. right. exact He.
        -- exists (k0, vs ++ [snd r]). split; trivial.
           apply in_or_app. right. left. reflexivity.
    + assert (assigned base k rs = []) as Hnone.
      { unfold assigned.
        destruct (filter (fun r0 => Qeq_bool (rounded base r0) k) rs) as [|r0 l] eqn:F;
          trivial.
        assert (In r0 (r0 :: l)) as Hin by (left; reflexivity).
        rewrite <- F in Hin. apply filter_In in Hin. destruct Hin as [Hin Hk].
        apply Qeq_bool_iff in Hk.
        destruct (Hcov r0 Hin) as (e & He & Hke).
        rewrite Forall_forall in Hd. exfalso. apply (Hd e He).
        rewrite Hke. exact Hk. }
      repeat split.
      * apply Forall_app. split.
        -- entries_other Hd Hok.
        -- constructor; [|constructor]. split; simpl.
           ++ rewrite assigned_snoc, Hnone.
              assert (Qeq_bool (rounded base r) k = true) as ->
                by (apply Qeq_bool_iff; reflexivity).
              reflexivity.
           ++ exists r. split; trivial. apply in_or_app. right. left. reflexivity.
      * clear - Hnd Hd. induction d as [|e d IH]; simpl.
        -- constructor; constructor.
        -- inversion Hnd as [|? ? Hs Hall]; subst.
           inversion Hd as [|? ? He Hd']; subst.
           constructor; [apply IH; trivial|].
           apply Forall_app. split; trivial. constructor; trivial.
      * intros r' Hin. apply in_app_or in Hin. destruct Hin as [Hin|[<-|[]]].
        -- destruct (Hcov r' Hin) as (e & He & Hk).
           exists e. split; trivial. apply in_or_app. left. exact He.
        -- exists (k, [snd r]). split; [|reflexivity].
           apply in_or_app. right. left. reflexivity.
Qed.

End DictFacts.

(** ** [_downSampleReadings] raises nothing for a non-zero interval *)

Section DownsampleTotal.

Local Open Scope Q_scope.

Variable base : Q.
Hypothesis base_nz : ~ base == 0.

Lemma group_readings_some (rs : list reading) (d : dict) :
  group_readings rs base d = Some (groups base rs d).
Proof.
  revert d. induction rs as [|[time val] rs IH]; intros d; simpl; trivial.
  rewrite (_round_some _ _ base_nz). simpl. apply IH.
Qed.

Lemma len_nonempty_nz {A : Type} (l : list A) :
  l <> [] -> ~ inject_Z (Py.len l) == 0.
Proof.
  intros Hl E. destruct l as [|a l]; [congruence|].
  unfold Py.len, Qeq in E. simpl in E. lia.
Qed.

Lemma avg_some (vals : list Q) : vals <> [] -> avg vals = Some (mean vals).
Proof.
  intros H. unfold avg, mean. apply truediv_some, len_nonempty_nz, H.
Qed.

Lemma bucket_triples_some (d : dict) :
  Forall (fun e => snd e <> []) d -> bucket_triples d = Some (triples d).
Proof.
  induction d as [|[rt vals] d IH]; intros H; simpl; trivial.
  inversion H as [|? ? Hv Hd]; subst. simpl in Hv.
  rewrite (avg_some Hv). simpl. rewrite (IH Hd). reflexivity.
Qed.

Lemma entry_ok_nonempty (rs : list reading) (e : Q * list Q) :
  entry_ok base rs e -> snd e <> [].
Proof.
  intros [Hv (r & Hin & Hk)] E. rewrite E in Hv.
  assert (In r (assigned base (fst e) rs)) as Ha.
  { apply filter_In. split; trivial. apply Qeq_bool_iff. rewrite Hk. reflexivity. }
  destruct (assigned base (fst e) rs); [destruct Ha | discriminate].
Qed.

Lemma _downSampleReadings_some (rs : list reading) :
  _downSampleReadings rs base = Some (downsample base rs).
Proof.
  unfold _downSampleReadings, downsample.
  rewrite group_readings_some. simpl.
  rewrite bucket_triples_some; trivial.
  destruct (groups_invariant base rs) as (Hok & _ & _).
  eapply Forall_impl; [|exact Hok]. intros e. apply entry_ok_nonempty.
Qed.

End DownsampleTotal.

(** ** The sort by rounded time *)

Section SortFacts.

Local Open Scope Q_scope.

Lemma ltb_true (a b : Q) : Py.ltb a b = true <-> a < b.
Proof.
  unfold Py.ltb. rewrite negb_true_iff.
  destruct (Qle_bool b a) eqn:E.
  - apply Qle_bool_iff in E. split; [discriminate | intros H; exfalso; lra].
  - split; trivial. intros _.
    apply Qnot_le_lt. intros H. apply Qle_bool_iff in H. congruence.
Qed.

Lemma ltb_false (a b : Q) : Py.ltb a b = false <-> b <= a.
Proof.
  unfold Py.ltb. rewrite negb_false_iff. apply Qle_bool_iff.
Qed.

Lemma sort_insert_In (x y : triple) (l : list triple) :
  In y (sort_insert x l) <-> y = x \/ In y l.
Proof.
  induction l as [|z l IH]; simpl.
  - intuition.
  - destruct (Py.ltb (key x) (key z)); simpl; rewrite ?IH; intuition.
Qed.

Lemma sort_by_key_In (y : triple) (l : list triple) :
  In y (sort_by_key l) <-> In y l.
Proof.
  induction l as [|x l IH]; simpl; [tauto|].
  rewrite sort_insert_In, IH. intuition.
Qed.

Lemma sort_by_key_length (l : list triple) :
  List.length (sort_by_key l) = List.length l.
Proof.
  induction l as [|x l IH]; simpl; trivial.
  rewrite <- IH. generalize (sort_by_key l) as s. clear.
  induction s as [|z s IH]; simpl; trivial.
  destruct (Py.ltb (key x) (key z)); simpl; auto.
Qed.

Lemma sort_insert_sorted (x : triple) (l : list triple) :
  StronglySorted key_lt l -> Forall (key_neq x) l ->
  StronglySorted key_lt (sort_insert x l).
Proof.
  induction l as [|z l IH]; simpl; intros Hs Hn.
  - constructor; constructor.
  - inversion Hs as [|? ? Hs' Hall]; subst.
    inversion Hn as [|? ? Hz Hn']; subst.
    destruct (Py.ltb (key x) (key z)) eqn:E.
    + apply ltb_true in E. constructor; trivial.
      constructor; trivial.
      eapply Forall_impl; [|exact Hall]. unfold key_lt. intros a Ha. lra.
    + apply ltb_false in E. constructor; [apply IH; trivial|].
      apply Forall_forall. intros a Ha. rewrite sort_insert_In in Ha.
      destruct Ha as [->|Ha].
      * unfold key_lt, key_neq in *. lra.
      * rewrite Forall_forall in Hall. apply Hall, Ha.
Qed.

(** Sorting triples of pairwise different rounded times gives a strictly
    ascending list. *)
Lemma sort_by_key_sorted (l : list triple) :
  StronglySorted key_neq l -> StronglySorted key_lt (sort_by_key l).
Proof.
  induction l as [|x l IH]; simpl; intros H.
  - constructor.
  - inversion H as [|? ? Hs Hall]; subst.
    apply sort_insert_sorted; [apply IH, Hs|].
    apply Forall_forall. intros a Ha. rewrite sort_by_key_In in Ha.
    rewrite Forall_forall in Hall. apply Hall, Ha.
Qed.

End SortFacts.

(** ** What the downsampled batch holds *)

Section DownsampleFacts.

Local Open Scope Q_scope.

Variable base : Q.

Lemma triples_neq (d : dict) :
  StronglySorted fst_neq d -> StronglySorted key_neq (triples d).
Proof.
  induction d as [|e d IH]; simpl; intros H; [constructor|].
  inversion H as [|? ? Hs Hall]; subst. constructor; [apply IH, Hs|].
  unfold triples. apply Forall_map.
  eapply Forall_impl; [|exact Hall]. intros a Ha. exact Ha.
Qed.

(** The result is strictly ascending in the rounded time. *)
Lemma downsample_sorted (rs : list reading) :
  StronglySorted key_lt (downsample base rs).
Proof.
  apply sort_by_key_sorted, triples_neq.
  destruct (groups_invariant base rs) as (_ & H & _). exact H.
Qed.

Lemma downsample_In (rs : list reading) (t : triple) :
  In t (downsample base rs) <->
  exists e, In e (groups base rs []) /\ t = (fst e, mean (snd e), Py.len (snd e)).
Proof.
  unfold downsample. rewrite sort_by_key_In. unfold triples. rewrite in_map_iff.
  split; intros (e & H1 & H2); exists e; split; auto.
Qed.

(** Every triple is the rounded time of some reading, with the mean and
    the number of the readings assigned to it. *)
Lemma downsample_triple (rs : list reading) (rt v : Q) (n : Z) :
  In (rt, v, n) (downsample base rs) ->
  (exists r, In r rs /\ rt = rounded base r) /\
  v = mean (map snd (assigned base rt rs)) /\
  n = Py.len (assigned base rt rs) /\
  (0 < n)%Z.
Proof.
  intros H. rewrite downsample_In in H. destruct H as (e & He & E).
  destruct (groups_invariant base rs) as (Hok & _ & _).
  rewrite Forall_forall in Hok. specialize (Hok e He).
  pose proof (entry_ok_nonempty Hok) as Hne.
  destruct Hok as [Hv Hr]. injection E as -> -> ->.
  repeat split; trivial.
  - rewrite <- Hv. reflexivity.
  - rewrite Hv. unfold Py.len. rewrite length_map. reflexivity.
  - unfold Py.len. destruct (snd e); [congruence|]. simpl List.length. lia.
Qed.

(** Every reading has its bucket in the result. *)
Lemma downsample_covers (rs : list reading) (r : reading) :
  In r rs -> exists t, In t (downsample base rs) /\ key t == rounded base r.
Proof.
  intros Hin.
  destruct (groups_invariant base rs) as (_ & _ & Hcov).
  destruct (Hcov r Hin) as (e & He & Hk).
  exists (fst e, mean (snd e), Py.len (snd e)). split; trivial.
  apply downsample_In. exists e. split; trivial.
Qed.

Lemma downsample_nonempty (rs : list reading) :
  rs <> [] -> downsample base rs <> [].
Proof.
  intros Hne E. destruct rs as [|r rs]; [congruence|].
  destruct (@downsample_covers (r :: rs) r) as (t & Ht & _); [left; reflexivity|].
  rewrite E in Ht. destruct Ht.
Qed.

End DownsampleFacts.

(** ** Downsampling (C2) *)

Section DownsampleSpec.

Local Open Scope Q_scope.



(** Of the two integers at the same distance, [round] takes the even one. *)
Lemma round_half_to_even (k : Z) :
  Py.round (inject_Z k + (1 # 2)) = if Z.even k then k else (k + 1)%Z.
Proof.
  unfold Py.round.
  assert (Qfloor (inject_Z k + (1 # 2)) = k) as ->.
  { apply Z.le_antisymm.
    - apply inject_Z_lt_succ. eapply Qle_lt_trans; [apply Qfloor_le|]. lra.
    - rewrite <- (Qfloor_Z k) at 1. apply Qfloor_resp_le. lra. }
  assert (Qcompare (inject_Z k + (1 # 2) - inject_Z k) (1 # 2) = Eq) as ->.
  { apply Qeq_alt. ring. }
  reflexivity.
Qed.

End DownsampleSpec.




(** ** The deque and the last entry *)

Section DequeFacts.

Local Open Scope Q_scope.

Lemma last_entry_snoc (d : list (Q * Q)) (x : Q * Q) :
  last_entry (d ++ [x]) = Some x.
Proof. unfold last_entry. rewrite rev_app_distr. reflexivity. Qed.

Lemma last_entry_some (d : list (Q * Q)) (x : Q * Q) :
  last_entry d = Some x -> d = removelast d ++ [x].
Proof.
  unfold last_entry. intros H.
  destruct (rev d) as [|y l] eqn:E; [discriminate|]. injection H as ->.
  assert (d = rev l ++ [x]) as ->.
  { rewrite <- (rev_involutive d), E. reflexivity. }
  rewrite removelast_last. reflexivity.
Qed.

Lemma last_entry_none (d : list (Q * Q)) : last_entry d = None -> d = [].
Proof.
  unfold last_entry. intros H.
  destruct (rev d) as [|y l] eqn:E; [|discriminate].
  rewrite <- (rev_involutive d), E. reflexivity.
Qed.

Lemma last_entry_app (pre s : list (Q * Q)) :
  s <> [] -> last_entry (pre ++ s) = last_entry s.
Proof.
  intros Hs. unfold last_entry. rewrite rev_app_distr.
  destruct (rev s) as [|y l] eqn:E; [|reflexivity].
  exfalso. apply Hs. rewrite <- (rev_involutive s), E. reflexivity.
Qed.

Lemma last_triple_snoc (l : list triple) (x : triple) :
  last_triple (l ++ [x]) = Some x.
Proof. unfold last_triple. rewrite rev_app_distr. reflexivity. Qed.

Lemma last_triple_cons (x : triple) (l : list triple) :
  exists y, last_triple (x :: l) = Some y /\ In y (x :: l) /\
            exists l', x :: l = l' ++ [y].
Proof.
  destruct (@exists_last _ (x :: l)) as (l' & y & E); [discriminate|].
  exists y. rewrite E. split; [apply last_triple_snoc|]. split.
  - apply in_or_app. right. left. reflexivity.
  - exists l'. reflexivity.
Qed.

(** The deque after [append] is what remains of the old content and the
    new entry once old entries have been discarded. *)
Lemma deque_append_suffix (maxlen : Z) (d : list (Q * Q)) (x : Q * Q) :
  exists pre, d ++ [x] = pre ++ deque_append maxlen d x.
Proof.
  unfold deque_append.
  destruct (maxlen <=? 0)%Z.
  - exists (d ++ [x]). rewrite app_nil_r. reflexivity.
  - destruct (Py.len d <? maxlen)%Z.
    + exists []. reflexivity.
    + destruct d as [|a d]; [exists []|exists [a]]; reflexivity.
Qed.

Lemma deque_extend_suffix (maxlen : Z) (l d : list (Q * Q)) :
  exists pre, d ++ l = pre ++ deque_extend maxlen d l.
Proof.
  revert d. induction l as [|x l IH]; intros d; simpl.
  - exists []. rewrite app_nil_r. reflexivity.
  - destruct (deque_append_suffix maxlen d x) as (pre & E).
    destruct (IH (deque_append maxlen d x)) as (pre' & E').
    exists (pre ++ pre').
    change (d ++ x :: l) with (d ++ [x] ++ l).
    rewrite app_assoc, E, <- !app_assoc. f_equal. exact E'.
Qed.

Lemma deque_append_length (maxlen : Z) (d : list (Q * Q)) (x : Q * Q) :
  (0 < maxlen)%Z -> (Py.len d <= maxlen)%Z ->
  Py.len (deque_append maxlen d x) = Z.min maxlen (Py.len d + 1).
Proof.
  intros Hm Hd. unfold deque_append.
  destruct (Z.leb_spec maxlen 0); [lia|].
  destruct (Z.ltb_spec (Py.len d) maxlen).
  - unfold Py.len in *. rewrite length_app. simpl List.length. lia.
  - destruct d as [|a d]; unfold Py.len in *; simpl List.length in *; [lia|].
    simpl tl. rewrite length_app. simpl List.length. lia.
Qed.

Lemma deque_extend_length (maxlen : Z) (l d : list (Q * Q)) :
  (0 < maxlen)%Z -> (Py.len d <= maxlen)%Z ->
  Py.len (deque_extend maxlen d l) = Z.min maxlen (Py.len d + Py.len l).
Proof.
  intros Hm. revert d. induction l as [|x l IH]; intros d Hd; simpl.
  - unfold Py.len in *. simpl. lia.
  - pose proof (deque_append_length d x Hm Hd) as Ha.
    rewrite IH by lia. rewrite Ha.
    unfold Py.len in *. simpl List.length. lia.
Qed.

End DequeFacts.

(** ** Ascending lists of times *)

Section AscendingFacts.

Local Open Scope Q_scope.

Lemma ascending_suffix (pre s : list Q) : ascending (pre ++ s) -> ascending s.
Proof. intros H. apply StronglySorted_app_inv in H. tauto. Qed.

Lemma ascending_snoc_inv (l : list Q) (a : Q) :
  ascending (l ++ [a]) -> ascending l /\ Forall (fun x => x < a) l.
Proof.
  intros H. apply StronglySorted_app_inv in H. destruct H as (H1 & _ & H12).
  split; trivial. eapply Forall_impl; [|exact H12].
  intros x Hx. inversion Hx; subst. trivial.
Qed.

(** Replace the last time by a later one and go on with later times. *)
Lemma ascending_replace_last (l m : list Q) (a b : Q) :
  ascending (l ++ [a]) -> a <= b -> ascending (b :: m) ->
  ascending (l ++ b :: m).
Proof.
  intros Hl Hab Hm. apply ascending_snoc_inv in Hl. destruct Hl as [Hl Hla].
  apply StronglySorted_app; trivial.
  eapply Forall_impl; [|exact Hla]. intros x Hx.
  inversion Hm as [|? ? _ Hall]; subst.
  constructor; [lra|].
  eapply Forall_impl; [|exact Hall]. intros y Hy. simpl in Hy. lra.
Qed.

(** Go on after the last time with later times. *)
Lemma ascending_extend (l m : list Q) (a b : Q) :
  ascending (l ++ [a]) -> a < b -> ascending (b :: m) ->
  ascending ((l ++ [a]) ++ b :: m).
Proof.
  intros Hl Hab Hm.
  pose proof (ascending_snoc_inv _ _ Hl) as [_ Hla].
  apply StronglySorted_app; trivial.
  inversion Hm as [|? ? _ Hall]; subst.
  assert (Forall (Qlt a) (b :: m)) as Ha.
  { constructor; trivial. eapply Forall_impl; [|exact Hall].
    intros y Hy. simpl in Hy. lra. }
  apply Forall_app. split.
  - eapply Forall_impl; [|exact Hla]. intros x Hx.
    eapply Forall_impl; [|exact Ha]. intros y Hy. simpl in Hx, Hy. lra.
  - constructor; trivial.
Qed.

Lemma ascending_head_eq (a b : Q) (m : list Q) :
  ascending (a :: m) -> b == a -> ascending (b :: m).
Proof.
  intros H E. inversion H as [|? ? Hm Hall]; subst. constructor; trivial.
  eapply Forall_impl; [|exact Hall]. intros x Hx. simpl in Hx. lra.
Qed.

Lemma key_sorted_ascending (l : list triple) :
  StronglySorted key_lt l -> ascending (map key l).
Proof.
  induction 1 as [|x l Hs IH Hall]; simpl; constructor; trivial.
  apply Forall_map. exact Hall.
Qed.

Lemma times_time_and_val (l : list triple) :
  times (map time_and_val l) = map key l.
Proof. unfold times. rewrite map_map. reflexivity. Qed.

End AscendingFacts.

(** ** The three ways of [addReadings] *)

Section AddReadingsCases.

Local Open Scope Q_scope.

Lemma addReadings_nil (self : LoadCellControl) : addReadings self [] = Some self.
Proof. reflexivity. Qed.

Lemma len_cons_not_lt_1 {A : Type} (a : A) (l : list A) :
  (Py.len (a :: l) <? 1)%Z = false.
Proof.
  apply Z.ltb_ge. unfold Py.len. simpl List.length. lia.
Qed.

Lemma addReadings_cases (self : LoadCellControl) (rs : list reading) :
  rs <> [] -> ~ sampleRate self == 0 -> (0 <= numSamplesLastReading self)%Z ->
  let base := sample_interval self in
  let nslr := numSamplesLastReading self in
  exists t v n rest,
    downsample base rs = (t, v, n) :: rest /\
    ((data self = [] /\
      exists final, last_triple ((t, v, n) :: rest) = Some final /\
        addReadings self rs =
        Some (set_data self
                (deque_extend (length self) [] (map time_and_val ((t, v, n) :: rest)))
                (snd final))) \/
     (exists lastTime lastVal,
        last_entry (data self) = Some (lastTime, lastVal) /\
        Qabs (t - lastTime) < base /\
        addReadings self rs =
        Some (set_data self
                (deque_extend (length self)
                   (set_last_entry (data self)
                      (Py.max t lastTime,
                       (lastVal * inject_Z nslr + v * inject_Z n) / inject_Z (nslr + n)))
                   (map time_and_val rest))
                (nslr + n)%Z)) \/
     (exists lastTime lastVal,
        last_entry (data self) = Some (lastTime, lastVal) /\
        base <= Qabs (t - lastTime) /\
        exists final, last_triple ((t, v, n) :: rest) = Some final /\
          addReadings self rs =
          Some (set_data self
                  (deque_extend (length self) (data self)
                     (map time_and_val ((t, v, n) :: rest)))
                  (snd final)))).
Proof.
  intros Hne Hrate Hnslr base nslr.
  assert (~ base == 0) as Hnz.
  { unfold base, sample_interval. intros E.
    apply Hrate.
    assert (sampleRate self * (1.0 / sampleRate self) == 0) as E' by (rewrite E; ring).
    destruct (Qeq_dec (sampleRate self) 0) as [|Hn]; trivial.
    rewrite Qmult_div_r in E' by exact Hn. discriminate. }
  pose proof (downsample_nonempty base Hne) as Hds.
  destruct (downsample base rs) as [|[[t v] n] rest] eqn:Eds; [congruence|].
  exists t, v, n, rest. split; trivial.
  assert (0 < n)%Z as Hn.
  { eapply (downsample_triple base rs t v n). rewrite Eds. left. reflexivity. }
  assert (addReadings self rs =
          match last_entry (data self) with
          | Some (lastTime, lastVal) =>
              if Py.ltb (Qabs (t - lastTime)) base then
                avgVal <- Py.truediv (lastVal * inject_Z nslr + v * inject_Z n)
                                     (inject_Z (nslr + n)) ;;
                Some (set_data self
                        (deque_extend (length self)
                           (set_last_entry (data self) (Py.max t lastTime, avgVal))
                           (map time_and_val rest))
                        (nslr + n)%Z)
              else
                final <- last_triple ((t, v, n) :: rest) ;;
                Some (set_data self
                        (deque_extend (length self) (data self)
                           (map time_and_val ((t, v, n) :: rest)))
                        (snd final))
          | None =>
              final <- last_triple ((t, v, n) :: rest) ;;
              Some (set_data self
                      (deque_extend (length self) (data self)
                         (map time_and_val ((t, v, n) :: rest)))
                      (snd final))
          end) as ->.
  { unfold addReadings.
    destruct rs as [|r rs]; [congruence|].
    rewrite len_cons_not_lt_1.
    rewrite (truediv_some 1.0 Hrate). simpl bind.
    fold (sample_interval self). fold base.
    rewrite (_downSampleReadings_some Hnz). simpl bind.
    rewrite Eds. reflexivity. }
  destruct (last_triple_cons (t, v, n) rest) as (final & Hfinal & _).
  unfold triple in *.
  destruct (last_entry (data self)) as [[lastTime lastVal]|] eqn:El.
  - destruct (Py.ltb (Qabs (t - lastTime)) base) eqn:Elt.
    + right. left. exists lastTime, lastVal.
      apply ltb_true in Elt. split; [reflexivity|]. split; [exact Elt|].
      rewrite truediv_some; [reflexivity|].
      intros E. unfold Qeq in E. simpl in E. unfold nslr in E. lia.
    + right. right. exists lastTime, lastVal.
      apply ltb_false in Elt. split; [reflexivity|]. split; [exact Elt|].
      exists final. split; [exact Hfinal|]. rewrite Hfinal. reflexivity.
  - left. apply last_entry_none in El. split; [exact El|].
    exists final. split; [exact Hfinal|]. rewrite Hfinal, El. reflexivity.
Qed.

End AddReadingsCases.

(** ** The series buffer stays ascending *)

Section BufferInvariant.

Local Open Scope Q_scope.

Lemma contiguous_In (r1 r2 : list reading) (a b : reading) :
  contiguous r1 r2 = true -> In a r1 -> In b r2 -> fst a <= fst b.
Proof.
  unfold contiguous. rewrite forallb_forall. intros H Ha Hb.
  specialize (H a Ha). rewrite forallb_forall in H.
  apply Qle_bool_iff, H, Hb.
Qed.

Lemma max_ge_l (a b : Q) : b <= a -> Py.max a b = a.
Proof.
  intros H. unfold Py.max. apply Qle_bool_iff in H. rewrite H. reflexivity.
Qed.

Lemma last_entry_In (d : list (Q * Q)) (e : Q * Q) :
  last_entry d = Some e -> In e d.
Proof.
  intros H. rewrite (last_entry_some _ H). apply in_or_app. right. left. reflexivity.
Qed.

Lemma len_map {A B : Type} (f : A -> B) (l : list A) : Py.len (map f l) = Py.len l.
Proof. unfold Py.len. rewrite length_map. reflexivity. Qed.

Lemma len_app {A : Type} (l1 l2 : list A) :
  Py.len (l1 ++ l2) = (Py.len l1 + Py.len l2)%Z.
Proof. unfold Py.len. rewrite length_app. lia. Qed.

Lemma len_nat {A B : Type} (l1 : list A) (l2 : list B) :
  Py.len l1 = Py.len l2 -> List.length l1 = List.length l2.
Proof. unfold Py.len. lia. Qed.

Lemma len_pos {A : Type} (l : list A) : (0 <= Py.len l)%Z.
Proof. unfold Py.len. lia. Qed.

(** What [extend] leaves in the deque: the end of the old content followed
    by the new entries. *)
Lemma deque_extend_result (maxlen : Z) (d l : list (Q * Q)) (e : Q * Q) :
  (0 < maxlen)%Z -> (Py.len d <= maxlen)%Z ->
  ascending (times (d ++ l)) ->
  last_entry (d ++ l) = Some e ->
  ascending (times (deque_extend maxlen d l)) /\
  last_entry (deque_extend maxlen d l) = Some e /\
  Py.len (deque_extend maxlen d l) = Z.min maxlen (Py.len d + Py.len l).
Proof.
  intros Hm Hd Hasc Hlast.
  pose proof (deque_extend_length l d Hm Hd) as Hlen.
  destruct (deque_extend_suffix maxlen l d) as (pre & E).
  assert (deque_extend maxlen d l <> []) as Hne.
  { intros E0. rewrite E0 in Hlen. unfold Py.len in Hlen at 1. simpl in Hlen.
    destruct (d ++ l) as [|x dl] eqn:Edl; [discriminate|].
    assert (Py.len (d ++ l) = Py.len (x :: dl)) as El by (rewrite Edl; reflexivity).
    rewrite len_app in El. unfold Py.len in El at 3. simpl List.length in El.
    lia. }
  split; [|split; [|exact Hlen]].
  - rewrite E in Hasc. unfold times in *. rewrite map_app in Hasc.
    eapply ascending_suffix, Hasc.
  - rewrite <- Hlast, E. symmetry. apply last_entry_app, Hne.
Qed.

Lemma sample_interval_positive (self : LoadCellControl) :
  0 < sampleRate self -> 0 < sample_interval self.
Proof.
  intros H. unfold sample_interval, Qdiv.
  apply Qmult_lt_0_compat; [reflexivity | apply Qinv_lt_0_compat, H].
Qed.

Lemma data_set_data (self : LoadCellControl) (d : list (Q * Q)) (n : Z) :
  data (set_data self d n) = d.
Proof. reflexivity. Qed.

Lemma set_last_entry_len (d : list (Q * Q)) (e x : Q * Q) :
  last_entry d = Some e -> Py.len (set_last_entry d x) = Py.len d.
Proof.
  intros H. unfold set_last_entry. rewrite (last_entry_some _ H) at 2.
  rewrite !len_app. reflexivity.
Qed.

(** One ingest of a non-empty batch that is not earlier than the readings
    seen so far: it raises nothing, keeps the invariant, ends the buffer
    with the last bucket of the batch, and adds one entry per bucket, less
    one when the first bucket is merged into the last entry. *)
Lemma addReadings_shape (seen : list reading) (self : LoadCellControl)
      (rs : list reading) :
  0 < sampleRate self -> buffer_inv seen self -> rs <> [] ->
  contiguous seen rs = true ->
  let base := sample_interval self in
  exists self' first rest final value overlap,
    addReadings self rs = Some self' /\
    downsample base rs = first :: rest /\
    last_triple (first :: rest) = Some final /\
    sampleRate self' = sampleRate self /\
    length self' = length self /\
    buffer_inv (seen ++ rs) self' /\
    last_entry (data self') = Some (key final, value) /\
    Py.len (data self') =
      Z.min (length self)
            (Py.len (data self) + Py.len (first :: rest) - overlap) /\
    ((overlap = 1%Z /\
      exists e, last_entry (data self) = Some e /\
                Qabs (key first - fst e) < base) \/
     (overlap = 0%Z /\
      forall e, last_entry (data self) = Some e ->
                base <= Qabs (key first - fst e) /\ fst e < key first)).
Proof.
  intros Hrate (Hnslr & Hmax & Hlen & Hasc & Hlast) Hne Hcont base.
  pose proof (sample_interval_positive self Hrate) as Hb. fold base in Hb.
  assert (~ sampleRate self == 0) as Hnz by lra.
  destruct (addReadings_cases self Hne Hnz Hnslr) as (t & v & n & rest & Eds & Hcases).
  fold base in Eds, Hcases.
  set (ds := (t, v, n) :: rest) in *.
  destruct (last_triple_cons (t, v, n) rest) as (final & Hfinal & Hfin & l' & El').
  unfold triple in *. fold ds in Hfinal, Hfin, El'.
  (* every bucket is the rounded time of a reading of the batch *)
  assert (forall x, In x ds ->
            (0 < snd x)%Z /\ exists r, In r rs /\ key x = rounded base r) as Hkeys.
  { intros [[xt xv] xn] Hx. rewrite <- Eds in Hx.
    destruct (downsample_triple _ _ _ _ _ Hx) as (Hr & _ & _ & Hpos).
    split; trivial. }
  assert (ascending (map key ds)) as Hds.
  { apply key_sorted_ascending. rewrite <- Eds. apply downsample_sorted. }
  assert (last_entry (map time_and_val ds) = Some (key final, snd (fst final))) as Hlastds.
  { rewrite El', map_app. simpl map. rewrite last_entry_snoc.
    destruct final as [[? ?] ?]. reflexivity. }
  destruct (Hkeys final Hfin) as (Hfinpos & rfin & Hrfin & Ekfin).
  assert (forall value d,
            last_entry d = Some (key final, value) ->
            forall e, last_entry d = Some e ->
              exists r, In r (seen ++ rs) /\ fst e = rounded base r) as Hnewlast.
  { intros value d Hd e He. rewrite Hd in He. injection He as <-.
    exists rfin. split; [apply in_or_app; right; exact Hrfin | exact Ekfin]. }
  (* the first bucket is not earlier than the last entry *)
  assert (forall e, last_entry (data self) = Some e -> fst e <= t) as Hle.
  { intros e He. destruct (Hlast e He) as (r0 & Hr0 & ->).
    destruct (Hkeys (t, v, n)) as (_ & r & Hr & Ek); [left; reflexivity|].
    unfold key in Ek. simpl in Ek. rewrite Ek. unfold rounded.
    apply round_to_mono; trivial. eapply contiguous_In; eauto. }
  destruct Hcases as [(Hempty & final0 & Hfinal0 & E)
                     |[(lastTime & lastVal & El & Hnear & E)
                      |(lastTime & lastVal & El & Hfar & final0 & Hfinal0 & E)]].
  - (* the buffer was empty *)
    assert (final0 = final) as -> by congruence.
    destruct (@deque_extend_result (length self) [] (map time_and_val ds)
                (key final, snd (fst final))) as (H1 & H2 & H3); trivial.
    { unfold Py.len. simpl List.length. lia. }
    { simpl. rewrite times_time_and_val. exact Hds. }
    exists (set_data self (deque_extend (length self) [] (map time_and_val ds))
                     (snd final)),
           (t, v, n), rest, final, (snd (fst final)), 0%Z.
    unfold triple in *.
    split; [exact E|]. split; [exact Eds|]. split; [exact Hfinal|].
    split; [reflexivity|]. split; [reflexivity|].
    split; [|split; [exact H2|split]].
    + split; [simpl; lia|]. split; [exact Hmax|]. rewrite data_set_data.
      split; [rewrite H3; simpl length; lia|]. split; [exact H1|].
      apply (Hnewlast _ _ H2).
    + rewrite data_set_data, H3, len_map, Hempty.
      f_equal; unfold Py.len; simpl List.length; lia.
    + right. split; trivial. intros e He. rewrite Hempty in He. discriminate.
  - (* the first bucket is merged into the last entry *)
    specialize (Hle _ El). simpl in Hle.
    rewrite max_ge_l in E by exact Hle.
    set (avgVal := (lastVal * inject_Z (numSamplesLastReading self) + v * inject_Z n)
                   / inject_Z (numSamplesLastReading self + n)) in *.
    pose proof (last_entry_some _ El) as Edata.
    assert (exists value,
              last_entry (set_last_entry (data self) (t, avgVal)
                          ++ map time_and_val rest) = Some (key final, value))
      as (value & Hlastnew).
    { unfold set_last_entry. rewrite <- app_assoc.
      rewrite last_entry_app by discriminate.
      destruct rest as [|x rest'].
      - exists avgVal. simpl.
        assert (l' = [] /\ final = (t, v, n)) as [_ ->]; [|reflexivity].
        unfold ds in El'. destruct l' as [|y l'']; simpl in El'.
        + injection El' as <-. split; reflexivity.
        + destruct l''; discriminate.
      - exists (snd (fst final)).
        rewrite <- Hlastds. unfold ds.
        change (map time_and_val ((t, v, n) :: x :: rest'))
          with ([time_and_val (t, v, n)] ++ map time_and_val (x :: rest')).
        rewrite !last_entry_app by discriminate. reflexivity. }
    destruct (@deque_extend_result (length self)
                (set_last_entry (data self) (t, avgVal)) (map time_and_val rest)
                (key final, value)) as (H1 & H2 & H3); trivial.
    { rewrite (set_last_entry_len _ _ El). exact Hlen. }
    { unfold set_last_entry. rewrite <- app_assoc. unfold times. rewrite map_app.
      simpl. fold (times (map time_and_val rest)). rewrite times_time_and_val.
      apply ascending_replace_last with (a := lastTime); trivial.
      rewrite Edata in Hasc. unfold times in Hasc. rewrite map_app in Hasc.
      exact Hasc. }
    destruct (Hkeys (t, v, n)) as (Hn & _); [left; reflexivity|]. simpl in Hn.
    eexists _, (t, v, n), rest, final, value, 1%Z.
    unfold triple in *.
    split; [exact E|]. split; [exact Eds|]. split; [exact Hfinal|].
    split; [reflexivity|]. split; [reflexivity|].
    split; [|split; [exact H2|split]].
    + split; [simpl; lia|]. split; [exact Hmax|]. rewrite data_set_data.
      split; [rewrite H3; simpl length; lia|]. split; [exact H1|].
      apply (Hnewlast _ _ H2).
    + rewrite data_set_data, H3, len_map, (set_last_entry_len _ _ El).
      f_equal; unfold ds, Py.len; simpl List.length; lia.
    + left. split; trivial. exists (lastTime, lastVal). split; trivial.
  - (* the batch is appended *)
    assert (final0 = final) as -> by congruence.
    specialize (Hle _ El). simpl in Hle.
    assert (lastTime < t) as Hlt.
    { rewrite Qabs_pos in Hfar by lra. lra. }
    pose proof (last_entry_some _ El) as Edata.
    destruct (@deque_extend_result (length self) (data self) (map time_and_val ds)
                (key final, snd (fst final))) as (H1 & H2 & H3); trivial.
    { unfold times. rewrite map_app. fold (times (map time_and_val ds)).
      rewrite times_time_and_val. rewrite Edata. rewrite map_app. simpl.
      apply ascending_extend; trivial.
      rewrite Edata in Hasc. unfold times in Hasc. rewrite map_app in Hasc.
      exact Hasc. }
    { rewrite last_entry_app by discriminate. exact Hlastds. }
    eexists _, (t, v, n), rest, final, (snd (fst final)), 0%Z.
    unfold triple in *.
    split; [exact E|]. split; [exact Eds|]. split; [exact Hfinal|].
    split; [reflexivity|]. split; [reflexivity|].
    split; [|split; [exact H2|split]].
    + split; [simpl; lia|]. split; [exact Hmax|]. rewrite data_set_data.
      split; [rewrite H3; simpl length; lia|]. split; [exact H1|].
      apply (Hnewlast _ _ H2).
    + rewrite data_set_data, H3, len_map. f_equal; unfold ds; lia.
    + right. split; trivial. intros e He. rewrite El in He. injection He as <-.
      simpl. split; trivial.
Qed.

(** One ingest keeps the invariant, also for the empty batch. *)
Lemma addReadings_preserves (seen : list reading) (self : LoadCellControl)
      (rs : list reading) :
  0 < sampleRate self -> buffer_inv seen self -> contiguous seen rs = true ->
  exists self',
    addReadings self rs = Some self' /\
    buffer_inv (seen ++ rs) self' /\
    sampleRate self' = sampleRate self.
Proof.
  intros Hrate Hinv Hcont.
  destruct rs as [|r0 rs0] eqn:Ers.
  { exists self. rewrite app_nil_r. split; [reflexivity|]. split; [exact Hinv|].
    reflexivity. }
  rewrite <- Ers in *. assert (rs <> []) as Hne by (rewrite Ers; discriminate).
  destruct (addReadings_shape Hrate Hinv Hne Hcont)
    as (self' & _ & _ & _ & _ & _ & E & _ & _ & Er & _ & Hinv' & _).
  exists self'. split; [exact E|]. split; [exact Hinv' | exact Er].
Qed.

Lemma clear_invariant (self : LoadCellControl) :
  (0 < length self)%Z -> buffer_inv [] (clear self).
Proof.
  intros Hmax. split; [simpl; lia|]. split; [exact Hmax|].
  split; [unfold Py.len; simpl; lia|]. split; [constructor|].
  intros e He. discriminate.
Qed.

Lemma init_invariant (rate : Q) (baudrate : Z) : buffer_inv [] (init rate baudrate).
Proof.
  split; [simpl; lia|]. split; [reflexivity|].
  split; [discriminate|]. split; [constructor|]. intros e He. discriminate.
Qed.

(** A run of ingests and clears in time order succeeds and keeps the
    invariant. *)
Lemma run_invariant (ops : list op) (seen : list reading) (self : LoadCellControl) :
  0 < sampleRate self -> buffer_inv seen self -> time_ordered seen ops = true ->
  exists self',
    run self ops = Some self' /\ buffer_inv (pending seen ops) self' /\
    sampleRate self' = sampleRate self.
Proof.
  revert seen self. induction ops as [|o ops IH]; intros seen self Hrate Hinv Hord.
  - exists self. split; [reflexivity|]. split; [exact Hinv | reflexivity].
  - destruct o as [rs|]; simpl in Hord.
    + apply andb_true_iff in Hord. destruct Hord as [Hnb Hord].
      destruct (addReadings_preserves rs Hrate Hinv Hnb) as (s1 & E1 & Hinv1 & Er).
      assert (0 < sampleRate s1) as Hrate1 by (rewrite Er; exact Hrate).
      destruct (IH _ s1 Hrate1 Hinv1 Hord) as (s2 & E2 & Hinv2 & Er2).
      exists s2. simpl run. rewrite E1. cbn [bind].
      split; [exact E2|]. split; [exact Hinv2|]. rewrite Er2. exact Er.
    + assert (0 < length self)%Z as Hmax by (destruct Hinv as (_ & H & _); exact H).
      destruct (IH [] (clear self) Hrate (clear_invariant self Hmax) Hord)
        as (s2 & E2 & Hinv2 & Er2).
      exists s2. simpl run. cbn [bind].
      split; [exact E2|]. split; [exact Hinv2 | exact Er2].
Qed.

End BufferInvariant.

(** C7. When successive batches arrive in non-decreasing time order, every
    state reached from the initial one by [addReadings] and [clear]
    operations (at a positive sample rate) has a series buffer with strictly
    increasing times: no two entries share a time.  The run itself raises
    nothing. *)
Theorem C7_series_buffer_strictly_increasing
        (rate : Q) (baudrate : Z) (ops : list op) :
  0 < rate ->
  time_ordered [] ops = true ->
  exists self,
    run (init rate baudrate) ops = Some self /\
    StronglySorted Qlt (map fst (data self)).
Proof.
  intros Hrate Hord.
  destruct (@run_invariant ops [] (init rate baudrate) Hrate
              (init_invariant rate baudrate) Hord)
    as (self & E & (_ & _ & _ & Hasc & _) & _).
  exists self. split; trivial.
Qed.

Lemma C7_series_buffer_strictly_increasing_witness :
  0 < 1 /\
  time_ordered []
    [AddReadings [(0, 10); (0.1, 10)]; AddReadings [(0.2, 20); (1, 5)];
     Clear; AddReadings [(0.5, 11)]] = true /\
  exists self,
    run (init 1 9600)
      [AddReadings [(0, 10); (0.1, 10)]; AddReadings [(0.2, 20); (1, 5)];
       Clear; AddReadings [(0.5, 11)]] = Some self /\
    StronglySorted Qlt (map fst (data self)).
Proof.
  split; [reflexivity|]. split; [reflexivity|].
  apply C7_series_buffer_strictly_increasing; reflexivity.
Defined.

(** ** Splitting a batch in two (C1) *)

Section BatchSplit.

Local Open Scope Q_scope.

(** Two ascending lists with the same members, up to equality of floats,
    are equal entry by entry. *)
Lemma ascending_same (l1 l2 : list Q) :
  ascending l1 -> ascending l2 ->
  (forall x, Exists (Qeq x) l1 <-> Exists (Qeq x) l2) ->
  Forall2 Qeq l1 l2.
Proof.
  revert l2. induction l1 as [|a l1 IH]; intros [|b l2] H1 H2 Hmem.
  - constructor.
  - assert (Exists (Qeq b) []) as H by (apply Hmem; left; reflexivity).
    inversion H.
  - assert (Exists (Qeq a) []) as H by (apply Hmem; left; reflexivity).
    inversion H.
  - inversion H1 as [|? ? H1' Ha]; subst. inversion H2 as [|? ? H2' Hb]; subst.
    rewrite Forall_forall in Ha, Hb.
    assert (forall x l y, Exists (Qeq x) l -> (forall z, In z l -> y < z) -> y < x)
      as Hlt.
    { intros x l y Hx Hl. apply Exists_exists in Hx. destruct Hx as (z & Hz & E).
      rewrite E. apply Hl, Hz. }
    assert (a == b) as Eab.
    { assert (Exists (Qeq a) (b :: l2)) as Ha2 by (apply Hmem; left; reflexivity).
      assert (Exists (Qeq b) (a :: l1)) as Hb1 by (apply Hmem; left; reflexivity).
      inversion Ha2 as [? ? E|? ? Ha2']; subst; trivial.
      inversion Hb1 as [? ? E|? ? Hb1']; subst; [symmetry; trivial|].
      pose proof (Hlt _ _ _ Ha2' Hb). pose proof (Hlt _ _ _ Hb1' Ha). lra. }
    constructor; trivial. apply IH; trivial. intros x. split; intros Hx.
    + assert (Exists (Qeq x) (b :: l2)) as H by (apply Hmem; right; exact Hx).
      inversion H as [? ? E|]; subst; trivial.
      pose proof (Hlt _ _ _ Hx Ha). lra.
    + assert (Exists (Qeq x) (a :: l1)) as H by (apply Hmem; right; exact Hx).
      inversion H as [? ? E|]; subst; trivial.
      pose proof (Hlt _ _ _ Hx Hb). lra.
Qed.

(** The rounded times of the result are those of the readings. *)
Lemma downsample_key_mem (base : Q) (rs : list reading) (x : Q) :
  Exists (Qeq x) (map key (downsample base rs)) <->
  exists r, In r rs /\ x == rounded base r.
Proof.
  rewrite Exists_exists. split.
  - intros (y & Hy & E). apply in_map_iff in Hy. destruct Hy as ([[t v] n] & <- & Ht).
    destruct (downsample_triple _ _ _ _ _ Ht) as ((r & Hr & Ek) & _).
    exists r. split; trivial. rewrite E. unfold key. simpl. rewrite Ek. reflexivity.
  - intros (r & Hr & E).
    destruct (downsample_covers base rs r Hr) as (t & Ht & Ek).
    exists (key t). split; [apply in_map, Ht|]. rewrite E, Ek. reflexivity.
Qed.

Lemma separated_In (base : Q) (r1 r2 : list reading) (a b : reading) :
  separated base r1 r2 = true -> In a r1 -> In b r2 ->
  rounded base a == rounded base b \/
  base <= Qabs (rounded base b - rounded base a).
Proof.
  unfold separated. rewrite forallb_forall. intros H Ha Hb.
  specialize (H a Ha). rewrite forallb_forall in H. specialize (H b Hb).
  apply orb_true_iff in H. destruct H as [H|H].
  - left. apply Qeq_bool_iff, H.
  - right. apply Qle_bool_iff, H.
Qed.

Lemma contiguous_intro (r1 r2 : list reading) :
  (forall a b, In a r1 -> In b r2 -> fst a <= fst b) -> contiguous r1 r2 = true.
Proof.
  intros H. unfold contiguous. apply forallb_forall. intros a Ha.
  apply forallb_forall. intros b Hb. apply Qle_bool_iff, H; trivial.
Qed.

Lemma last_triple_some (l : list triple) (x : triple) :
  last_triple l = Some x -> exists l', l = l' ++ [x].
Proof.
  unfold last_triple. intros H.
  destruct (rev l) as [|y l'] eqn:E; [discriminate|]. injection H as ->.
  exists (rev l'). rewrite <- (rev_involutive l), E. reflexivity.
Qed.

Lemma Forall2_length_key (l1 l2 : list Q) :
  Forall2 Qeq l1 l2 -> List.length l1 = List.length l2.
Proof. induction 1; simpl; congruence. Qed.

Lemma same_interval (s s' : LoadCellControl) :
  sampleRate s' = sampleRate s -> sample_interval s' = sample_interval s.
Proof. intros E. unfold sample_interval. rewrite E. reflexivity. Qed.

(** From any state that satisfies the invariant: ingesting two non-empty
    contiguous batches one after the other gives a buffer as long as
    ingesting them at once, when rounded times of the two batches that
    differ are at least an interval apart. *)
Lemma split_same_length (seen : list reading) (self : LoadCellControl)
      (first second : list reading) :
  0 < sampleRate self -> buffer_inv seen self ->
  first <> [] -> second <> [] ->
  contiguous seen first = true ->
  contiguous (seen ++ first) second = true ->
  separated (sample_interval self) first second = true ->
  exists s1 split whole,
    addReadings self first = Some s1 /\
    addReadings s1 second = Some split /\
    addReadings self (first ++ second) = Some whole /\
    buffer_inv ((seen ++ first) ++ second) split /\
    Py.len (data split) = Py.len (data whole).
Proof.
  intros Hrate Hinv Hne1 Hne2 Hc1 Hc2 Hsep.
  set (base := sample_interval self) in *.
  pose proof (sample_interval_positive self Hrate) as Hb. fold base in Hb.
  (* the first batch *)
  destruct (addReadings_shape Hrate Hinv Hne1 Hc1)
    as (s1 & first1 & rest1 & final1 & val1 & ov1 &
        E1 & Eds1 & Hfin1 & Er1 & El1 & Hinv1 & Hlast1 & Hlen1 & Hov1).
  fold base in Eds1, Hov1.
  (* the second batch *)
  assert (0 < sampleRate s1) as Hrate1 by (rewrite Er1; exact Hrate).
  destruct (addReadings_shape Hrate1 Hinv1 Hne2 Hc2)
    as (split & first2 & rest2 & final2 & val2 & ov2 &
        E2 & Eds2 & Hfin2 & Er2 & El2 & Hinv2 & Hlast2 & Hlen2 & Hov2).
  rewrite (same_interval _ _ Er1) in Eds2, Hov2. fold base in Eds2, Hov2.
  (* the whole batch *)
  assert (first ++ second <> []) as Hne
    by (destruct first; [congruence | discriminate]).
  assert (contiguous seen (first ++ second) = true) as Hc.
  { apply contiguous_intro. intros a b Ha Hb0. apply in_app_or in Hb0.
    destruct Hb0 as [Hb0|Hb0].
    - eapply contiguous_In; [exact Hc1 | exact Ha | exact Hb0].
    - eapply contiguous_In; [exact Hc2| |exact Hb0]. apply in_or_app. left. exact Ha. }
  destruct (addReadings_shape Hrate Hinv Hne Hc)
    as (whole & firstw & restw & finalw & valw & ovw &
        Ew & Edsw & Hfinw & Erw & Elw & Hinvw & Hlastw & Hlenw & Hovw).
  fold base in Edsw, Hovw.
  exists s1, split, whole.
  split; [exact E1|]. split; [exact E2|]. split; [exact Ew|].
  split; [exact Hinv2|].
  (* the boundary buckets *)
  destruct (last_triple_some _ Hfin1) as (l1 & El1').
  assert (exists a, In a first /\ key final1 = rounded base a) as (a & Ha & Eka).
  { destruct final1 as [[ft fv] fn].
    destruct (downsample_triple base first ft fv fn) as (Hr & _).
    - rewrite Eds1, El1'. apply in_or_app. right. left. reflexivity.
    - exact Hr. }
  assert (exists b, In b second /\ key first2 = rounded base b) as (b & Hb2 & Ekb).
  { destruct first2 as [[ft fv] fn].
    destruct (downsample_triple base second ft fv fn) as (Hr & _).
    - rewrite Eds2. left. reflexivity.
    - exact Hr. }
  assert (key final1 <= key first2) as Hle.
  { rewrite Eka, Ekb. unfold rounded. apply round_to_mono; trivial.
    eapply contiguous_In; [exact Hc2| |exact Hb2]. apply in_or_app. right. exact Ha. }
  pose proof (downsample_sorted base first) as Hs1. rewrite Eds1 in Hs1.
  apply key_sorted_ascending in Hs1. rewrite El1', map_app in Hs1. simpl in Hs1.
  pose proof (downsample_sorted base second) as Hs2. rewrite Eds2 in Hs2.
  apply key_sorted_ascending in Hs2. simpl in Hs2.
  pose proof (downsample_sorted base (first ++ second)) as Hs.
  apply key_sorted_ascending in Hs.
  assert (forall x, Exists (Qeq x) (map key (downsample base (first ++ second))) <->
                    Exists (Qeq x) (map key l1 ++ [key final1]) \/
                    Exists (Qeq x) (key first2 :: map key rest2)) as Hmem.
  { intros x.
    change (key first2 :: map key rest2) with (map key (first2 :: rest2)).
    change [key final1] with (map key [final1]).
    rewrite <- map_app, <- El1', <- Eds1, <- Eds2. rewrite !downsample_key_mem. split.
    - intros (r & Hr & E0). apply in_app_or in Hr.
      destruct Hr; [left|right]; exists r; split; trivial.
    - intros [(r & Hr & E0)|(r & Hr & E0)]; exists r; split; trivial;
        apply in_or_app; [left|right]; trivial. }
  (* the buckets of the whole batch *)
  assert (Forall2 Qeq (map key (downsample base (first ++ second)))
            (map key l1 ++ key final1 ::
               (if (ov2 =? 1)%Z then map key rest2 else key first2 :: map key rest2)))
    as Hkeys.
  { rewrite Hlast1 in Hov2.
    destruct Hov2 as [(-> & e & [= <-] & Hnear)|(-> & Hfar)]; simpl Z.eqb; cbv iota.
    - simpl fst in Hnear.
      assert (key first2 == key final1) as Eeq.
      { destruct (separated_In base first second a b Hsep Ha Hb2) as [Es|Es].
        - rewrite Eka, Ekb. symmetry. exact Es.
        - exfalso. rewrite Eka, Ekb in Hnear. lra. }
      apply ascending_same; trivial.
      + apply ascending_replace_last with (a := key final1); trivial; [lra|].
        apply ascending_head_eq with (a := key first2); trivial. symmetry. exact Eeq.
      + intros x. rewrite Hmem.
        rewrite !Exists_app, !Exists_cons, Exists_nil. split.
        * intros [[H|[H|[]]]|[H|H]]; auto.
          right. left. rewrite H. exact Eeq.
        * intros [H|[H|H]]; auto.
    - destruct (Hfar _ eq_refl) as [_ Hlt]. simpl fst in Hlt.
      apply ascending_same; trivial.
      + change (map key l1 ++ key final1 :: key first2 :: map key rest2)
          with (map key l1 ++ [key final1] ++ key first2 :: map key rest2).
        rewrite app_assoc. apply ascending_extend; trivial.
      + intros x. rewrite Hmem.
        rewrite !Exists_app, !Exists_cons, Exists_nil. tauto. }
  (* the first bucket of the whole batch is the first bucket of the first *)
  assert (key firstw == key first1) as Efirst.
  { rewrite Edsw in Hkeys. simpl in Hkeys.
    assert (first1 :: rest1 = l1 ++ [final1]) as Ecmp by (rewrite <- El1'; reflexivity).
    destruct l1 as [|x l1]; simpl in Ecmp, Hkeys.
    - injection Ecmp as -> _. inversion Hkeys; subst. trivial.
    - injection Ecmp as -> _. inversion Hkeys; subst. trivial. }
  assert (ov1 = ovw) as Eov.
  { destruct Hov1 as [(-> & e & He & Hnear)|(-> & Hfar)];
      destruct Hovw as [(-> & e' & He' & Hnear')|(-> & Hfar')]; trivial; exfalso.
    - destruct (Hfar' _ He) as [Hf _]. rewrite Efirst in Hf. lra.
    - destruct (Hfar _ He') as [Hf _]. rewrite Efirst in Hnear'. lra. }
  (* the counts *)
  assert (Py.len (downsample base (first ++ second)) =
          Py.len (first1 :: rest1) + Py.len (first2 :: rest2) - ov2)%Z as Hn.
  { apply Forall2_length_key in Hkeys.
    assert (Py.len (first1 :: rest1) = Py.len l1 + 1)%Z as ->.
    { rewrite El1', len_app. reflexivity. }
    rewrite length_map, length_app in Hkeys. simpl List.length in Hkeys.
    unfold Py.len.
    destruct Hov2 as [(-> & _)|(-> & _)]; simpl Z.eqb in Hkeys; cbv iota in Hkeys;
      simpl List.length in *; rewrite !length_map in Hkeys; lia. }
  rewrite Edsw in Hn. rewrite Hlen2, Hlenw, Hlen1, El1, Hn, <- Eov.
  assert (0 <= ov2 <= 1)%Z as Hov2' by (destruct Hov2 as [(-> & _)|(-> & _)]; lia).
  assert (1 <= Py.len (first2 :: rest2))%Z as Hn2
    by (unfold Py.len; simpl List.length; lia).
  lia.
Qed.

Lemma time_ordered_app (before ops : list op) (seen : list reading) :
  time_ordered seen (before ++ ops) = true ->
  time_ordered seen before = true /\
  time_ordered (pending seen before) ops = true.
Proof.
  revert seen. induction before as [|o before IH]; intros seen H; simpl in *.
  - split; trivial.
  - destruct o as [rs|].
    + apply andb_true_iff in H. destruct H as [H1 H2].
      destruct (IH _ H2) as [H3 H4]. rewrite H1, H3. split; trivial.
    + apply IH, H.
Qed.

Lemma run_app (before ops : list op) (self : LoadCellControl) :
  run self (before ++ ops) = (s <- run self before ;; run s ops).
Proof.
  revert self. induction before as [|o before IH]; intros self; simpl; trivial.
  destruct (step self o) as [s|]; simpl; trivial.
Qed.

End BatchSplit.
(** C1.  A split of a batch changes the series buffer.  At sample rate 3
    the batches [(1, 10)] and [(1.3, 20)] are contiguous in time and fall
    into two different buckets, of rounded times 1 and 1.33...3.  Ingested
    in one call they give two entries, of values 10 and 20.  Ingested one
    after the other, the second time 1.33...3 is less than one sample
    interval above the last time 1, the overlap test of [addReadings] takes
    the two buckets for one, and the buffer is left with one entry, of value
    15 and count 2: the entry of time 1 is gone. *)
Theorem C1_batch_split_changes_count :
  contiguous [(1, 10)] [(1.3, 20)] = true /\
  exists split whole t1 t2 v v1 v2,
    run (init 3 9600) [AddReadings [(1, 10)]; AddReadings [(1.3, 20)]] = Some split /\
    run (init 3 9600) [AddReadings ([(1, 10)] ++ [(1.3, 20)])] = Some whole /\
    _round 1 (1.0 / 3) default_prec = Some t1 /\
    _round 1.3 (1.0 / 3) default_prec = Some t2 /\
    t1 < t2 /\ t2 - t1 < 1.0 / 3 /\
    data whole = [(t1, v1); (t2, v2)] /\ v1 == 10 /\ v2 == 20 /\
    data split = [(t2, v)] /\ v == 15 /\
    numSamplesLastReading split = 2%Z /\
    List.length (data split) = 1%nat /\
    List.length (data whole) = 2%nat.
Proof.
  split; [reflexivity|].
  eexists _, _, _, _, _, _, _.
  split; [vm_compute; reflexivity|].
  split; [vm_compute; reflexivity|].
  split; [vm_compute; reflexivity|].
  split; [vm_compute; reflexivity|].
  split; [vm_compute; reflexivity|].
  split; [vm_compute; reflexivity|].
  split; [vm_compute; reflexivity|].
  split; [vm_compute; reflexivity|].
  split; [vm_compute; reflexivity|].
  split; [vm_compute; reflexivity|].
  split; [vm_compute; reflexivity|].
  split; [reflexivity|].
  split; reflexivity.
Qed.

(** ** The count of the last entry (C3) *)

(** C3, at the failing input.  At sample rate 1 the batch
    [(0, 10); (0.1, 10)] is ingested, then the batch [(0.2, 20); (1, 5)]:
    its first bucket (time 0) overlaps the last entry and is merged, its
    second bucket (time 1) is appended.  The most recent entry of the buffer
    is then the bucket of time 1, the mean of the single reading [(1, 5)],
    but [numSamplesLastReading] is 3, the count of the merged entry before
    it. *)
Lemma C3_count_after_overlap_with_further_buckets :
  exists self t v,
    run (init 1 9600)
      [AddReadings [(0, 10); (0.1, 10)]; AddReadings [(0.2, 20); (1, 5)]]
      = Some self /\
    last_entry (data self) = Some (t, v) /\ t == 1 /\ v == 5 /\
    bucket_readings (1.0 / 1) t ([(0, 10); (0.1, 10)] ++ [(0.2, 20); (1, 5)])
      = [(1, 5)] /\
    numSamplesLastReading self = 3%Z.
Proof.
  eexists _, _, _. split; [vm_compute; reflexivity|].
  split; [reflexivity|].
  repeat split; vm_compute; reflexivity.
Qed.

(** The wrong count then weights the next merge: a third batch [(1.1, 11)]
    in the bucket of time 1 gives that bucket the value (5*3 + 11)/4 = 6.5,
    where ingesting all the readings at once gives the mean 8. *)
Lemma miscounted_merge_weight :
  exists split whole t v t' v',
    run (init 1 9600)
      [AddReadings [(0, 10); (0.1, 10)]; AddReadings [(0.2, 20); (1, 5)];
       AddReadings [(1.1, 11)]] = Some split /\
    run (init 1 9600)
      [AddReadings [(0, 10); (0.1, 10); (0.2, 20); (1, 5); (1.1, 11)]]
      = Some whole /\
    last_entry (data split) = Some (t, v) /\ v == 13 # 2 /\
    last_entry (data whole) = Some (t', v') /\ v' == 8.
Proof.
  eexists _, _, _, _, _, _. split; [vm_compute; reflexivity|].
  split; [vm_compute; reflexivity|].
  split; [reflexivity|]. split; [vm_compute; reflexivity|].
  split; [reflexivity|]. vm_compute; reflexivity.
Qed.

(** [clear] resets the count. *)
Lemma clear_resets_count (self : LoadCellControl) :
  numSamplesLastReading (clear self) = 0%Z /\ data (clear self) = [].
Proof. split; reflexivity. Qed.

(** ** The bounded reading queue (C4) *)

(** The loop that makes room takes the oldest item with [get()] as long as
    the queue is full. *)
Lemma throw_out_oldest_get (q : ReadingsQ.t) :
  ReadingsQ.throw_out_oldest (ReadingsQ.maxsize q) (ReadingsQ.items q) =
  if ReadingsQ.full q then
    match ReadingsQ.get q with
    | Some (_, q') =>
        ReadingsQ.throw_out_oldest (ReadingsQ.maxsize q') (ReadingsQ.items q')
    | None => None
    end
  else Some q.
Proof.
  destruct q as [ms l]. unfold ReadingsQ.get. simpl ReadingsQ.maxsize.
  simpl ReadingsQ.items. destruct l as [|x l]; reflexivity.
Qed.

(** The loop of [read] takes the items with [get()] until the queue is
    [empty()]. *)
Lemma read_items_get (q : ReadingsQ.t) (readings : list reading) :
  ReadingsQ.read_items (ReadingsQ.maxsize q) (ReadingsQ.items q) readings =
  if ReadingsQ.empty q then (readings, q)
  else
    match ReadingsQ.get q with
    | Some (x, q') =>
        ReadingsQ.read_items (ReadingsQ.maxsize q') (ReadingsQ.items q')
          (readings ++ [x])
    | None => (readings, q)
    end.
Proof.
  destruct q as [ms l]. unfold ReadingsQ.get, ReadingsQ.empty. simpl ReadingsQ.maxsize.
  simpl ReadingsQ.items. destruct l as [|x l]; reflexivity.
Qed.

(** Reading the queue returns every pending item, oldest first, and
    leaves the queue empty. *)
Lemma read_items_spec (maxsize : Z) (l readings : list reading) :
  ReadingsQ.read_items maxsize l readings =
  (readings ++ l, ReadingsQ.MkQueue maxsize []).
Proof.
  revert readings. induction l as [|x l IH]; intros readings; simpl.
  - rewrite app_nil_r. reflexivity.
  - rewrite IH, <- app_assoc. reflexivity.
Qed.

Lemma read_spec (q : ReadingsQ.t) :
  ReadingsQ.read q = (ReadingsQ.items q, ReadingsQ.MkQueue (ReadingsQ.maxsize q) []).
Proof. unfold ReadingsQ.read. apply read_items_spec. Qed.

Section QueueFacts.

Variable c : nat.
Hypothesis c_pos : (0 < c)%nat.

Local Abbreviation maxsize := (Z.of_nat c).

Lemma full_iff (l : list reading) :
  ReadingsQ.full (ReadingsQ.MkQueue maxsize l) = true <-> (c <= List.length l)%nat.
Proof.
  unfold ReadingsQ.full. simpl. unfold Py.len.
  destruct (Z.leb_spec (Z.of_nat c) 0); [lia|].
  destruct (Z.leb_spec (Z.of_nat c) (Z.of_nat (List.length l))); split; intros;
    try reflexivity; try discriminate; lia.
Qed.

Lemma not_full_iff (l : list reading) :
  ReadingsQ.full (ReadingsQ.MkQueue maxsize l) = false <-> (List.length l < c)%nat.
Proof.
  destruct (ReadingsQ.full (ReadingsQ.MkQueue maxsize l)) eqn:E.
  - apply full_iff in E. split; [discriminate | lia].
  - split; trivial. intros _.
    destruct (Nat.lt_ge_cases (List.length l) c) as [|H]; trivial.
    apply full_iff in H. congruence.
Qed.

(** The loop that makes room discards at most the oldest item. *)
Lemma throw_out_oldest_spec (l : list reading) :
  (List.length l <= c)%nat ->
  ReadingsQ.throw_out_oldest maxsize l =
  Some (ReadingsQ.MkQueue maxsize (last_items (c - 1) l)).
Proof.
  intros Hl. unfold last_items.
  destruct l as [|x l]; simpl ReadingsQ.throw_out_oldest.
  - assert (ReadingsQ.full (ReadingsQ.MkQueue maxsize []) = false) as ->
      by (apply not_full_iff; simpl; lia).
    reflexivity.
  - destruct (ReadingsQ.full (ReadingsQ.MkQueue maxsize (x :: l))) eqn:E.
    + apply full_iff in E. simpl List.length in *.
      assert (ReadingsQ.full (ReadingsQ.MkQueue maxsize l) = false) as E'
        by (apply not_full_iff; lia).
      assert (S (List.length l) - (c - 1) = 1)%nat as Hk by lia.
      rewrite Hk. simpl skipn.
      destruct l as [|y l]; simpl ReadingsQ.throw_out_oldest; rewrite E';
        reflexivity.
    + apply not_full_iff in E.
      replace (List.length (x :: l) - (c - 1))%nat with 0%nat by lia.
      reflexivity.
Qed.

Lemma last_items_length {A : Type} (n : nat) (l : list A) :
  List.length (last_items n l) = Nat.min n (List.length l).
Proof. unfold last_items. rewrite length_skipn. lia. Qed.

Lemma last_items_snoc {A : Type} (l : list A) (x : A) :
  last_items (c - 1) l ++ [x] = last_items c (l ++ [x]).
Proof.
  unfold last_items. rewrite length_app. simpl List.length.
  replace (List.length l + 1 - c)%nat with (List.length l - (c - 1))%nat by lia.
  rewrite skipn_app.
  replace (List.length l - (c - 1) - List.length l)%nat with 0%nat by lia.
  reflexivity.
Qed.

Lemma last_items_again {A : Type} (l l' : list A) :
  last_items c (last_items c l ++ l') = last_items c (l ++ l').
Proof.
  unfold last_items. rewrite !length_app, length_skipn.
  destruct (Nat.le_gt_cases (List.length l) c) as [H|H].
  - replace (List.length l - c)%nat with 0%nat by lia.
    rewrite Nat.sub_0_r. reflexivity.
  - rewrite !skipn_app, length_skipn, skipn_skipn.
    f_equal; [f_equal; lia | f_equal; lia].
Qed.

(** One push never waits and keeps the latest [c] items. *)
Lemma push_spec (l : list reading) (pair : reading) :
  (List.length l <= c)%nat ->
  ReadingsQ.push (ReadingsQ.MkQueue maxsize l) pair =
  Some (ReadingsQ.MkQueue maxsize (last_items c (l ++ [pair]))).
Proof.
  intros Hl. unfold ReadingsQ.push. simpl ReadingsQ.maxsize. simpl ReadingsQ.items.
  rewrite throw_out_oldest_spec by exact Hl. simpl bind. unfold ReadingsQ.put.
  assert (ReadingsQ.full (ReadingsQ.MkQueue maxsize (last_items (c - 1) l)) = false)
    as -> by (apply not_full_iff; rewrite last_items_length; lia).
  simpl. rewrite last_items_snoc. reflexivity.
Qed.

Lemma push_all_spec (pairs l : list reading) :
  (List.length l <= c)%nat ->
  ReadingsQ.push_all (ReadingsQ.MkQueue maxsize l) pairs =
  Some (ReadingsQ.MkQueue maxsize (last_items c (l ++ pairs))).
Proof.
  revert l. induction pairs as [|p pairs IH]; intros l Hl; simpl.
  - rewrite app_nil_r. unfold last_items.
    replace (List.length l - c)%nat with 0%nat by lia. reflexivity.
  - rewrite push_spec by exact Hl. simpl bind.
    rewrite IH by (rewrite last_items_length; lia).
    rewrite last_items_again, <- app_assoc. reflexivity.
Qed.

End QueueFacts.

(** The queues of the scales have capacity [MAX_BUFFERED_READINGS]. *)
Lemma scale_queue_keeps_latest (k : nat) (pairs : list reading) :
  List.length pairs = (Z.to_nat MAX_BUFFERED_READINGS + k)%nat ->
  exists q,
    ReadingsQ.push_all (ReadingsQ.create MAX_BUFFERED_READINGS) pairs = Some q /\
    ReadingsQ.read q = (skipn k pairs, ReadingsQ.create MAX_BUFFERED_READINGS).
Proof.
  intros Hlen.
  assert (0 < Z.to_nat MAX_BUFFERED_READINGS)%nat as Hc by (vm_compute; lia).
  assert (MAX_BUFFERED_READINGS = Z.of_nat (Z.to_nat MAX_BUFFERED_READINGS)) as E
    by reflexivity.
  remember (Z.to_nat MAX_BUFFERED_READINGS) as c eqn:Ec. clear Ec. rewrite E.
  exists (ReadingsQ.MkQueue (Z.of_nat c) (last_items c pairs)). split.
  - unfold ReadingsQ.create.
    rewrite push_all_spec; [reflexivity | exact Hc | simpl; lia].
  - rewrite read_spec. simpl ReadingsQ.maxsize. simpl ReadingsQ.items.
    unfold last_items, ReadingsQ.create.
    replace (List.length pairs - c)%nat with k by lia. reflexivity.
Qed.

(** With no other process at the queue, a push of the reader never waits,
    and for every capacity [c > 0] and every [k > 0], pushing [c + k] items
    onto an empty queue of capacity [c] with the reader's loop and then
    reading the queue empty yields exactly the last [c] items pushed, in the
    order they were pushed, and leaves the queue empty. *)
Lemma queue_keeps_latest_in_sequence (c k : nat) (pairs : list reading) :
  (0 < c)%nat -> (0 < k)%nat -> List.length pairs = (c + k)%nat ->
  exists q,
    ReadingsQ.push_all (ReadingsQ.create (Z.of_nat c)) pairs = Some q /\
    ReadingsQ.read q = (skipn k pairs, ReadingsQ.create (Z.of_nat c)) /\
    List.length (skipn k pairs) = c.
Proof.
  intros Hc Hk Hlen.
  exists (ReadingsQ.MkQueue (Z.of_nat c) (last_items c pairs)).
  split; [|split].
  - unfold ReadingsQ.create. rewrite push_all_spec; [reflexivity | exact Hc | simpl; lia].
  - rewrite read_spec. simpl ReadingsQ.maxsize. simpl ReadingsQ.items.
    unfold last_items, ReadingsQ.create.
    replace (List.length pairs - c)%nat with k by lia. reflexivity.
  - rewrite length_skipn. lia.
Qed.

(** ** A push interleaved with a read *)

Section PushReadFacts.

Import PushRead.

Variable pair : reading.




End PushReadFacts.



(** ** Saving a recording (C6) *)

Section SaveRecording.

Local Open Scope Q_scope.

Lemma searchsorted_zero (l : list Q) (v : Q) :
  Forall (fun t => v <= t) l -> searchsorted l v = O.
Proof.
  intros H. destruct l as [|t l]; simpl; trivial.
  inversion H; subst.
  assert (Py.ltb t v = false) as -> by (apply ltb_false; trivial).
  reflexivity.
Qed.

Lemma sorted_tail_ge (t : Q) (l : list Q) (v : Q) :
  StronglySorted Qle (t :: l) -> v <= t -> Forall (fun x => v <= x) l.
Proof.
  intros H Hv. inversion H as [|? ? _ Hall]; subst.
  eapply Forall_impl; [|exact Hall]. intros x Hx. simpl in Hx. lra.
Qed.

(** On an ascending buffer, the slice between the two insertion points
    holds the samples from [startTime] on and before [stopTime]. *)
Lemma slice_is_filter (d : list (Q * Q)) (startTime stopTime : Q) :
  StronglySorted Qle (times d) -> startTime <= stopTime ->
  let ilo := searchsorted (times d) startTime in
  let ihi := searchsorted (times d) stopTime in
  (ilo <= ihi)%nat /\
  firstn (ihi - ilo) (skipn ilo d) = filter (in_range startTime stopTime) d /\
  List.length (filter (in_range startTime stopTime) d) = (ihi - ilo)%nat.
Proof.
  intros Hs Hle. induction d as [|[t v] d IH]; simpl.
  - repeat split; trivial.
  - simpl in Hs. pose proof Hs as Hs0.
    inversion Hs as [|? ? Hs' Hall]; subst.
    specialize (IH Hs'). simpl in IH. destruct IH as (IH1 & IH2 & IH3).
    destruct (Py.ltb t startTime) eqn:E1.
    + apply ltb_true in E1.
      assert (Py.ltb t stopTime = true) as E2 by (apply ltb_true; lra).
      rewrite E2.
      assert (in_range startTime stopTime (t, v) = false) as ->.
      { unfold in_range. simpl fst.
        destruct (Qle_bool startTime t) eqn:E; trivial.
        apply Qle_bool_iff in E. lra. }
      simpl. repeat split; trivial. lia.
    + apply ltb_false in E1.
      pose proof (sorted_tail_ge Hs0 E1) as Hge.
      rewrite (searchsorted_zero Hge) in IH1, IH2, IH3.
      rewrite Nat.sub_0_r in *. simpl skipn in *.
      destruct (Py.ltb t stopTime) eqn:E2.
      * assert (in_range startTime stopTime (t, v) = true) as ->.
        { unfold in_range. simpl fst. rewrite E2.
          apply andb_true_iff. split; trivial. apply Qle_bool_iff; trivial. }
        simpl. rewrite IH2, IH3. repeat split; trivial. lia.
      * assert (in_range startTime stopTime (t, v) = false) as ->.
        { unfold in_range. simpl fst. rewrite E2. apply andb_false_r. }
        apply ltb_false in E2.
        pose proof (sorted_tail_ge Hs0 E2) as Hge2.
        rewrite (searchsorted_zero Hge2) in IH2, IH3. simpl in IH2.
        simpl. rewrite <- IH2. repeat split; trivial.
Qed.

End SaveRecording.

(** C6, counterexample to the inclusive stop: with the buffer
    [(0, 1); (1, 2)] and the
    range from 0 to 1, the sample at time 1 lies in the range with both ends
    included, but only the header and the sample at time 0 are written. *)
Lemma C6_stop_time_excluded :
  (0 <= 1)%Q /\ (1 <= 1)%Q /\
  saveRecording (set_data (init 1 9600) [(0, 1); (1, 2)] 1) 0 1
  = Some [header_row; data_row (0, 1)].
Proof. split; [discriminate|]. split; [discriminate|]. reflexivity. Qed.

(** C6, as the code has it.  For every series buffer with ascending times
    and every [startTime <= stopTime], [saveRecording] writes the header row
    followed by one row per sample with [startTime <= time < stopTime], in
    buffer order, and no other sample; when no sample lies in that range (so
    also for the empty buffer) nothing is written, not even the header. *)
Theorem C6_saveRecording_range
        (self : LoadCellControl) (startTime stopTime : Q) :
  StronglySorted Qle (map fst (data self)) ->
  startTime <= stopTime ->
  saveRecording self startTime stopTime =
  match filter (in_range startTime stopTime) (data self) with
  | [] => None
  | inRange => Some (header_row :: map data_row inRange)
  end.
Proof.
  intros Hs Hle. unfold saveRecording.
  destruct (slice_is_filter (data self) Hs Hle) as (H1 & H2 & H3).
  fold (times (data self)). 
  set (ilo := searchsorted (times (data self)) startTime) in *.
  set (ihi := searchsorted (times (data self)) stopTime) in *.
  destruct (Z.ltb_spec (Py.len (data self)) 1) as [Hlen|Hlen].
  - destruct (data self); [reflexivity|].
    unfold Py.len in Hlen. simpl in Hlen. lia.
  - rewrite H2.
    destruct (Nat.eqb_spec ilo ihi) as [E|E].
    + rewrite E, Nat.sub_diag in H3.
      destruct (filter (in_range startTime stopTime) (data self)); [reflexivity|].
      discriminate.
    + destruct (filter (in_range startTime stopTime) (data self)) eqn:F.
      * simpl in H3. lia.
      * reflexivity.
Qed.

Lemma C6_saveRecording_range_witness :
  StronglySorted Qle (map fst (data (set_data (init 1 9600) [(0, 1); (1, 2); (2, 4)] 1))) /\
  (0 <= 2)%Q /\
  saveRecording (set_data (init 1 9600) [(0, 1); (1, 2); (2, 4)] 1) 0 2 =
  match filter (in_range 0 2)
          (data (set_data (init 1 9600) [(0, 1); (1, 2); (2, 4)] 1)) with
  | [] => None
  | inRange => Some (header_row :: map data_row inRange)
  end.
Proof.
  assert (StronglySorted Qle
            (map fst (data (set_data (init 1 9600) [(0, 1); (1, 2); (2, 4)] 1)))) as Hs.
  { simpl. repeat constructor; discriminate. }
  split; [exact Hs|]. split; [discriminate|].
  apply C6_saveRecording_range; [exact Hs | discriminate].
Defined.

(** ** The calibration fit (C5, C8) *)

Section SumFacts.

Local Open Scope Q_scope.

Lemma fold_plus_acc (l : list Q) (a : Q) :
  fold_left Qplus l a == a + fold_left Qplus l 0.
Proof.
  revert a. induction l as [|x l IH]; intros a; simpl.
  - ring.
  - rewrite (IH (a + x)), (IH (0 + x)). ring.
Qed.

Lemma sum_cons (x : Q) (l : list Q) : Py.sum (x :: l) == x + Py.sum l.
Proof. unfold Py.sum. simpl. rewrite fold_plus_acc. ring. Qed.

Lemma sum_nil : Py.sum [] == 0.
Proof. reflexivity. Qed.

Lemma len_cons {A : Type} (a : A) (l : list A) :
  inject_Z (Py.len (a :: l)) == 1 + inject_Z (Py.len l).
Proof.
  unfold Py.len. simpl List.length. rewrite Nat2Z.inj_succ.
  unfold Z.succ. rewrite inject_Z_plus. ring.
Qed.


Lemma sum_squares_nonneg (x : list Q) : 0 <= sum_squares x.
Proof.
  unfold sum_squares. induction x as [|a x IH]; simpl map.
  - rewrite sum_nil. lra.
  - rewrite sum_cons.
    assert (0 <= a * a) by (destruct (Qlt_le_dec a 0); nra).
    lra.
Qed.

End SumFacts.

Section LeastSquares.

Local Open Scope Q_scope.

Lemma sq_dist_nonneg (a : Q) (l : list Q) : 0 <= sq_dist a l.
Proof.
  unfold sq_dist. induction l as [|x l IH]; simpl map.
  - rewrite sum_nil. lra.
  - rewrite sum_cons.
    assert (0 <= (a - x) * (a - x)) by (destruct (Qlt_le_dec (a - x) 0); nra).
    lra.
Qed.

Lemma sq_dist_zero (a : Q) (l : list Q) :
  sq_dist a l == 0 -> forall x, In x l -> x == a.
Proof.
  unfold sq_dist. induction l as [|y l IH]; simpl map; intros H x Hx.
  - destruct Hx.
  - rewrite sum_cons in H.
    pose proof (sq_dist_nonneg a l) as Hl. unfold sq_dist in Hl.
    assert (0 <= (a - y) * (a - y)) as Hy
      by (destruct (Qlt_le_dec (a - y) 0); nra).
    assert ((a - y) * (a - y) == 0) as Hy0 by lra.
    assert (Py.sum (map (fun x => (a - x) * (a - x)) l) == 0) as Hl0 by lra.
    destruct Hx as [<-|Hx]; [|apply IH; trivial].
    apply Qmult_integral in Hy0. destruct Hy0; lra.
Qed.

Lemma sq_dist_expand (a : Q) (l : list Q) :
  sq_dist a l ==
  inject_Z (Py.len l) * (a * a) - 2 * a * Py.sum l + sum_squares l.
Proof.
  unfold sq_dist, sum_squares. induction l as [|x l IH]; simpl map.
  - rewrite !sum_nil. unfold Py.len. simpl. ring.
  - rewrite !sum_cons, len_cons, IH. ring.
Qed.

Lemma normal_det_cons (a : Q) (l : list Q) :
  normal_det (a :: l) == normal_det l + sq_dist a l.
Proof.
  unfold normal_det, sum_squares. simpl map.
  rewrite !sum_cons, len_cons, sq_dist_expand. unfold sum_squares. ring.
Qed.

Lemma normal_det_nonneg (l : list Q) : 0 <= normal_det l.
Proof.
  induction l as [|a l IH].
  - unfold normal_det, sum_squares, Py.len. simpl. rewrite !sum_nil. lra.
  - rewrite normal_det_cons. pose proof (sq_dist_nonneg a l). lra.
Qed.

(** The determinant vanishes only when all measured values are equal. *)
Lemma normal_det_zero (l : list Q) :
  normal_det l == 0 -> forall x y, In x l -> In y l -> x == y.
Proof.
  induction l as [|a l IH]; intros H x y Hx Hy; [destruct Hx|].
  rewrite normal_det_cons in H.
  pose proof (normal_det_nonneg l) as Hd. pose proof (sq_dist_nonneg a l) as Hq.
  assert (normal_det l == 0) as H0 by lra.
  assert (sq_dist a l == 0) as H1 by lra.
  pose proof (sq_dist_zero a l H1) as Ha.
  destruct Hx as [<-|Hx], Hy as [<-|Hy].
  - reflexivity.
  - symmetry. apply Ha, Hy.
  - apply Ha, Hx.
  - apply IH; trivial.
Qed.

Lemma combine_fst_snd {A B : Type} (l : list (A * B)) :
  combine (map fst l) (map snd l) = l.
Proof.
  induction l as [|[a b] l IH]; simpl; [|rewrite IH]; reflexivity.
Qed.

Variables slope intercept : Q.

Lemma on_line_sums (pts : list (Q * Q)) :
  on_line slope intercept pts ->
  Py.sum (map snd pts) ==
    slope * Py.sum (map fst pts) + intercept * inject_Z (Py.len (map fst pts)) /\
  Py.sum (map (fun p => fst p * snd p) pts) ==
    slope * sum_squares (map fst pts) + intercept * Py.sum (map fst pts).
Proof.
  unfold sum_squares. induction pts as [|p pts IH]; intros H; simpl map.
  - rewrite !sum_nil. unfold Py.len. simpl. split; ring.
  - destruct IH as [IH1 IH2].
    { intros q Hq. apply H. right. exact Hq. }
    rewrite !sum_cons, len_cons, IH1, IH2.
    rewrite (H p) by (left; reflexivity). split; ring.
Qed.

Lemma two_values_length (pts : list (Q * Q)) :
  two_measured_values pts -> (Py.len pts <? 2)%Z = false.
Proof.
  intros (p & q & Hp & Hq & Hne). apply Z.ltb_ge. unfold Py.len.
  destruct pts as [|a [|c pts]]; simpl List.length; try lia.
  - destruct Hp.
  - destruct Hp as [<-|[]], Hq as [<-|[]]. exfalso. apply Hne. reflexivity.
Qed.

(** Least squares through points on a line, with two different measured
    values, gives back the line. *)
Lemma np_polyfit_on_line (pts : list (Q * Q)) :
  on_line slope intercept pts -> two_measured_values pts ->
  exists m b,
    Calibration.np_polyfit (map fst pts) (map snd pts) = Some (m, b) /\
    m == slope /\ b == intercept.
Proof.
  intros Hline Htwo.
  destruct (on_line_sums Hline) as [Hsy Hsxy].
  pose proof (two_values_length Htwo) as Hlen.
  set (x := map fst pts) in *. set (y := map snd pts) in *.
  assert (~ normal_det x == 0) as Hdet.
  { intros H0. destruct Htwo as (p & q & Hp & Hq & Hne). apply Hne.
    apply (@normal_det_zero x H0); apply in_map; trivial. }
  assert (~ sum_squares x == 0) as Hsxx.
  { intros H0. apply Hdet. pose proof (normal_det_nonneg x) as Hd.
    unfold normal_det in *. rewrite H0 in *.
    assert (0 <= Py.sum x * Py.sum x)
      by (destruct (Qlt_le_dec (Py.sum x) 0); nra).
    lra. }
  assert (~ inject_Z (Py.len x) == 0) as Hn.
  { unfold x. rewrite len_map. apply Z.ltb_ge in Hlen.
    intros E. unfold Qeq in E. simpl in E. lia. }
  unfold Calibration.np_polyfit.
  fold (sum_squares x).
  replace (combine x y) with pts by (symmetry; apply combine_fst_snd).
  apply Qeq_bool_false in Hsxx. rewrite Hsxx.
  fold (normal_det x).
  pose proof Hdet as Hdet'. apply Qeq_bool_false in Hdet'. rewrite Hdet'.
  eexists _, _. split; [reflexivity|].
  assert ((inject_Z (Py.len x) * Py.sum (map (fun p => fst p * snd p) pts)
           - Py.sum x * Py.sum y) / normal_det x == slope) as Hm.
  { rewrite Hsxy, Hsy. unfold normal_det. field. exact Hdet. }
  split; [exact Hm|].
  rewrite Hm, Hsy. field. exact Hn.
Qed.

End LeastSquares.

Section Conversions.

Local Open Scope Q_scope.
Import Calibration.

Lemma getitem_units (u : string) :
  In u units -> exists cu, getitem CONVERSIONS u = Some cu /\ 0 < cu.
Proof.
  unfold units. simpl. intros [<-|[<-|[<-|[]]]]; eexists; split;
    try reflexivity.
Qed.

Lemma getitem_N : getitem CONVERSIONS "N" = Some 1.0.
Proof. reflexivity. Qed.

Lemma convert_from_N (x : Q) (u : string) (cu : Q) :
  getitem CONVERSIONS u = Some cu ->
  convertBetween x "N" u = Some (x * (cu / 1.0)).
Proof.
  intros Hu. unfold convertBetween. rewrite Hu, getitem_N. cbn [bind].
  rewrite truediv_some by discriminate. reflexivity.
Qed.

Lemma convert_to_N (x : Q) (u : string) (cu : Q) :
  getitem CONVERSIONS u = Some cu -> ~ cu == 0 ->
  convertBetween x u "N" = Some (x * (1.0 / cu)).
Proof.
  intros Hu Hnz. unfold convertBetween. rewrite Hu, getitem_N. cbn [bind].
  rewrite truediv_some by exact Hnz. reflexivity.
Qed.

(** Converting a measured value to real units and back gives the value. *)
Lemma round_trip (f : Fit) (x : Q) (u : string) :
  ~ m f == 0 -> In u units ->
  exists y x',
    measured2real f x u = Some y /\
    real2measured f y u = Some x' /\
    x' == x.
Proof.
  intros Hm Hu. destruct (@getitem_units u Hu) as (cu & Hcu & Hpos).
  assert (~ cu == 0) as Hnz by lra.
  unfold measured2real, real2measured.
  rewrite (@convert_from_N _ u cu Hcu).
  eexists _, _. split; [reflexivity|].
  rewrite (@convert_to_N _ u cu Hcu Hnz). cbn [bind].
  rewrite !truediv_some by exact Hm. cbn [bind].
  split; [reflexivity|].
  unfold poly1d. simpl fold_left. field. split; trivial.
Qed.

End Conversions.

(** Every calibration built by [__init__], [addPoint] and [removePoint]
    carries the fit computed by [fitLine] from its points. *)
Section FitCurrent.

Variable polyfit : list Q -> list Q -> option (Q * Q).

Lemma empty_fit_current :
  fit_current polyfit (Calibration.MkCalibration [] None).
Proof. reflexivity. Qed.

Lemma addPoint_fit_current (cal cal' : Calibration.t) (pt : Q * Q) (u : string) :
  fit_current polyfit cal ->
  Calibration.addPoint polyfit cal pt u = Some cal' ->
  fit_current polyfit cal'.
Proof.
  intros Hc. unfold Calibration.addPoint. destruct pt as [measured real].
  destruct (Calibration.convertBetween real u "N") as [newreal|]; [|discriminate].
  cbn [bind].
  destruct (Calibration.pt_in (measured, newreal) (Calibration.pts cal)).
  - intros [= <-]. exact Hc.
  - intros [= <-]. reflexivity.
Qed.

Lemma removePoint_fit_current (cal : Calibration.t) (pt : Q * Q) :
  fit_current polyfit cal ->
  fit_current polyfit (Calibration.removePoint polyfit cal pt).
Proof.
  intros Hc. unfold Calibration.removePoint.
  destruct (Calibration.list_remove (Calibration.pts cal) pt); [reflexivity | exact Hc].
Qed.

Lemma init_fit_current (l : list (Q * Q)) (u : string) (cal : Calibration.t) :
  Calibration.init polyfit l u = Some cal -> fit_current polyfit cal.
Proof.
  unfold Calibration.init. generalize empty_fit_current.
  generalize (Calibration.MkCalibration [] None).
  induction l as [|p l IH]; intros c Hc; simpl.
  - intros [= <-]. exact Hc.
  - destruct (Calibration.addPoint polyfit c p u) as [c'|] eqn:E; [|discriminate].
    cbn [bind]. apply IH. eapply addPoint_fit_current; eauto.
Qed.

End FitCurrent.

(** C5, counterexample for points that share one measured value:
    for the two points (1, 2) and (1, 3) numpy's [polyfit] only warns and
    returns the least-squares solution of minimal norm, [fitLine] keeps it
    ("We'll just take the bad fit"), [hasFit] is true and the conversions
    return values. *)
Lemma C5_shared_measured_value_keeps_fit :
  Forall (fun p => fst p == 1) [(1, 2); (1, 3)] /\
  exists f y x,
    Calibration.fitLine Calibration.np_polyfit [(1, 2); (1, 3)] = Some f /\
    Calibration.hasFit (Calibration.MkCalibration [(1, 2); (1, 3)] (Some f)) = true /\
    Calibration.measured2real f 1 "N" = Some y /\
    Calibration.real2measured f 1 "N" = Some x.
Proof.
  split; [repeat constructor|].
  eexists _, _, _. split; [vm_compute; reflexivity|].
  split; [reflexivity|]. split; vm_compute; reflexivity.
Qed.

(** C5, as the code has it.  Whatever least-squares routine [polyfit] is,
    [fitLine] raises nothing, and it yields no fit exactly when there are
    fewer than 2 points or [polyfit] raises [ValueError]; a fit that
    [polyfit] returns is kept, also for points that share one measured
    value.  A calibration without a fit has [hasFit()] false and offers no
    conversion. *)
Theorem C5_no_fit_iff
        (polyfit : list Q -> list Q -> option (Q * Q)) (pts : list (Q * Q)) :
  let cal := Calibration.MkCalibration pts (Calibration.fitLine polyfit pts) in
  ((Py.len pts < 2)%Z \/ polyfit (map fst pts) (map snd pts) = None) <->
  (Calibration.fitLine polyfit pts = None /\
   Calibration.hasFit cal = false /\
   forall inp u,
     Calibration.fit_measured2real cal inp u = None /\
     Calibration.fit_real2measured cal inp u = None).
Proof.
  simpl. unfold Calibration.fitLine, Calibration.hasFit,
    Calibration.fit_measured2real, Calibration.fit_real2measured.
  simpl Calibration.fit.
  destruct (Z.ltb_spec (Py.len pts) 2) as [Hlt|Hge].
  - split; [|left; exact Hlt]. intros _. repeat split.
  - destruct (polyfit (map fst pts) (map snd pts)) as [[m b]|].
    + split.
      * intros [H|H]; [lia | discriminate].
      * intros (H & _). discriminate.
    + split; [|right; reflexivity]. intros _. repeat split.
Qed.

(** C8.  For every set of calibration points that lie exactly on the line
    [y = 2x + 3] and have at least two different measured values, the fit
    has slope 2 and intercept 3; and for every fit of non-zero slope, every
    input [x] and every unit of the conversion table, converting [x] to real
    units and back gives [x]. *)
Theorem C8_fit_and_round_trip :
  (forall pts,
      on_line 2 3 pts -> two_measured_values pts ->
      exists f,
        Calibration.fitLine Calibration.np_polyfit pts = Some f /\
        Calibration.m f == 2 /\ Calibration.b f == 3) /\
  (forall f x u,
      ~ Calibration.m f == 0 -> In u units ->
      exists y x',
        Calibration.measured2real f x u = Some y /\
        Calibration.real2measured f y u = Some x' /\
        x' == x).
Proof.
  split.
  - intros pts Hline Htwo.
    destruct (np_polyfit_on_line Hline Htwo) as (m & b & E & Hm & Hb).
    exists (Calibration.MkFit m b). unfold Calibration.fitLine.
    rewrite (two_values_length Htwo), E. repeat split; trivial.
  - intros f x u. apply round_trip.
Qed.

Lemma C8_fit_and_round_trip_witness :
  on_line 2 3 [(0, 3); (1, 5); (4, 11)] /\
  two_measured_values [(0, 3); (1, 5); (4, 11)] /\
  ~ Calibration.m (Calibration.MkFit 2 3) == 0 /\
  In "kg"%string units /\
  (exists f,
      Calibration.fitLine Calibration.np_polyfit [(0, 3); (1, 5); (4, 11)] = Some f /\
      Calibration.m f == 2 /\ Calibration.b f == 3) /\
  (exists y x',
      Calibration.measured2real (Calibration.MkFit 2 3) 7 "kg" = Some y /\
      Calibration.real2measured (Calibration.MkFit 2 3) y "kg" = Some x' /\
      x' == 7).
Proof.
  assert (on_line 2 3 [(0, 3); (1, 5); (4, 11)]) as Hline.
  { intros p [<-|[<-|[<-|[]]]]; reflexivity. }
  assert (two_measured_values [(0, 3); (1, 5); (4, 11)]) as Htwo.
  { exists (0, 3), (1, 5). split; [left; reflexivity|].
    split; [right; left; reflexivity | discriminate]. }
  assert (~ Calibration.m (Calibration.MkFit 2 3) == 0) as Hm by discriminate.
  assert (In "kg"%string units) as Hu by (right; left; reflexivity).
  split; [exact Hline|]. split; [exact Htwo|]. split; [exact Hm|].
  split; [exact Hu|]. split.
  - exact (proj1 C8_fit_and_round_trip _ Hline Htwo).
  - exact (proj2 C8_fit_and_round_trip _ 7 _ Hm Hu).
Defined.

(** ** Selecting a scale (C10) *)

Section UseScale.

Variable h : store.

Lemma find_scale_none (refs : list nat) (name : string) :
  (forall r s, In r refs -> nth_error h r = Some s -> str s <> name) ->
  find_scale h refs name = None.
Proof.
  induction refs as [|r refs IH]; intros H; simpl; trivial.
  assert (find_scale h refs name = None) as E.
  { apply IH. intros r' s Hr'. apply H. right. exact Hr'. }
  destruct (nth_error h r) as [s|] eqn:En; trivial.
  destruct (String.eqb_spec name (str s)) as [Es|_]; trivial.
  exfalso. apply (H r s); [left; reflexivity | exact En | symmetry; exact Es].
Qed.

Lemma find_scale_some (refs : list nat) (name : string) (r : nat) :
  find_scale h refs name = Some r ->
  In r refs /\ exists s, nth_error h r = Some s /\ str s = name.
Proof.
  induction refs as [|r0 refs IH]; simpl; [discriminate|].
  destruct (nth_error h r0) as [s|] eqn:En.
  - destruct (String.eqb_spec name (str s)) as [Es|_].
    + intros [= <-]. split; [left; reflexivity|]. exists s. split; auto.
    + intros H. destruct (IH H) as [Hin Hs]. split; [right; exact Hin | exact Hs].
  - intros H. destruct (IH H) as [Hin Hs]. split; [right; exact Hin | exact Hs].
Qed.

Lemma find_scale_known (refs : list nat) (name : string) (r : nat) (s : Scale) :
  In r refs -> nth_error h r = Some s -> str s = name ->
  exists r', find_scale h refs name = Some r'.
Proof.
  induction refs as [|r0 refs IH]; intros Hin Hn Hs; [destruct Hin|].
  simpl. destruct Hin as [->|Hin].
  - rewrite Hn, <- Hs, String.eqb_refl. eauto.
  - destruct (nth_error h r0) as [s0|]; [|apply IH; trivial].
    destruct (String.eqb name (str s0)); [eauto | apply IH; trivial].
Qed.

Lemma Scale_read_spec (s : Scale) :
  Scale_read s = (ReadingsQ.items (readingsQ s), drained s).
Proof.
  unfold Scale_read, drained. rewrite read_spec. reflexivity.
Qed.

Lemma store_set_nth (ref : nat) (s s' : Scale) :
  nth_error h ref = Some s -> nth_error (store_set h ref s') ref = Some s'.
Proof.
  revert ref. induction h as [|x h' IH]; intros [|ref]; simpl; try discriminate.
  - reflexivity.
  - apply IH.
Qed.

Lemma store_set_other (ref ref' : nat) (s' : Scale) :
  ref' <> ref -> nth_error (store_set h ref s') ref' = nth_error h ref'.
Proof.
  revert ref ref'. induction h as [|x h' IH]; intros [|ref] [|ref'] Hne; simpl;
    trivial; try congruence.
  apply IH. congruence.
Qed.

End UseScale.

(** C10.  For every state:
    - [useScale(name)] with a name that is neither "Select..." nor "Random
      Generator" nor the display name of a scale in [self.scales] changes
      nothing: not the active scale, not the series buffer, the count, the
      calibration, nor any scale;
    - [useScale("Select...")] clears the selection: after it the active
      scale is [None], and nothing else has changed;
    - [useScale(name)] with the display name of a known scale selects the
      first scale of that name: after it that scale is the active scale, its
      queue has been read empty, and the other scales, the series buffer,
      the count and the calibration are as they were. *)
Theorem C10_useScale_frame (h : store) (self : LoadCellControl) :
  (forall name,
      name <> "Select..."%string -> name <> "Random Generator"%string ->
      (forall r s, In r (scales self) -> nth_error h r = Some s -> str s <> name) ->
      useScale h self name = (h, self)) /\
  (useScale h self "Select..." = (h, set_scale self NoScale) /\
   fst (useScale h self "Select...") = h /\
   scale (snd (useScale h self "Select...")) = NoScale /\
   data (snd (useScale h self "Select...")) = data self /\
   numSamplesLastReading (snd (useScale h self "Select...")) =
     numSamplesLastReading self /\
   calibration (snd (useScale h self "Select...")) = calibration self /\
   scales (snd (useScale h self "Select...")) = scales self /\
   sampleRate (snd (useScale h self "Select...")) = sampleRate self /\
   baudrate (snd (useScale h self "Select...")) = baudrate self /\
   length (snd (useScale h self "Select...")) = length self) /\
  (forall name r s,
      name <> "Select..."%string -> name <> "Random Generator"%string ->
      In r (scales self) -> nth_error h r = Some s -> str s = name ->
      exists r' s',
        In r' (scales self) /\ nth_error h r' = Some s' /\ str s' = name /\
        useScale h self name =
          (store_set h r' (drained s'), set_scale self (ScaleAt r')) /\
        nth_error (store_set h r' (drained s')) r' = Some (drained s') /\
        ReadingsQ.items (readingsQ (drained s')) = [] /\
        (forall r'', r'' <> r' ->
           nth_error (store_set h r' (drained s')) r'' = nth_error h r'') /\
        scale (snd (useScale h self name)) = ScaleAt r' /\
        nth_error (fst (useScale h self name)) r' = Some (drained s') /\
        data (snd (useScale h self name)) = data self /\
        numSamplesLastReading (snd (useScale h self name)) =
          numSamplesLastReading self /\
        calibration (snd (useScale h self name)) = calibration self /\
        scales (snd (useScale h self name)) = scales self /\
        sampleRate (snd (useScale h self name)) = sampleRate self /\
        baudrate (snd (useScale h self name)) = baudrate self /\
        length (snd (useScale h self name)) = length self).
Proof.
  split; [|split].
  - intros name H1 H2 Hunknown. unfold useScale.
    apply String.eqb_neq in H1, H2. rewrite H1, H2.
    rewrite (@find_scale_none h (scales self) name Hunknown). reflexivity.
  - repeat split.
  - intros name r s H1 H2 Hin Hn Hs.
    destruct (@find_scale_known h (scales self) name r s Hin Hn Hs) as (r' & Hfind).
    destruct (@find_scale_some h (scales self) name r' Hfind) as (Hin' & s' & Hn' & Hs').
    exists r', s'. split; [exact Hin'|]. split; [exact Hn'|]. split; [exact Hs'|].
    assert (useScale h self name =
            (store_set h r' (drained s'), set_scale self (ScaleAt r'))) as E.
    { unfold useScale. apply String.eqb_neq in H1, H2. rewrite H1, H2.
      rewrite Hfind, Hn', Scale_read_spec. reflexivity. }
    assert (nth_error (store_set h r' (drained s')) r' = Some (drained s')) as Hd
      by (apply store_set_nth with (s := s'); exact Hn').
    split; [exact E|]. split; [exact Hd|]. split; [destruct s'; reflexivity|].
    split; [intros r'' Hne; apply store_set_other; exact Hne|].
    rewrite E. cbn [fst snd]. split; [reflexivity|]. split; [exact Hd|].
    repeat split.
Qed.

Lemma C10_useScale_frame_witness :
  let h := [SerialScale "/dev/ttyUSB0" (ReadingsQ.MkQueue 10000 [(1, 5); (2, 6)]);
            BluetoothScale "00:11" "HC-05" (ReadingsQ.MkQueue 10000 [(3, 7)])] in
  let self := MkLoadCellControl 100000 [(0, 1)] 1 [0%nat; 1%nat] (ScaleAt 0)
                (Calibration.MkCalibration [] None) 10 9600 in
  useScale h self "Serial Scale at COM1" = (h, self) /\
  scale (snd (useScale h self "Select...")) = NoScale /\
  exists r' s',
    In r' (scales self) /\ nth_error h r' = Some s' /\
    str s' = "Bluetooth Scale HC-05"%string /\
    scale (snd (useScale h self "Bluetooth Scale HC-05")) = ScaleAt r' /\
    nth_error (fst (useScale h self "Bluetooth Scale HC-05")) r' = Some (drained s') /\
    ReadingsQ.items (readingsQ (drained s')) = [] /\
    data (snd (useScale h self "Bluetooth Scale HC-05")) = data self.
Proof.
  intros h self.
  destruct (C10_useScale_frame h self) as (Hnone & Hclear & Hknown).
  split; [|split].
  - apply Hnone; [discriminate | discriminate |].
    intros r s [<-|[<-|[]]] [= <-]; discriminate.
  - apply Hclear.
  - destruct (Hknown "Bluetooth Scale HC-05"%string 1%nat
                (BluetoothScale "00:11" "HC-05" (ReadingsQ.MkQueue 10000 [(3, 7)])))
      as (r' & s' & A1 & A2 & A3 & _ & _ & A6 & _ & A8 & A9 & A10 & _);
      try discriminate; try reflexivity.
    + right. left. reflexivity.
    + exists r', s'. repeat split; assumption.
Defined.

(** ** Unit conversion *)

Section ConversionFacts.

Local Open Scope Q_scope.
Import Calibration.

Lemma getitem_none (table : list (string * Q)) (u : string) :
  getitem table u = None <-> ~ In u (map fst table).
Proof.
  induction table as [|[u0 c] table IH]; simpl.
  - tauto.
  - destruct (String.eqb_spec u0 u) as [->|Hne].
    + split; [discriminate | intros H; exfalso; apply H; left; reflexivity].
    + rewrite IH. split; [intros H [E|Hin]; auto | tauto].
Qed.

Lemma convert_units (x : Q) (a b : string) (ca cb : Q) :
  getitem CONVERSIONS a = Some ca -> getitem CONVERSIONS b = Some cb ->
  ~ ca == 0 ->
  convertBetween x a b = Some (x * (cb / ca)).
Proof.
  intros Ha Hb Hnz. unfold convertBetween. rewrite Hb, Ha. cbn [bind].
  rewrite truediv_some by exact Hnz. reflexivity.
Qed.

End ConversionFacts.

(** X2. [convertBetween] raises ([KeyError]) exactly when one of the two
    units is not a key of [CONVERSIONS]; it never divides by zero. *)
Theorem X2_convertBetween_raises_iff (x : Q) (a b : string) :
  Calibration.convertBetween x a b = None <-> ~ In a units \/ ~ In b units.
Proof.
  unfold Calibration.convertBetween, units.
  destruct (Calibration.getitem Calibration.CONVERSIONS b) as [cb|] eqn:Eb.
  - destruct (Calibration.getitem Calibration.CONVERSIONS a) as [ca|] eqn:Ea.
    + cbn [bind].
      assert (In a units) as Ha.
      { destruct (in_dec string_dec a units) as [|Hn]; trivial.
        apply getitem_none in Hn. unfold units in *. congruence. }
      destruct (@getitem_units a Ha) as (ca' & Eca & Hca).
      assert (ca' = ca) as -> by congruence.
      rewrite truediv_some by lra. cbn [bind].
      split; [discriminate|]. intros [H|H]; exfalso.
      * apply H, Ha.
      * apply getitem_none in H. congruence.
    + cbn [bind]. split; trivial. intros _. left. apply getitem_none, Ea.
  - cbn [bind]. split; trivial. intros _. right. apply getitem_none, Eb.
Qed.

(** ** The point list of a calibration *)

Section CalibrationPoints.

Variable polyfit : list Q -> list Q -> option (Q * Q).

Import Calibration.

Lemma pt_eqb_refl (p : Q * Q) : pt_eqb p p = true.
Proof.
  unfold pt_eqb. apply andb_true_intro.
  split; apply Qeq_bool_iff; reflexivity.
Qed.

Lemma pt_eqb_sym (p q : Q * Q) : pt_eqb p q = pt_eqb q p.
Proof.
  unfold pt_eqb. f_equal.
  - destruct (Qeq_bool (fst q) (fst p)) eqn:E.
    + apply Qeq_bool_iff. symmetry. apply Qeq_bool_iff, E.
    + apply Qeq_bool_false. intros H. apply Qeq_bool_false in E. apply E.
      symmetry. exact H.
  - destruct (Qeq_bool (snd q) (snd p)) eqn:E.
    + apply Qeq_bool_iff. symmetry. apply Qeq_bool_iff, E.
    + apply Qeq_bool_false. intros H. apply Qeq_bool_false in E. apply E.
      symmetry. exact H.
Qed.

Lemma pt_eqb_true (p q : Q * Q) :
  pt_eqb p q = true <-> (fst p == fst q /\ snd p == snd q)%Q.
Proof.
  unfold pt_eqb. rewrite andb_true_iff, !Qeq_bool_iff. tauto.
Qed.

Lemma pt_eqb_trans (p q r : Q * Q) :
  pt_eqb p q = true -> pt_eqb q r = true -> pt_eqb p r = true.
Proof.
  rewrite !pt_eqb_true. intros [A B] [C D].
  split; [rewrite A; exact C | rewrite B; exact D].
Qed.

Lemma pt_in_false (pt : Q * Q) (l : list (Q * Q)) :
  pt_in pt l = false <-> Forall (fun p => different_pts p pt) l.
Proof.
  unfold pt_in, different_pts. induction l as [|p l IH]; simpl.
  - split; [constructor | reflexivity].
  - rewrite orb_false_iff, IH, (pt_eqb_sym pt p). split.
    + intros [A B]. constructor; assumption.
    + intros H. inversion H; subst. split; assumption.
Qed.

Lemma pt_in_app (pt : Q * Q) (l l' : list (Q * Q)) :
  pt_in pt (l ++ l') = pt_in pt l || pt_in pt l'.
Proof. unfold pt_in. apply existsb_app. Qed.

Lemma distinct_snoc (l : list (Q * Q)) (pt : Q * Q) :
  distinct_pts l -> pt_in pt l = false -> distinct_pts (l ++ [pt]).
Proof.
  unfold distinct_pts. intros Hd Hin. apply StronglySorted_app.
  - exact Hd.
  - repeat constructor.
  - apply pt_in_false in Hin. rewrite Forall_forall in *.
    intros p Hp. repeat constructor. apply Hin, Hp.
Qed.

Lemma list_remove_none (l : list (Q * Q)) (pt : Q * Q) :
  list_remove l pt = None <-> pt_in pt l = false.
Proof.
  unfold pt_in. induction l as [|p l IH]; simpl.
  - tauto.
  - rewrite (pt_eqb_sym pt p). destruct (pt_eqb p pt); simpl.
    + split; discriminate.
    + rewrite <- IH. destruct (list_remove l pt); cbn [bind];
        split; congruence.
Qed.

Lemma list_remove_snoc (l : list (Q * Q)) (pt : Q * Q) :
  pt_in pt l = false -> list_remove (l ++ [pt]) pt = Some l.
Proof.
  unfold pt_in. induction l as [|p l IH]; simpl.
  - intros _. rewrite pt_eqb_refl. reflexivity.
  - rewrite (pt_eqb_sym pt p). destruct (pt_eqb p pt); simpl; [discriminate|].
    intros H. rewrite (IH H). reflexivity.
Qed.

Lemma list_remove_some (l l' : list (Q * Q)) (pt : Q * Q) :
  list_remove l pt = Some l' ->
  exists l1 p l2, l = l1 ++ p :: l2 /\ l' = l1 ++ l2 /\
                  pt_eqb p pt = true /\ pt_in pt l1 = false.
Proof.
  revert l'. induction l as [|p l IH]; simpl; intros l'; [discriminate|].
  destruct (pt_eqb p pt) eqn:E.
  - intros [= <-]. exists [], p, l. repeat split; trivial.
  - destruct (list_remove l pt) as [r|]; [|discriminate]. cbn [bind].
    intros [= <-]. destruct (IH r eq_refl) as (l1 & p' & l2 & -> & -> & Hp & Hin).
    exists (p :: l1), p', l2. repeat split; trivial.
    unfold pt_in in *. simpl. rewrite (pt_eqb_sym pt p), E, Hin. reflexivity.
Qed.

Lemma distinct_remove (l l' : list (Q * Q)) (pt : Q * Q) :
  distinct_pts l -> list_remove l pt = Some l' ->
  distinct_pts l' /\ pt_in pt l' = false /\
  (Py.len l' = Py.len l - 1)%Z.
Proof.
  intros Hd Hr. destruct (list_remove_some _ _ Hr) as (l1 & p & l2 & -> & -> & Hp & Hin).
  unfold distinct_pts in *.
  destruct (StronglySorted_app_inv _ _ Hd) as (H1 & H2 & H12).
  inversion H2 as [|? ? H2' Hp2]; subst.
  split; [|split].
  - apply StronglySorted_app; trivial. rewrite Forall_forall in *.
    intros a Ha. specialize (H12 a Ha). inversion H12; subst. assumption.
  - rewrite pt_in_app, Hin. simpl. apply pt_in_false.
    rewrite Forall_forall in *. intros q Hq. specialize (Hp2 q Hq).
    unfold different_pts in *. destruct (pt_eqb q pt) eqn:E; trivial.
    rewrite <- Hp2. symmetry. apply pt_eqb_trans with pt; trivial.
    rewrite pt_eqb_sym. exact E.
  - unfold Py.len. rewrite !length_app. simpl. lia.
Qed.

Lemma addPoint_distinct (cal cal' : t) (pt : Q * Q) (u : string) :
  distinct_pts (pts cal) -> addPoint polyfit cal pt u = Some cal' ->
  distinct_pts (pts cal').
Proof.
  intros Hd. unfold addPoint. destruct pt as [measured real].
  destruct (convertBetween real u "N") as [newreal|]; [|discriminate].
  cbn [bind].
  destruct (pt_in (measured, newreal) (pts cal)) eqn:E.
  - intros [= <-]. exact Hd.
  - intros [= <-]. simpl. apply distinct_snoc; trivial.
Qed.

Lemma removePoint_distinct (cal : t) (pt : Q * Q) :
  distinct_pts (pts cal) -> distinct_pts (pts (removePoint polyfit cal pt)).
Proof.
  intros Hd. unfold removePoint.
  destruct (list_remove (pts cal) pt) as [l'|] eqn:E; trivial.
  simpl. eapply distinct_remove; eauto.
Qed.

Lemma add_points_distinct (l : list (Q * Q)) (u : string) (cal cal' : t) :
  distinct_pts (pts cal) -> add_points polyfit cal l u = Some cal' ->
  distinct_pts (pts cal').
Proof.
  revert cal. induction l as [|p l IH]; intros cal Hd; simpl.
  - intros [= <-]. exact Hd.
  - destruct (addPoint polyfit cal p u) as [c|] eqn:E; [|discriminate].
    cbn [bind]. apply IH. eapply addPoint_distinct; eauto.
Qed.

End CalibrationPoints.

(** X5. A calibration never holds the same point twice: the points of a
    calibration built by [Calibration(pts, units)] are pairwise different,
    and [addPoint] and [removePoint] keep them so. *)
Theorem X5_calibration_points_distinct
        (polyfit : list Q -> list Q -> option (Q * Q))
        (l : list (Q * Q)) (u : string) (cal : Calibration.t) :
  Calibration.init polyfit l u = Some cal ->
  distinct_pts (Calibration.pts cal) /\
  (forall pt u' cal', Calibration.addPoint polyfit cal pt u' = Some cal' ->
                      distinct_pts (Calibration.pts cal')) /\
  (forall pt, distinct_pts (Calibration.pts (Calibration.removePoint polyfit cal pt))).
Proof.
  intros Hi.
  assert (distinct_pts (Calibration.pts cal)) as Hd.
  { eapply add_points_distinct; [|exact Hi]. constructor. }
  split; [exact Hd|]. split.
  - intros pt u' cal' Ha. eapply addPoint_distinct; eauto.
  - intros pt. apply removePoint_distinct, Hd.
Qed.

Lemma X5_calibration_points_distinct_witness :
  exists cal,
    Calibration.init Calibration.np_polyfit [(1, 5); (2, 7); (1, 5)]%Q "N" = Some cal /\
    Py.len (Calibration.pts cal) = 2%Z /\
    distinct_pts (Calibration.pts cal).
Proof.
  eexists. split; [vm_compute; reflexivity|]. split; [reflexivity|].
  apply (@X5_calibration_points_distinct Calibration.np_polyfit
           [(1, 5); (2, 7); (1, 5)]%Q "N" _ eq_refl).
Defined.



(** X7. [removePoint] undoes [addPoint]: when a point not yet held is added
    (given in any unit of the table) and the stored point (in newtons) is
    removed again, the calibration is the one before, points and fit. *)
Theorem X7_removePoint_undoes_addPoint
        (polyfit : list Q -> list Q -> option (Q * Q))
        (cal : Calibration.t) (measured real newreal : Q) (u : string) :
  fit_current polyfit cal ->
  Calibration.convertBetween real u "N" = Some newreal ->
  Calibration.pt_in (measured, newreal) (Calibration.pts cal) = false ->
  exists cal',
    Calibration.addPoint polyfit cal (measured, real) u = Some cal' /\
    Calibration.pts cal' = Calibration.pts cal ++ [(measured, newreal)] /\
    Calibration.removePoint polyfit cal' (measured, newreal) = cal.
Proof.
  intros Hf Hc Hin. unfold Calibration.addPoint. rewrite Hc. cbn [bind].
  rewrite Hin. eexists. split; [reflexivity|]. split; [reflexivity|].
  unfold Calibration.removePoint. cbn [Calibration.pts].
  rewrite list_remove_snoc by exact Hin.
  unfold fit_current in Hf. rewrite <- Hf. destruct cal; reflexivity.
Qed.

Lemma X7_removePoint_undoes_addPoint_witness :
  exists cal',
    Calibration.addPoint Calibration.np_polyfit
      (Calibration.MkCalibration [(1, 5)]%Q None) (2, 7)%Q "N" = Some cal' /\
    Calibration.pts cal' = [(1, 5); (2, 7 * (1.0 / 1.0))]%Q /\
    Calibration.removePoint Calibration.np_polyfit cal' (2, 7 * (1.0 / 1.0))%Q =
    Calibration.MkCalibration [(1, 5)]%Q None.
Proof.
  apply (@X7_removePoint_undoes_addPoint Calibration.np_polyfit
           (Calibration.MkCalibration [(1, 5)]%Q None) 2 7 (7 * (1.0 / 1.0))%Q "N");
    reflexivity.
Defined.

(** X8. [removePoint] of a point the calibration does not hold raises
    nothing and changes nothing; of a point it holds, it removes that point:
    one point fewer, the point no longer held, the fit refitted. *)
Theorem X8_removePoint_cases
        (polyfit : list Q -> list Q -> option (Q * Q))
        (cal : Calibration.t) (pt : Q * Q) :
  distinct_pts (Calibration.pts cal) ->
  let cal' := Calibration.removePoint polyfit cal pt in
  (Calibration.pt_in pt (Calibration.pts cal) = false -> cal' = cal) /\
  (Calibration.pt_in pt (Calibration.pts cal) = true ->
   Calibration_len cal' = (Calibration_len cal - 1)%Z /\
   Calibration.pt_in pt (Calibration.pts cal') = false /\
   fit_current polyfit cal').
Proof.
  intros Hd cal'. subst cal'. unfold Calibration.removePoint, Calibration_len.
  destruct (Calibration.list_remove (Calibration.pts cal) pt) as [l'|] eqn:E.
  - split.
    + intros Hin. apply list_remove_none in Hin. congruence.
    + intros _. cbn [Calibration.pts].
      destruct (@distinct_remove _ _ _ Hd E) as (_ & Hn & Hl).
      split; [exact Hl|]. split; [exact Hn|]. reflexivity.
  - split; [reflexivity|]. intros Hin. apply list_remove_none in E. congruence.
Qed.

Lemma X8_removePoint_cases_witness :
  let cal := Calibration.MkCalibration [(1, 5); (2, 7); (3, 9)]%Q None in
  let cal' := Calibration.removePoint Calibration.np_polyfit cal (2, 7)%Q in
  (Calibration.pt_in (2, 7)%Q (Calibration.pts cal) = false -> cal' = cal) /\
  (Calibration.pt_in (2, 7)%Q (Calibration.pts cal) = true ->
   Calibration_len cal' = (Calibration_len cal - 1)%Z /\
   Calibration.pt_in (2, 7)%Q (Calibration.pts cal') = false /\
   fit_current Calibration.np_polyfit cal').
Proof.
  apply (@X8_removePoint_cases Calibration.np_polyfit
           (Calibration.MkCalibration [(1, 5); (2, 7); (3, 9)]%Q None) (2, 7)%Q).
  repeat constructor.
Defined.

(** ** Removing several points, and [convertedTo] *)

Section RemoveSamples.

Variable polyfit : list Q -> list Q -> option (Q * Q).

Import Calibration.

Lemma filter_all (A : Type) (f : A -> bool) (l : list A) :
  Forall (fun a => f a = true) l -> filter f l = l.
Proof.
  induction 1 as [|a l Ha _ IH]; simpl; trivial. rewrite Ha, IH. reflexivity.
Qed.

Lemma removePoint_pts (cal : t) (pt : Q * Q) :
  distinct_pts (pts cal) ->
  pts (removePoint polyfit cal pt) =
  filter (fun p => negb (pt_eqb p pt)) (pts cal).
Proof.
  unfold removePoint. remember (pts cal) as l eqn:El. intros Hd.
  assert (match list_remove l pt with Some l' => l' | None => l end =
          filter (fun p => negb (pt_eqb p pt)) l) as H.
  { clear El. induction Hd as [|p l Hd IH Hp]; simpl; trivial.
    destruct (pt_eqb p pt) eqn:E; simpl.
    - symmetry. apply filter_all. rewrite Forall_forall in *. intros q Hq.
      specialize (Hp q Hq). unfold different_pts in Hp.
      destruct (pt_eqb q pt) eqn:E'; trivial. exfalso.
      rewrite pt_eqb_sym in E'.
      rewrite (pt_eqb_trans _ _ _ E E') in Hp. discriminate.
    - destruct (list_remove l pt) as [r|]; cbn [bind]; rewrite <- IH; reflexivity. }
  destruct (list_remove l pt); simpl; rewrite <- ?El; exact H.
Qed.

Lemma filter_distinct (f : Q * Q -> bool) (l : list (Q * Q)) :
  distinct_pts l -> distinct_pts (filter f l).
Proof.
  unfold distinct_pts. induction 1 as [|p l Hd IH Hp]; simpl; [constructor|].
  destruct (f p); trivial. constructor; trivial.
  rewrite Forall_forall in *. intros q Hq. apply filter_In in Hq. apply Hp, Hq.
Qed.

Lemma remove_all_pts (l : list (Q * Q)) (cal : t) :
  distinct_pts (pts cal) -> fit_current polyfit cal ->
  let cal' := fold_left (removePoint polyfit) l cal in
  pts cal' = without l (pts cal) /\ fit_current polyfit cal'.
Proof.
  revert cal. induction l as [|q l IH]; intros cal Hd Hf; simpl.
  - split; trivial. unfold without. symmetry. apply filter_all.
    apply Forall_forall. reflexivity.
  - destruct (IH (removePoint polyfit cal q)) as [Hp Hc].
    + apply removePoint_distinct, Hd.
    + apply removePoint_fit_current, Hf.
    + split; trivial. simpl in Hp. rewrite Hp, removePoint_pts by exact Hd.
      unfold without. clear. induction (pts cal) as [|p r IHr]; simpl; trivial.
      unfold pt_in at 2. simpl existsb.
      destruct (pt_eqb p q); simpl; [exact IHr|].
      fold (pt_in p l). destruct (pt_in p l); simpl; rewrite IHr; reflexivity.
Qed.

End RemoveSamples.

Section ConvertedTo.

Variable polyfit : list Q -> list Q -> option (Q * Q).

Import Calibration.
Local Open Scope Q_scope.

Lemma reinterpreted_eqb (cu : Q) (p q : Q * Q) :
  0 < cu -> pt_eqb (reinterpreted cu p) (reinterpreted cu q) = pt_eqb p q.
Proof.
  intros Hcu. unfold pt_eqb, reinterpreted. simpl. f_equal.
  destruct (Qeq_bool (snd p) (snd q)) eqn:E.
  - apply Qeq_bool_iff. apply Qeq_bool_iff in E. rewrite E. reflexivity.
  - apply Qeq_bool_false. apply Qeq_bool_false in E. intros H. apply E.
    assert (snd p == snd p * (1.0 / cu) * cu) as -> by (field; lra).
    rewrite H. field. lra.
Qed.

Lemma reinterpreted_distinct (cu : Q) (l : list (Q * Q)) :
  0 < cu -> distinct_pts l -> distinct_pts (map (reinterpreted cu) l).
Proof.
  intros Hcu. unfold distinct_pts.
  induction 1 as [|p l Hd IH Hp]; simpl; constructor; trivial.
  rewrite Forall_forall in *. intros q' Hq. apply in_map_iff in Hq.
  destruct Hq as (q & <- & Hq). unfold different_pts.
  rewrite reinterpreted_eqb by exact Hcu. apply Hp, Hq.
Qed.

Lemma add_points_reinterpreted (u : string) (cu : Q) (l acc : list (Q * Q))
      (f : option Fit) :
  getitem CONVERSIONS u = Some cu -> 0 < cu ->
  distinct_pts (acc ++ map (reinterpreted cu) l) ->
  fit_current polyfit (MkCalibration acc f) ->
  exists cal', add_points polyfit (MkCalibration acc f) l u = Some cal' /\
               pts cal' = acc ++ map (reinterpreted cu) l /\
               fit_current polyfit cal'.
Proof.
  intros Hu Hcu. revert acc f. induction l as [|[measured real] l IH]; intros acc f Hd Hf; simpl.
  - rewrite app_nil_r. eexists. split; [reflexivity|]. split; trivial.
  - unfold addPoint. rewrite (@convert_to_N real u cu Hu) by lra.
    cbn [bind pts].
    change (measured, real * (1.0 / cu)) with (reinterpreted cu (measured, real)).
    assert (pt_in (reinterpreted cu (measured, real)) acc = false) as Hin.
    { apply pt_in_false. unfold distinct_pts in Hd.
      apply StronglySorted_app_inv in Hd. destruct Hd as (_ & _ & Hd).
      rewrite Forall_forall in *. intros p Hp. specialize (Hd p Hp).
      simpl in Hd. inversion Hd; subst. assumption. }
    rewrite Hin.
    destruct (IH (acc ++ [reinterpreted cu (measured, real)])
                 (fitLine polyfit (acc ++ [reinterpreted cu (measured, real)])))
      as (cal' & Ha & Hp & Hc).
    + rewrite <- app_assoc. exact Hd.
    + reflexivity.
    + exists cal'. split; [exact Ha|]. split; [|exact Hc].
      rewrite Hp, <- app_assoc. reflexivity.
Qed.

End ConvertedTo.

(** X9. [removeSamples(pts)] removes from the calibration exactly the given
    points: the remaining points are the points held before that are none of
    the given ones, in their order, and the fit is that of the remaining
    points. Given points that are not held, or given twice, do no harm. *)
Theorem X9_removeSamples_removes_given
        (polyfit : list Q -> list Q -> option (Q * Q))
        (self : LoadCellControl) (l : list (Q * Q)) :
  distinct_pts (Calibration.pts (calibration self)) ->
  fit_current polyfit (calibration self) ->
  let self' := removeSamples polyfit self l in
  Calibration.pts (calibration self') =
    without l (Calibration.pts (calibration self)) /\
  fit_current polyfit (calibration self') /\
  data self' = data self /\ scale self' = scale self.
Proof.
  intros Hd Hf self'. subst self'. unfold removeSamples. cbn [calibration set_calibration data scale].
  destruct (@remove_all_pts polyfit l (calibration self) Hd Hf) as [Hp Hc].
  repeat split; assumption.
Qed.

Lemma X9_removeSamples_removes_given_witness :
  let cal := Calibration.MkCalibration [(1, 5); (2, 7); (3, 9)]%Q
               (Calibration.fitLine Calibration.np_polyfit [(1, 5); (2, 7); (3, 9)]%Q) in
  let self := set_calibration (init 10 9600) cal in
  let self' := removeSamples Calibration.np_polyfit self [(3, 9); (4, 4); (1, 5); (3, 9)]%Q in
  Calibration.pts (calibration self') = [(2, 7)]%Q /\
  fit_current Calibration.np_polyfit (calibration self') /\
  data self' = data self /\ scale self' = scale self.
Proof.
  apply (@X9_removeSamples_removes_given Calibration.np_polyfit
           (set_calibration (init 10 9600)
              (Calibration.MkCalibration [(1, 5); (2, 7); (3, 9)]%Q
                 (Calibration.fitLine Calibration.np_polyfit [(1, 5); (2, 7); (3, 9)]%Q)))
           [(3, 9); (4, 4); (1, 5); (3, 9)]%Q).
  - repeat constructor.
  - reflexivity.
Defined.

(** X10. [convertedTo(units)] builds a calibration from the held points taken
    as given in [units]: the real value of every point, held in newtons, is
    multiplied by 1.0 / CONVERSIONS[units], the measured values and the
    order are kept, and the fit is that of the new points. *)
Theorem X10_convertedTo_points
        (polyfit : list Q -> list Q -> option (Q * Q))
        (self : Calibration.t) (u : string) (cu : Q) :
  Calibration.getitem Calibration.CONVERSIONS u = Some cu ->
  distinct_pts (Calibration.pts self) ->
  exists cal',
    convertedTo polyfit self u = Some cal' /\
    Calibration.pts cal' = map (reinterpreted cu) (Calibration.pts self) /\
    fit_current polyfit cal'.
Proof.
  intros Hu Hd. unfold convertedTo, Calibration.init.
  assert (0 < cu)%Q as Hcu.
  { assert (In u units) as Hin.
    { destruct (in_dec string_dec u units) as [|Hn]; trivial.
      apply getitem_none in Hn. unfold units in *. congruence. }
    destruct (@getitem_units u Hin) as (c & Ec & Hc). congruence. }
  apply (@add_points_reinterpreted polyfit u cu (Calibration.pts self) [] None Hu Hcu).
  - simpl. apply reinterpreted_distinct; trivial.
  - reflexivity.
Qed.

Lemma X10_convertedTo_points_witness :
  exists cal',
    convertedTo Calibration.np_polyfit
      (Calibration.MkCalibration [(1, 5); (2, 7)]%Q None) "kg" = Some cal' /\
    Calibration.pts cal' =
      map (reinterpreted 0.101971621298) [(1, 5); (2, 7)]%Q /\
    fit_current Calibration.np_polyfit cal'.
Proof.
  apply (@X10_convertedTo_points Calibration.np_polyfit
           (Calibration.MkCalibration [(1, 5); (2, 7)]%Q None) "kg"
           0.101971621298%Q eq_refl).
  repeat constructor.
Defined.

(** ** Ingesting in any order *)

Section AnyOrder.

Local Open Scope Q_scope.

Lemma deque_extend_nonempty (maxlen : Z) (d l : list (Q * Q)) :
  (0 < maxlen)%Z -> (Py.len d <= maxlen)%Z -> d ++ l <> [] ->
  deque_extend maxlen d l <> [].
Proof.
  intros Hm Hd Hne E.
  pose proof (deque_extend_length l d Hm Hd) as Hlen. rewrite E in Hlen.
  assert (0 < Py.len d + Py.len l)%Z.
  { rewrite <- len_app. destruct (d ++ l); [congruence|].
    unfold Py.len. simpl List.length. lia. }
  unfold Py.len in Hlen at 1. simpl in Hlen. lia.
Qed.

Lemma set_last_entry_nonempty (d : list (Q * Q)) (x : Q * Q) :
  set_last_entry d x <> [].
Proof. unfold set_last_entry. destruct (removelast d); discriminate. Qed.

Lemma addReadings_bounded (self : LoadCellControl) (rs : list reading) :
  rs <> [] -> ~ sampleRate self == 0 -> bounded self ->
  exists self', addReadings self rs = Some self' /\ bounded self' /\
                sampleRate self' = sampleRate self /\ data self' <> [].
Proof.
  intros Hne Hnz (Hlen & Hn & Hd & _).
  destruct (addReadings_cases self Hne Hnz Hn)
    as (t & v & n & rest & Eds & Hcases).
  assert (forall x, In x ((t, v, n) :: rest) -> (0 < snd x)%Z) as Hcount.
  { intros [[t' v'] n'] Hx. rewrite <- Eds in Hx.
    apply downsample_triple in Hx. simpl. tauto. }
  assert (forall final, last_triple ((t, v, n) :: rest) = Some final ->
                        (0 < snd final)%Z) as Hfinal.
  { intros final Hf. apply Hcount. apply last_triple_some in Hf.
    destruct Hf as (l' & ->). apply in_or_app. right. left. reflexivity. }
  assert (0 < length self)%Z as Hpos by lia.
  destruct Hcases as [(Hempty & final & Hf & ->)
                     |[(lt & lv & Hl & _ & ->)|(lt & lv & Hl & _ & final & Hf & ->)]];
    eexists; (split; [reflexivity|]); (split; [|split; [reflexivity|]]).
  - unfold bounded. rewrite data_set_data. cbn [length set_data numSamplesLastReading].
    specialize (Hfinal _ Hf).
    assert (Py.len (@nil (Q * Q)) <= length self)%Z as H0 by (unfold Py.len; simpl; lia).
    pose proof (deque_extend_length (map time_and_val ((t, v, n) :: rest)) [] Hpos H0).
    repeat split; try lia.
    intros E. exfalso. revert E. apply deque_extend_nonempty; trivial. discriminate.
  - rewrite data_set_data. apply deque_extend_nonempty; trivial.
    + unfold Py.len. simpl. lia.
    + discriminate.
  - unfold bounded. rewrite data_set_data. cbn [length set_data numSamplesLastReading].
    assert (0 < n)%Z as Hn' by (apply (Hcount (t, v, n)); left; reflexivity).
    assert (forall x, Py.len (set_last_entry (data self) x) <= length self)%Z as H0.
    { intros x. rewrite (set_last_entry_len _ _ Hl). lia. }
    pose proof (deque_extend_length (map time_and_val rest) _ Hpos (H0 (Py.max t lt,
              (lv * inject_Z (numSamplesLastReading self) + v * inject_Z n) /
              inject_Z (numSamplesLastReading self + n)))).
    repeat split; try lia.
    intros E. exfalso. revert E. apply deque_extend_nonempty; trivial.
    intros E. apply app_eq_nil in E. destruct E as [E _].
    revert E. apply set_last_entry_nonempty.
  - rewrite data_set_data. apply deque_extend_nonempty; trivial.
    + rewrite (set_last_entry_len _ _ Hl). lia.
    + intros E. apply app_eq_nil in E. destruct E as [E _].
      revert E. apply set_last_entry_nonempty.
  - unfold bounded. rewrite data_set_data. cbn [length set_data numSamplesLastReading].
    specialize (Hfinal _ Hf).
    assert (Py.len (data self) <= length self)%Z as H0 by lia.
    pose proof (deque_extend_length (map time_and_val ((t, v, n) :: rest)) _ Hpos H0).
    repeat split; try lia.
    intros E. exfalso. revert E. apply deque_extend_nonempty; trivial.
    intros E. apply app_eq_nil in E. destruct E as [_ E]. discriminate.
  - rewrite data_set_data. apply deque_extend_nonempty; trivial; [lia|].
    intros E. apply app_eq_nil in E. destruct E as [_ E]. discriminate.
Qed.

Lemma handle_bounded (self : LoadCellControl) (s : slot) :
  ~ sampleRate self == 0 -> bounded self -> rate_not_zero s ->
  exists self', handle self s = Some self' /\ bounded self' /\
                ~ sampleRate self' == 0.
Proof.
  intros Hnz Hb Hs. destruct s as [rs|r| |sr]; simpl.
  - destruct rs as [|r rs].
    + exists self. split; [reflexivity|]. split; assumption.
    + destruct (@addReadings_bounded self (r :: rs)) as (self' & E & Hb' & Hr & _);
        trivial; [discriminate|].
      exists self'. rewrite Hr. split; [exact E|]. split; assumption.
  - unfold addReading.
    destruct (@addReadings_bounded self [r]) as (self' & E & Hb' & Hr & _);
      trivial; [discriminate|].
    exists self'. rewrite Hr. split; [exact E|]. split; assumption.
  - exists (clear self). split; [reflexivity|]. split; [|exact Hnz].
    destruct Hb as (Hlen & _). unfold bounded, Py.len. simpl.
    repeat split; trivial; lia.
  - exists (setSampleRate self sr). split; trivial. split; [exact Hb | exact Hs].
Qed.

End AnyOrder.

(** X11. Whatever the order in which readings are ingested ([addReadings],
    [addReading]), the buffer is cleared and sample rates are set, starting
    from the initial state: whenever the calls return, the count of the last
    entry is not negative and is zero when the buffer is empty, and the
    buffer holds no more than 100000 entries.  The times of the readings need
    not be in order. *)
Theorem X11_slots_keep_bounds (rate : Q) (baud : Z) (l : list slot)
        (self' : LoadCellControl) :
  handle_all (init rate baud) l = Some self' -> bounded self'.
Proof.
  assert (bounded (init rate baud)) as Hb.
  { unfold bounded, Py.len. simpl. repeat split; lia. }
  revert Hb. generalize (init rate baud).
  induction l as [|s l IH]; intros self Hb; cbn [handle_all].
  - intros [= <-]. exact Hb.
  - destruct (handle self s) as [self1|] eqn:E; [|discriminate]. cbn [bind].
    apply IH. clear IH.
    assert (forall rs, addReadings self rs = Some self1 -> bounded self1) as Hadd.
    { intros rs Ha. destruct rs as [|r rs].
      - rewrite addReadings_nil in Ha. injection Ha as <-. exact Hb.
      - destruct (Qeq_dec (sampleRate self) 0) as [Hz|Hnz].
        + unfold addReadings in Ha. rewrite len_cons_not_lt_1 in Ha.
          rewrite (truediv_none 1.0 Hz) in Ha. discriminate.
        + assert (r :: rs <> []) as Hne by discriminate.
          destruct (@addReadings_bounded self (r :: rs) Hne Hnz Hb)
            as (s2 & Ha' & Hb' & _).
          congruence. }
    destruct s as [rs|r| |sr]; cbn [handle] in E.
    + apply (Hadd rs E).
    + apply (Hadd [r] E).
    + injection E as <-. destruct Hb as (Hlen & _).
      unfold bounded, Py.len. simpl. repeat split; trivial; lia.
    + injection E as <-. exact Hb.
Qed.

Lemma X11_slots_keep_bounds_witness :
  exists self',
    handle_all (init 10 9600)
      [Ingest [(5, 1); (1, 2)]; IngestOne (3, 4); SetSampleRate (-2);
       Ingest [(0, 7)]; ClearData; IngestOne (9, 9)]%Q = Some self' /\
    bounded self'.
Proof.
  eexists. split; [vm_compute; reflexivity|].
  apply (@X11_slots_keep_bounds 10 9600
           [Ingest [(5, 1); (1, 2)]; IngestOne (3, 4); SetSampleRate (-2);
            Ingest [(0, 7)]; ClearData; IngestOne (9, 9)]%Q).
  vm_compute. reflexivity.
Defined.



(** ** Batches that fall into one bucket *)

Section OneBucket.

Local Open Scope Q_scope.

Variable T : Q.

Lemma sum_app (a b : list Q) : Py.sum (a ++ b) == Py.sum a + Py.sum b.
Proof.
  induction a as [|x a IH]; simpl app.
  - rewrite sum_nil. ring.
  - rewrite !sum_cons, IH. ring.
Qed.







End OneBucket.



(** ** [PhonyScale.frange] and [PhonyScale.read] *)

Section Frange.

Local Open Scope Q_scope.
Import PhonyScale.

Variables start stop inc : Q.

Lemma frange_loop_steps (m k fuel : nat) (r : Q) :
  0 < inc -> (m < fuel)%nat ->
  r == frange_point start inc k ->
  (forall j, (k <= j < k + m)%nat -> frange_point start inc j < stop) ->
  stop <= frange_point start inc (k + m) ->
  frange_loop fuel start stop inc (Z.of_nat (S k)) r =
  Some (match m with
        | O => []
        | S m' => r :: map (frange_point start inc) (seq (S k) m')
        end).
Proof.
  intros Hinc. revert k fuel r. induction m as [|m IH]; intros k fuel r Hf Hr Hlt Hge.
  - destruct fuel as [|fuel]; [lia|]. simpl.
    unfold shouldContinue. rewrite (proj2 (ltb_true 0 inc)) by exact Hinc.
    rewrite (proj2 (ltb_false r stop)); [reflexivity|].
    rewrite Hr. rewrite Nat.add_0_r in Hge. exact Hge.
  - destruct fuel as [|fuel]; [lia|]. cbn [frange_loop].
    unfold shouldContinue. rewrite (proj2 (ltb_true 0 inc)) by exact Hinc.
    rewrite (proj2 (ltb_true r stop)).
    2:{ rewrite Hr. apply Hlt. lia. }
    replace (Z.of_nat (S k) + 1)%Z with (Z.of_nat (S (S k))) by lia.
    rewrite (IH (S k) fuel (start + inject_Z (Z.of_nat (S k)) * inc)).
    + cbn [bind]. destruct m; reflexivity.
    + lia.
    + reflexivity.
    + intros j Hj. apply Hlt. lia.
    + replace (S k + m)%nat with (k + S m)%nat by lia. exact Hge.
Qed.

Lemma frange_count :
  0 < inc ->
  exists n : nat,
    (forall j, (j < n)%nat -> frange_point start inc j < stop) /\
    stop <= frange_point start inc n.
Proof.
  intros Hinc.
  set (x := (stop - start) / inc).
  assert (x * inc == stop - start) as Hx by (unfold x; field; lra).
  exists (Z.to_nat (Qceiling x)). split.
  - intros j Hj. unfold frange_point.
    assert (inject_Z (Z.of_nat j) < x) as Hjx.
    { pose proof (Qceiling_lt x) as Hc.
      assert (Z.of_nat j <= Qceiling x - 1)%Z as Hz by lia.
      rewrite Zle_Qle in Hz. lra. }
    assert (inject_Z (Z.of_nat j) * inc < x * inc) as H
      by (apply Qmult_lt_r; assumption).
    lra.
  - unfold frange_point.
    assert (x <= inject_Z (Z.of_nat (Z.to_nat (Qceiling x)))) as Hn.
    { pose proof (Qle_ceiling x) as Hc.
      assert (Qceiling x <= Z.of_nat (Z.to_nat (Qceiling x)))%Z as Hz by lia.
      rewrite Zle_Qle in Hz. lra. }
    assert (x * inc <= inject_Z (Z.of_nat (Z.to_nat (Qceiling x))) * inc) as H
      by (apply Qmult_le_compat_r; lra).
    lra.
Qed.

Lemma frange_loop_stuck (fuel : nat) (i : Z) (r : Q) :
  inc == 0 -> stop < start -> r == start ->
  frange_loop fuel start stop inc i r = None.
Proof.
  intros Hinc Hlt. revert i r. induction fuel as [|fuel IH]; intros i r Hr; simpl; trivial.
  unfold shouldContinue.
  rewrite (proj2 (ltb_false 0 inc)) by lra.
  rewrite (proj2 (ltb_true stop r)) by lra.
  rewrite IH; [reflexivity|]. rewrite Hinc. ring.
Qed.

End Frange.

Lemma firstn_seq_le (a m m' : nat) :
  (m <= m')%nat -> firstn m (seq a m') = seq a m.
Proof.
  revert a m'. induction m as [|m IH]; intros a m' Hle; [reflexivity|].
  destruct m' as [|m']; [lia|]. simpl. f_equal. apply IH. lia.
Qed.

Lemma arith_seq_firstn (start inc : Q) (n n' : nat) :
  (n <= n')%nat -> firstn n (arith_seq start inc n') = arith_seq start inc n.
Proof.
  intros Hle. destruct n as [|m]; [reflexivity|].
  destruct n' as [|m']; [lia|]. simpl. f_equal.
  rewrite firstn_map. f_equal. apply firstn_seq_le. lia.
Qed.

Lemma arith_seq_length (start inc : Q) (n : nat) :
  List.length (arith_seq start inc n) = n.
Proof.
  destruct n as [|m]; simpl; trivial. rewrite length_map, length_seq. reflexivity.
Qed.

Lemma arith_seq_In (start inc : Q) (n : nat) (x : Q) :
  In x (arith_seq start inc n) ->
  exists j, (j < n)%nat /\ (x == frange_point start inc j)%Q.
Proof.
  destruct n as [|m]; simpl; [tauto|]. intros [<-|Hin].
  - exists 0%nat. split; [lia|]. unfold frange_point. simpl. ring.
  - apply in_map_iff in Hin. destruct Hin as (j & <- & Hj). apply in_seq in Hj.
    exists j. split; [lia | reflexivity].
Qed.

Lemma frange_arith_seq (start stop inc : Q) (n fuel : nat) :
  (0 < inc)%Q -> (n < fuel)%nat ->
  (forall j, (j < n)%nat -> (frange_point start inc j < stop)%Q) ->
  (stop <= frange_point start inc n)%Q ->
  PhonyScale.frange fuel start (Some stop) (Some inc) = Some (arith_seq start inc n).
Proof.
  intros Hinc Hf Hlt Hge. unfold PhonyScale.frange.
  change 1%Z with (Z.of_nat 1).
  rewrite (@frange_loop_steps start stop inc n 0 fuel start); trivial.
  - unfold frange_point. simpl. ring.
  - intros j Hj. apply Hlt. lia.
Qed.

Lemma read_loop_times (normal : nat -> Q) (k : nat) (l : list Q) :
  map fst (PhonyScale.read_loop normal k l) = l.
Proof.
  revert k. induction l as [|x l IH]; intros k; simpl; trivial. rewrite IH. reflexivity.
Qed.

(** X14. For a positive increment [frange(start, stop, inc)] ends and yields
    [start, start + inc, start + 2 * inc, ...], each computed as
    [start + i * inc]: every value yielded is below [stop], and the next one
    would not be. *)
Theorem X14_frange_positive_increment (start stop inc : Q) :
  0 < inc ->
  exists n : nat,
    (forall fuel, (n < fuel)%nat ->
       PhonyScale.frange fuel start (Some stop) (Some inc) =
       Some (arith_seq start inc n)) /\
    Forall (fun x => x < stop) (arith_seq start inc n) /\
    stop <= start + inject_Z (Z.of_nat n) * inc.
Proof.
  intros Hinc. destruct (@frange_count start stop inc Hinc) as (n & Hlt & Hge).
  exists n. split; [|split].
  - intros fuel Hf. apply frange_arith_seq; trivial.
  - apply Forall_forall. intros x Hx.
    destruct (@arith_seq_In _ _ _ _ Hx) as (j & Hj & ->). apply Hlt, Hj.
  - exact Hge.
Qed.

Lemma X14_frange_positive_increment_witness :
  exists n : nat,
    (forall fuel, (n < fuel)%nat ->
       PhonyScale.frange fuel 1 (Some 2) (Some (3 # 10)) =
       Some (arith_seq 1 (3 # 10) n)) /\
    Forall (fun x => x < 2) (arith_seq 1 (3 # 10) n) /\
    2 <= 1 + inject_Z (Z.of_nat n) * (3 # 10).
Proof.
  apply (@X14_frange_positive_increment 1 2 (3 # 10)). reflexivity.
Defined.

(** X15. With an increment of zero and [start] above [stop], [frange] never
    ends: it yields [start] for ever. *)
Theorem X15_frange_zero_increment_never_ends (start stop inc : Q) (fuel : nat) :
  inc == 0 -> stop < start ->
  PhonyScale.frange fuel start (Some stop) (Some inc) = None.
Proof.
  intros Hinc Hlt. unfold PhonyScale.frange.
  apply frange_loop_stuck; trivial. reflexivity.
Qed.

Lemma X15_frange_zero_increment_never_ends_witness :
  PhonyScale.frange 1000 5 (Some 2) (Some 0) = None.
Proof.
  apply (@X15_frange_zero_increment_never_ends 5 2 0 1000); reflexivity.
Defined.

(** X16. [PhonyScale.read] never moves [self.last]: every read starts again
    at the time the scale was made, so the timestamps of a read are the
    first timestamps of every later read, whatever values are drawn. *)
Theorem X16_phony_read_restarts (self : PhonyScale.t) (now now' : Q)
        (normal normal' : nat -> Q) :
  now <= now' ->
  exists (fuel0 : nat) (r r' : list reading),
    (forall fuel, (fuel0 <= fuel)%nat ->
       PhonyScale.read fuel self now normal = Some r /\
       PhonyScale.read fuel self now' normal' = Some r') /\
    map fst r = firstn (List.length r) (map fst r') /\
    Forall (fun x => PhonyScale.last self <= fst x /\ fst x < now) r.
Proof.
  intros Hle.
  assert (0 < PhonyScale.SAMPLE_PERIOD) as Hinc by reflexivity.
  destruct (@frange_count (PhonyScale.last self) now _ Hinc) as (n & Hlt & Hge).
  destruct (@frange_count (PhonyScale.last self) now' _ Hinc) as (n' & Hlt' & Hge').
  assert (n <= n')%nat as Hnn.
  { destruct (Nat.le_gt_cases n n') as [|Hgt]; trivial.
    specialize (Hlt n' Hgt). lra. }
  exists (S n'),
    (PhonyScale.read_loop normal 0
       (arith_seq (PhonyScale.last self) PhonyScale.SAMPLE_PERIOD n)),
    (PhonyScale.read_loop normal' 0
       (arith_seq (PhonyScale.last self) PhonyScale.SAMPLE_PERIOD n')).
  split; [|split].
  - intros fuel Hf. unfold PhonyScale.read.
    rewrite (@frange_arith_seq _ now _ n fuel), (@frange_arith_seq _ now' _ n' fuel);
      trivial; try lia. split; reflexivity.
  - rewrite <- (length_map fst (PhonyScale.read_loop normal 0 _)).
    rewrite !read_loop_times, arith_seq_length.
    symmetry. apply arith_seq_firstn, Hnn.
  - apply Forall_forall. intros x Hx.
    assert (In (fst x) (arith_seq (PhonyScale.last self) PhonyScale.SAMPLE_PERIOD n)) as Hin.
    { rewrite <- (read_loop_times normal 0). apply in_map, Hx. }
    destruct (@arith_seq_In _ _ _ _ Hin) as (j & Hj & Ej).
    split.
    + rewrite Ej. unfold frange_point.
      assert (0 <= inject_Z (Z.of_nat j)) by (change 0 with (inject_Z 0); rewrite <- Zle_Qle; lia).
      pose proof Hinc as Hp. nra.
    + rewrite Ej. apply Hlt, Hj.
Qed.

Lemma X16_phony_read_restarts_witness :
  exists (fuel0 : nat) (r r' : list reading),
    (forall fuel, (fuel0 <= fuel)%nat ->
       PhonyScale.read fuel (PhonyScale.MkPhonyScale 0 9600) (1 # 10) (fun _ => 0) = Some r /\
       PhonyScale.read fuel (PhonyScale.MkPhonyScale 0 9600) (2 # 10) (fun _ => 1) = Some r') /\
    map fst r = firstn (List.length r) (map fst r') /\
    Forall (fun x => PhonyScale.last (PhonyScale.MkPhonyScale 0 9600) <= fst x /\
                     fst x < 1 # 10) r.
Proof.
  apply (@X16_phony_read_restarts (PhonyScale.MkPhonyScale 0 9600) (1 # 10) (2 # 10)
           (fun _ => 0) (fun _ => 1)).
  unfold Qle. simpl. lia.
Defined.

(** ** Reading from the selected scale *)

Section ReadFromScale.

Variables (gen : PhonyScale.t) (fuel : nat) (now : Q) (normal : nat -> Q).

Lemma addReadings_scale (self self' : LoadCellControl) (rs : list reading) :
  addReadings self rs = Some self' ->
  scale self' = scale self /\ scales self' = scales self /\
  sampleRate self' = sampleRate self /\ calibration self' = calibration self.
Proof.
  unfold addReadings.
  destruct (Py.len rs <? 1)%Z; [intros [= <-]; repeat split|].
  destruct (Py.truediv 1.0 (sampleRate self)) as [si|]; [|discriminate]. cbn [bind].
  destruct (_downSampleReadings rs si) as [ds|]; [|discriminate]. cbn [bind].
  destruct (hd_error ds) as [[[t v] n]|]; [|discriminate]. cbn [bind].
  destruct (last_entry (data self)) as [[lt lv]|].
  - destruct (Py.ltb (Qabs (t - lt)) si).
    + destruct (Py.truediv _ _); [|discriminate]. cbn [bind].
      intros [= <-]. repeat split.
    + destruct (last_triple ds); [|discriminate]. cbn [bind].
      intros [= <-]. repeat split.
  - destruct (last_triple ds); [|discriminate]. cbn [bind].
    intros [= <-]. repeat split.
Qed.

Lemma store_set_same (h : store) (r : nat) (s : Scale) :
  nth_error h r = Some s -> store_set h r s = h.
Proof.
  revert r. induction h as [|x h' IH]; intros [|r]; simpl; try discriminate.
  - intros [= ->]. reflexivity.
  - intros H. rewrite (IH r H). reflexivity.
Qed.

Lemma store_set_twice (h : store) (r : nat) (s s' : Scale) :
  store_set (store_set h r s) r s' = store_set h r s'.
Proof.
  revert r. induction h as [|x h' IH]; intros [|r]; simpl; trivial.
  rewrite IH. reflexivity.
Qed.

Lemma drained_drained (s : Scale) : drained (drained s) = drained s.
Proof. destruct s; reflexivity. Qed.

Lemma drained_items (s : Scale) : ReadingsQ.items (readingsQ (drained s)) = [].
Proof. destruct s; reflexivity. Qed.

Lemma readFromScale_drained (h : store) (self : LoadCellControl) (r : nat) (s : Scale) :
  scale self = ScaleAt r -> nth_error h r = Some (drained s) ->
  readFromScale h gen fuel now normal self = Some (h, self).
Proof.
  intros Hs Hn. unfold readFromScale. rewrite Hs, Hn. cbn [bind].
  rewrite Scale_read_spec, drained_items, drained_drained, addReadings_nil.
  cbn [bind]. rewrite store_set_same by exact Hn. reflexivity.
Qed.

End ReadFromScale.

(** X17. With a scale of the list selected and a sample rate other than
    zero, [readFromScale] raises nothing: it ingests exactly the readings
    pending in the queue of that scale, in their order, and leaves that queue
    empty and every other scale as it was; a second call right after it
    changes nothing. *)
Theorem X17_readFromScale_drains_and_ingests
        (h : store) (gen : PhonyScale.t) (fuel : nat) (now : Q) (normal : nat -> Q)
        (self : LoadCellControl) (r : nat) (s : Scale) :
  scale self = ScaleAt r -> nth_error h r = Some s ->
  bounded self -> ~ sampleRate self == 0 ->
  exists h' self',
    readFromScale h gen fuel now normal self = Some (h', self') /\
    addReadings self (ReadingsQ.items (readingsQ s)) = Some self' /\
    nth_error h' r = Some (drained s) /\
    (forall r', r' <> r -> nth_error h' r' = nth_error h r') /\
    readFromScale h' gen fuel now normal self' = Some (h', self').
Proof.
  intros Hs Hn Hb Hr.
  assert (exists self', addReadings self (ReadingsQ.items (readingsQ s)) = Some self')
    as (self' & Ha).
  { destruct (ReadingsQ.items (readingsQ s)) as [|x l] eqn:E.
    - exists self. apply addReadings_nil.
    - assert (x :: l <> []) as Hne by discriminate.
      destruct (@addReadings_bounded self (x :: l) Hne Hr Hb) as (self' & Ha & _).
      exists self'. exact Ha. }
  exists (store_set h r (drained s)), self'.
  assert (nth_error (store_set h r (drained s)) r = Some (drained s)) as Hn'
    by (apply store_set_nth with s; exact Hn).
  split; [|split; [exact Ha|split; [exact Hn'|split]]].
  - unfold readFromScale. rewrite Hs, Hn. cbn [bind].
    rewrite Scale_read_spec, Ha. reflexivity.
  - intros r' Hne. apply store_set_other. exact Hne.
  - apply readFromScale_drained with r s; [|exact Hn'].
    destruct (addReadings_scale _ _ Ha) as (-> & _). exact Hs.
Qed.

Lemma X17_readFromScale_drains_and_ingests_witness :
  let s := BluetoothScale "00:11" "HC-05"
             (ReadingsQ.MkQueue 10000 [(1, 5); (2, 7)]%Q) in
  let self := set_scale (init 10 9600) (ScaleAt 0) in
  exists h' self',
    readFromScale [s] (PhonyScale.MkPhonyScale 0 9600) 0 0 (fun _ => 0) self =
      Some (h', self') /\
    addReadings self (ReadingsQ.items (readingsQ s)) = Some self' /\
    nth_error h' 0 = Some (drained s) /\
    (forall r', r' <> 0%nat -> nth_error h' r' = nth_error [s] r') /\
    readFromScale h' (PhonyScale.MkPhonyScale 0 9600) 0 0 (fun _ => 0) self' =
      Some (h', self').
Proof.
  apply (@X17_readFromScale_drains_and_ingests
           [BluetoothScale "00:11" "HC-05" (ReadingsQ.MkQueue 10000 [(1, 5); (2, 7)]%Q)]
           (PhonyScale.MkPhonyScale 0 9600) 0 0 (fun _ => 0)
           (set_scale (init 10 9600) (ScaleAt 0)) 0
           (BluetoothScale "00:11" "HC-05" (ReadingsQ.MkQueue 10000 [(1, 5); (2, 7)]%Q))).
  - reflexivity.
  - reflexivity.
  - unfold bounded, Py.len. simpl. repeat split; lia.
  - discriminate.
Defined.

(** X18. After [useScale] has selected a scale of the list, the readings
    that were pending in its queue are never ingested: [useScale] leaves the
    series buffer as it is, and a [readFromScale] right after it changes
    nothing. *)
Theorem X18_useScale_discards_pending
        (h : store) (gen : PhonyScale.t) (fuel : nat) (now : Q) (normal : nat -> Q)
        (self : LoadCellControl) (name : string) (r : nat) :
  name <> "Select..."%string -> name <> "Random Generator"%string ->
  find_scale h (scales self) name = Some r ->
  let '(h', self') := useScale h self name in
  scale self' = ScaleAt r /\ data self' = data self /\
  numSamplesLastReading self' = numSamplesLastReading self /\
  readFromScale h' gen fuel now normal self' = Some (h', self').
Proof.
  intros H1 H2 Hf. unfold useScale.
  destruct (String.eqb_spec name "Select..."); [congruence|].
  destruct (String.eqb_spec name "Random Generator"); [congruence|].
  rewrite Hf. destruct (find_scale_some _ _ _ Hf) as (_ & s & Hn & _).
  rewrite Hn, Scale_read_spec.
  split; [reflexivity|]. split; [reflexivity|]. split; [reflexivity|].
  apply readFromScale_drained with r s; [reflexivity|].
  apply store_set_nth with s. exact Hn.
Qed.

Lemma X18_useScale_discards_pending_witness :
  let s := BluetoothScale "00:11" "HC-05"
             (ReadingsQ.MkQueue 10000 [(1, 5); (2, 7)]%Q) in
  let self := MkLoadCellControl 100000 [] 0 [0%nat] NoScale
                (Calibration.MkCalibration [] None) 10 9600 in
  let '(h', self') := useScale [s] self "Bluetooth Scale HC-05" in
  scale self' = ScaleAt 0 /\ data self' = data self /\
  numSamplesLastReading self' = numSamplesLastReading self /\
  readFromScale h' (PhonyScale.MkPhonyScale 0 9600) 0 0 (fun _ => 0) self' =
    Some (h', self').
Proof.
  apply (@X18_useScale_discards_pending
           [BluetoothScale "00:11" "HC-05" (ReadingsQ.MkQueue 10000 [(1, 5); (2, 7)]%Q)]
           (PhonyScale.MkPhonyScale 0 9600) 0 0 (fun _ => 0)
           (MkLoadCellControl 100000 [] 0 [0%nat] NoScale
              (Calibration.MkCalibration [] None) 10 9600)
           "Bluetooth Scale HC-05" 0).
  - discriminate.
  - discriminate.
  - reflexivity.
Defined.

(** ** Batches that go back in time *)

Section OutOfOrder.

Local Open Scope Q_scope.

Lemma deque_extend_app (maxlen : Z) (l d : list (Q * Q)) :
  (Py.len d + Py.len l <= maxlen)%Z -> deque_extend maxlen d l = d ++ l.
Proof.
  revert d. induction l as [|x l IH]; intros d Hlen.
  - simpl. rewrite app_nil_r. reflexivity.
  - unfold deque_extend in *. cbn [fold_left].
    assert (deque_append maxlen d x = d ++ [x]) as ->.
    { unfold deque_append. unfold Py.len in *. cbn [List.length] in Hlen.
      destruct (Z.leb_spec maxlen 0); [lia|].
      destruct (Z.ltb_spec (Z.of_nat (List.length d)) maxlen); [reflexivity | lia]. }
    rewrite IH.
    + rewrite <- app_assoc. reflexivity.
    + unfold Py.len in *. rewrite length_app. cbn [List.length] in *. lia.
Qed.

Lemma dict_add_length (d : dict) (k v : Q) :
  (List.length (dict_add d k v) <= S (List.length d))%nat.
Proof.
  induction d as [|[k0 vs] d IH]; simpl; [lia|].
  destruct (Qeq_bool k0 k); simpl; lia.
Qed.

Lemma groups_length (base : Q) (rs : list reading) (d : dict) :
  (List.length (groups base rs d) <= List.length d + List.length rs)%nat.
Proof.
  revert d. induction rs as [|r rs IH]; intros d.
  - simpl. lia.
  - change (groups base (r :: rs) d)
      with (groups base rs (dict_add d (rounded base r) (snd r))).
    pose proof (IH (dict_add d (rounded base r) (snd r))) as H.
    pose proof (dict_add_length d (rounded base r) (snd r)).
    cbn [List.length]. lia.
Qed.

Lemma downsample_length (base : Q) (rs : list reading) :
  (Py.len (downsample base rs) <= Py.len rs)%Z.
Proof.
  unfold downsample, triples, Py.len.
  rewrite sort_by_key_length, length_map.
  pose proof (groups_length base rs []) as H. simpl in H. lia.
Qed.

Lemma first_key_least (base : Q) (rs : list reading) (x : triple)
      (rest : list triple) (r : reading) :
  downsample base rs = x :: rest -> In r rs -> key x <= rounded base r.
Proof.
  intros E Hr.
  destruct (downsample_covers base rs r Hr) as (y & Hy & <-).
  pose proof (downsample_sorted base rs) as Hs. rewrite E in Hs, Hy.
  inversion Hs as [|? ? _ Hall]; subst.
  destruct Hy as [<-|Hy]; [lra|].
  rewrite Forall_forall in Hall. specialize (Hall y Hy).
  unfold key_lt in Hall. lra.
Qed.

Lemma not_ascending_after (pre post : list Q) (a b : Q) :
  b <= a -> ~ ascending (pre ++ a :: b :: post).
Proof.
  intros Hle Hasc. apply ascending_suffix in Hasc.
  inversion Hasc as [|? ? _ Hall]; subst.
  inversion Hall; subst. lra.
Qed.

Lemma addReadings_back_in_time (self : LoadCellControl) (rs : list reading)
      (r : reading) (lastTime lastVal : Q) :
  0 < sampleRate self -> bounded self ->
  last_entry (data self) = Some (lastTime, lastVal) ->
  In r rs -> rounded (sample_interval self) r + sample_interval self <= lastTime ->
  (Py.len (data self) + Py.len rs <= 100000)%Z ->
  exists self',
    addReadings self rs = Some self' /\
    data self' =
      data self ++ map time_and_val (downsample (sample_interval self) rs) /\
    ~ ascending (times (data self')).
Proof.
  intros Hrate Hb Hl Hr Hback Hlen.
  assert (rs <> []) as Hne by (intros ->; destruct Hr).
  assert (~ sampleRate self == 0) as Hnz by lra.
  destruct Hb as (Hlength & Hn & _).
  pose proof (sample_interval_positive self Hrate) as Hbase.
  destruct (@addReadings_cases self rs Hne Hnz Hn)
    as (t & v & n & rest & Eds & Hcases).
  pose proof (@first_key_least _ _ _ _ _ Eds Hr) as Hkey.
  unfold key in Hkey. cbn [fst] in Hkey.
  assert (sample_interval self <= Qabs (t - lastTime)) as Habs.
  { assert (t - lastTime <= 0) as Hneg by lra.
    rewrite (Qabs_neg _ Hneg). lra. }
  destruct Hcases as [(Hempty & _)
                     |[(lt & lv & Hl' & Hlt & _)|(lt & lv & Hl' & _ & final & Hf & Ha)]].
  - rewrite Hempty in Hl. discriminate.
  - rewrite Hl in Hl'. injection Hl' as <- <-. lra.
  - rewrite Hl in Hl'. injection Hl' as <- <-.
    eexists. split; [exact Ha|].
    rewrite data_set_data.
    pose proof (downsample_length (sample_interval self) rs) as Hdl.
    rewrite Eds in Hdl.
    rewrite deque_extend_app by (rewrite len_map, Hlength; lia).
    unfold triple in *. rewrite Eds.
    split; [reflexivity|].
    rewrite (last_entry_some _ Hl) at 1.
    unfold times. rewrite !map_app. cbn [map fst time_and_val].
    rewrite <- app_assoc. cbn [app].
    apply not_ascending_after. lra.
Qed.

End OutOfOrder.

(** X19. A batch that goes back in time is not sorted in: when some reading
    of the batch has a rounded time at least one sample interval before the
    last time of the buffer (and the buffer has room), [addReadings] appends
    every bucket of the batch after the entries held, and the times of the
    buffer are no longer ascending. *)
Theorem X19_addReadings_back_in_time (self : LoadCellControl) (rs : list reading)
        (r : reading) (lastTime lastVal : Q) :
  0 < sampleRate self -> bounded self ->
  last_entry (data self) = Some (lastTime, lastVal) ->
  In r rs -> rounded (sample_interval self) r + sample_interval self <= lastTime ->
  (Py.len (data self) + Py.len rs <= 100000)%Z ->
  exists self',
    addReadings self rs = Some self' /\
    data self' =
      data self ++ map time_and_val (downsample (sample_interval self) rs) /\
    ~ ascending (times (data self')).
Proof. apply addReadings_back_in_time. Qed.

Lemma X19_addReadings_back_in_time_witness :
  let self := MkLoadCellControl 100000 [(0, 1); (1, 2); (2, 3)]%Q 1 [] NoScale
                (Calibration.MkCalibration [] None) 1 9600 in
  exists self',
    addReadings self [(0, 5); (3, 6)]%Q = Some self' /\
    data self' =
      data self ++ map time_and_val (downsample (sample_interval self) [(0, 5); (3, 6)]%Q) /\
    ~ ascending (times (data self')).
Proof.
  apply (@X19_addReadings_back_in_time
           (MkLoadCellControl 100000 [(0, 1); (1, 2); (2, 3)]%Q 1 [] NoScale
              (Calibration.MkCalibration [] None) 1 9600)
           [(0, 5); (3, 6)]%Q (0, 5)%Q 2 3).
  - reflexivity.
  - unfold bounded, Py.len. simpl. repeat split; try lia. discriminate.
  - reflexivity.
  - left. reflexivity.
  - vm_compute. discriminate.
  - unfold Py.len. simpl. lia.
Defined.

(** ** Reading from the random generator *)

Lemma phony_read_first (gen : PhonyScale.t) (now : Q) (normal : nat -> Q) :
  PhonyScale.last gen < now ->
  exists (fuel0 : nat) (v : Q) (rest : list reading),
    forall fuel, (fuel0 <= fuel)%nat ->
      PhonyScale.read fuel gen now normal = Some ((PhonyScale.last gen, v) :: rest).
Proof.
  intros Hlt.
  assert (0 < PhonyScale.SAMPLE_PERIOD) as Hinc by reflexivity.
  destruct (@frange_count (PhonyScale.last gen) now _ Hinc) as (n & Hn & Hge).
  destruct n as [|m].
  { exfalso.
    assert (frange_point (PhonyScale.last gen) PhonyScale.SAMPLE_PERIOD 0 ==
            PhonyScale.last gen) as E by (unfold frange_point; simpl; ring).
    rewrite E in Hge. lra. }
  exists (S (S m)). eexists. eexists. intros fuel Hf. unfold PhonyScale.read.
  rewrite (@frange_arith_seq _ now _ (S m) fuel Hinc); [|lia|exact Hn|exact Hge].
  cbn [bind arith_seq PhonyScale.read_loop]. reflexivity.
Qed.

(** X20. With the random generator selected, a read goes back in time: the
    generator yields its timestamps from its start at every read, so once
    the buffer reaches at least one sample interval past the rounded start,
    [readFromScale] leaves the times of the buffer no longer ascending (as
    long as the buffer has room for the buckets of the read). *)
Theorem X20_random_generator_goes_back
        (h : store) (gen : PhonyScale.t) (now : Q) (normal : nat -> Q)
        (self : LoadCellControl) (lastTime lastVal : Q) :
  scale self = RandomGenerator ->
  0 < sampleRate self -> bounded self ->
  last_entry (data self) = Some (lastTime, lastVal) ->
  PhonyScale.last gen < now ->
  rounded (sample_interval self) (PhonyScale.last gen, 0) + sample_interval self
    <= lastTime ->
  exists (fuel0 : nat) (readings : list reading),
    forall fuel, (fuel0 <= fuel)%nat ->
      PhonyScale.read fuel gen now normal = Some readings /\
      ((Py.len (data self) + Py.len readings <= 100000)%Z ->
       exists self',
         readFromScale h gen fuel now normal self = Some (h, self') /\
         ~ ascending (times (data self'))).
Proof.
  intros Hs Hrate Hb Hl Hlt Hback.
  destruct (@phony_read_first gen now normal Hlt) as (fuel0 & v & rest & Hread).
  exists fuel0, ((PhonyScale.last gen, v) :: rest). intros fuel Hf.
  split; [apply Hread, Hf|]. intros Hlen.
  destruct (@addReadings_back_in_time self ((PhonyScale.last gen, v) :: rest)
              (PhonyScale.last gen, v) lastTime lastVal Hrate Hb Hl)
    as (self' & Ha & _ & Hna).
  - left. reflexivity.
  - exact Hback.
  - exact Hlen.
  - exists self'. split; [|exact Hna].
    unfold readFromScale. rewrite Hs, (Hread fuel Hf). cbn [bind].
    rewrite Ha. reflexivity.
Qed.

Lemma X20_random_generator_goes_back_witness :
  let self := MkLoadCellControl 100000 [(0, 1); (1, 2)]%Q 1 [] RandomGenerator
                (Calibration.MkCalibration [] None) 1 9600 in
  let gen := PhonyScale.MkPhonyScale 0 9600 in
  exists (fuel0 : nat) (readings : list reading),
    forall fuel, (fuel0 <= fuel)%nat ->
      PhonyScale.read fuel gen (1 # 40) (fun _ => 0) = Some readings /\
      ((Py.len (data self) + Py.len readings <= 100000)%Z ->
       exists self',
         readFromScale [] gen fuel (1 # 40) (fun _ => 0) self = Some ([], self') /\
         ~ ascending (times (data self'))).
Proof.
  apply (@X20_random_generator_goes_back []
           (PhonyScale.MkPhonyScale 0 9600) (1 # 40) (fun _ => 0)
           (MkLoadCellControl 100000 [(0, 1); (1, 2)]%Q 1 [] RandomGenerator
              (Calibration.MkCalibration [] None) 1 9600) 1 2).
  - reflexivity.
  - reflexivity.
  - unfold bounded, Py.len. simpl. repeat split; try lia. discriminate.
  - reflexivity.
  - reflexivity.
  - vm_compute. discriminate.
Defined.

(** ** [SerialReader]: reading a line *)

Section SerialReaderFacts.

Import SerialReader.

Lemma last_two_one (c : Byte.byte) :
  bytes_eqb (last_two ([] ++ [c])) [Byte.x0d; Byte.x0a] = false.
Proof. unfold last_two. simpl. rewrite andb_false_r. reflexivity. Qed.

Lemma readline_none (ser : port) :
  _readline ser = (None, snd (ser_read ser)).
Proof.
  unfold _readline, MAX_PACKET_SIZE. cbn [for_range readline_body].
  destruct ser as [|[| |c] ser']; cbn [ser_read snd]; trivial.
  rewrite last_two_one. reflexivity.
Qed.

End SerialReaderFacts.

(** X21. [SerialReader._readline] never returns a line: whatever arrives on
    the port, a well-formed line included, it returns [None] after at most
    one call of [read(1)], since the [else] of the test for the end of the
    line returns in the first round of the loop. *)
Theorem X21_serial_readline_returns_none (ser : SerialReader.port) :
  exists ser',
    SerialReader._readline ser = (None, ser') /\
    (ser' = ser \/ exists x, ser = x :: ser').
Proof.
  rewrite readline_none. exists (snd (SerialReader.ser_read ser)).
  split; [reflexivity|]. destruct ser as [|x ser']; simpl.
  - left. reflexivity.
  - right. exists x. reflexivity.
Qed.

(** X22. [SerialReader.run] never puts a reading into the queue: from every
    state its loop ends in the first round (on the poison pill, or because
    [_readline] returned nothing), after taking at most one command, and the
    queue of readings is as it was. *)
Theorem X22_serial_run_never_pushes
        (int : string -> option Z) (time : nat -> Q)
        (self : SerialReader.t) (fuel : nat) :
  exists self',
    SerialReader.run_loop int time (S fuel) self = Some self' /\
    SerialReader.readingsQ self' = SerialReader.readingsQ self /\
    SerialReader.is_open self' = false /\
    (SerialReader.commandQ self' = SerialReader.commandQ self \/
     exists c, SerialReader.commandQ self = c :: SerialReader.commandQ self').
Proof.
  cbn [SerialReader.run_loop].
  destruct (SerialReader.is_open self) eqn:Eo.
  - unfold SerialReader.run_body.
    destruct (SerialReader.commandQ self) as [|[|val] cmds] eqn:Ec.
    + rewrite readline_none. cbn [SerialReader.truthy bind].
      eexists. split; [reflexivity|]. cbn.
      split; [reflexivity|]. split; [reflexivity|]. left. exact Ec.
    + cbn [bind]. eexists. split; [reflexivity|]. cbn.
      split; [reflexivity|]. split; [reflexivity|]. right. eexists. reflexivity.
    + cbn [SerialReader.ser]. rewrite readline_none. cbn [SerialReader.truthy bind].
      eexists. split; [reflexivity|]. cbn.
      split; [reflexivity|]. split; [reflexivity|]. right. eexists. reflexivity.
  - eexists. split; [reflexivity|]. cbn.
    split; [reflexivity|]. split; [reflexivity|]. left. reflexivity.
Qed.

(** ** The list of scales *)

Section ScaleList.

Lemma scale_in_iff (s : nat) (l : list nat) : scale_in s l = true <-> In s l.
Proof.
  unfold scale_in. rewrite existsb_exists. split.
  - intros (x & Hx & E). apply Nat.eqb_eq in E. subst. exact Hx.
  - intros H. exists s. split; [exact H | apply Nat.eqb_refl].
Qed.

Lemma scale_in_false (s : nat) (l : list nat) : scale_in s l = false <-> ~ In s l.
Proof.
  rewrite <- scale_in_iff. destruct (scale_in s l); split; congruence.
Qed.

Lemma remove_dead_none_dead (rounds i : nat) (self : LoadCellControl)
      (available : list nat) :
  incl (scales self) available ->
  remove_dead rounds i self available = Some self.
Proof.
  intros Hincl. revert i. induction rounds as [|rounds IH]; intros i; simpl; trivial.
  destruct (nth_error (scales self) i) as [s|] eqn:E; trivial.
  assert (scale_in s available = true) as ->.
  { apply scale_in_iff, Hincl. eapply nth_error_In. exact E. }
  simpl. apply IH.
Qed.

Lemma add_new_spec (h : store) (available : list nat) (self : LoadCellControl) :
  NoDup (scales self) ->
  exists added,
    scales (fst (add_new h self available)) = scales self ++ added /\
    NoDup (scales self ++ added) /\
    (forall s, In s added <-> In s available /\ ~ In s (scales self)) /\
    data (fst (add_new h self available)) = data self /\
    scale (fst (add_new h self available)) = scale self /\
    baudrate (fst (add_new h self available)) = baudrate self.
Proof.
  revert self. induction available as [|s rest IH]; intros self Hnd.
  - exists []. simpl. rewrite app_nil_r.
    split; [reflexivity|]. split; [exact Hnd|]. split; [|repeat split].
    intros s. simpl. tauto.
  - cbn [add_new]. destruct (scale_in s (scales self)) eqn:E; cbn [negb].
    + destruct (IH self Hnd) as (added & Hs & Hn & Hin & Hd & Hsc & Hb).
      exists added. split; [exact Hs|]. split; [exact Hn|].
      split; [|repeat split; assumption].
      intros x. rewrite Hin. apply scale_in_iff in E. split.
      * intros [Hr Hnx]. split; [right; exact Hr | exact Hnx].
      * intros [[<-|Hr] Hnx]; [contradiction | split; assumption].
    + cbn [addScale].
      set (self1 := set_scales self (scales self ++ [s])).
      destruct (add_new h self1 rest) as [self2 cs] eqn:Ea.
      assert (NoDup (scales self1)) as Hnd1.
      { unfold self1. cbn [scales set_scales]. apply scale_in_false in E.
        apply NoDup_app; [exact Hnd | repeat constructor; intros [] |].
        intros x Hx [<-|[]]. contradiction. }
      destruct (IH self1 Hnd1) as (added & Hs & Hn & Hin & Hd & Hsc & Hb).
      rewrite Ea in Hs, Hd, Hsc, Hb. cbn [fst] in *.
      unfold self1 in Hs, Hn, Hin, Hd, Hsc, Hb. cbn [scales set_scales] in *.
      exists (s :: added). rewrite <- app_assoc in Hs, Hn. cbn [app] in Hs, Hn.
      apply scale_in_false in E.
      split; [exact Hs|]. split; [exact Hn|]. split; [|repeat split; trivial].
      intros x. split.
      * intros [<-|Hx]; [split; [left; reflexivity | exact E]|].
        apply Hin in Hx. destruct Hx as [Hr Hnx]. split; [right; exact Hr|].
        intros Hx. apply Hnx. apply in_or_app. left. exact Hx.
      * intros [[<-|Hr] Hnx]; [left; reflexivity|].
        destruct (Nat.eq_dec s x) as [->|Hne]; [left; reflexivity|].
        right. apply Hin. split; trivial. intros Hx. apply in_app_or in Hx.
        destruct Hx as [Hx|[Hx|[]]]; [contradiction | congruence].
Qed.

Lemma add_found_spec (found : list (string * string)) (h : store)
      (available : list nat) :
  Forall (fun s => (s < List.length h)%nat) available ->
  exists new_scales new_refs,
    add_found h available found = (h ++ new_scales, available ++ new_refs) /\
    Forall (fun s => (s < List.length (h ++ new_scales))%nat)
           (available ++ new_refs).
Proof.
  revert h available. induction found as [|[addr name] rest IH]; intros h available Hv.
  - exists [], []. simpl. rewrite !app_nil_r. split; trivial.
  - cbn [add_found new_BluetoothScale].
    destruct (IH (h ++ [BluetoothScale addr name
                          (ReadingsQ.create MAX_BUFFERED_READINGS)])
                 (available ++ [List.length h])) as (ns & nr & E & Hv').
    + apply Forall_app. split.
      * eapply Forall_impl; [|exact Hv]. intros s Hs. simpl in Hs.
        rewrite length_app. simpl. lia.
      * repeat constructor. rewrite length_app. simpl. lia.
    + eexists (_ :: ns), (_ :: nr). rewrite E, <- !app_assoc. split; [reflexivity|].
      rewrite <- !app_assoc in Hv'. exact Hv'.
Qed.

Lemma update_keeps_inv (is_open : nat -> bool) (found : list (string * string))
      (h : store) (g : Searchers.t) (self : LoadCellControl) :
  scales_inv h g self ->
  exists h' g' self' cs added,
    updateAvailableScales is_open found h g self = Some (h', g', self', cs) /\
    scales self' = scales self ++ added /\
    (forall s, In s added <->
               In s (Searchers.serial_available g') /\ ~ In s (scales self)) /\
    Searchers.serial_available g' =
      Searchers.serial_available g ++ Searchers.bluetooth_available g' /\
    scales_inv h' g' self' /\
    data self' = data self /\ scale self' = scale self.
Proof.
  intros (Hincl & Hnd & Hvs & Hvb).
  unfold updateAvailableScales, scale_updateAvailableScales,
    BluetoothScaleSearcher_update.
  assert (Forall (fun s => (s < List.length h)%nat)
                 (filter is_open (Searchers.bluetooth_available g))) as Hvf.
  { apply Forall_forall. intros s Hs. apply filter_In in Hs.
    rewrite Forall_forall in Hvb. apply Hvb, Hs. }
  destruct (@add_found_spec found h _ Hvf) as (ns & nr & -> & Hv').
  cbn [availableScales Searchers.serial_available Searchers.bluetooth_available].
  set (bt := filter is_open (Searchers.bluetooth_available g) ++ nr) in *.
  set (available := Searchers.serial_available g ++ bt).
  assert (incl (scales self) available) as Hincl'.
  { intros s Hs. apply in_or_app. left. apply Hincl, Hs. }
  rewrite remove_dead_none_dead by exact Hincl'. cbn [bind].
  destruct (@add_new_spec (h ++ ns) available self Hnd)
    as (added & Hs & Hn & Hin & Hd & Hsc & _).
  destruct (add_new (h ++ ns) self available) as [self2 cs]. cbn [fst] in *.
  exists (h ++ ns), (Searchers.MkSearchers available bt), self2, cs, added.
  split; [reflexivity|]. split; [exact Hs|]. split; [exact Hin|].
  split; [reflexivity|]. split; [|split; assumption].
  unfold scales_inv. cbn [Searchers.serial_available Searchers.bluetooth_available].
  rewrite Hs. split; [|split; [exact Hn|split; [|exact Hv']]].
  - intros s Hx. apply in_app_or in Hx. destruct Hx as [Hx|Hx].
    + apply Hincl', Hx.
    + apply Hin in Hx. tauto.
  - apply Forall_app. split; [|exact Hv'].
    eapply Forall_impl; [|exact Hvs]. intros s Hlt. simpl in Hlt.
    rewrite length_app. lia.
Qed.

Lemma ticks_keep_inv (l : list tick) (h : store) (g : Searchers.t)
      (self : LoadCellControl) :
  scales_inv h g self ->
  exists h' g' self',
    ticks h g self l = Some (h', g', self') /\ scales_inv h' g' self' /\
    exists added, scales self' = scales self ++ added.
Proof.
  revert h g self. induction l as [|[is_open found] l IH]; intros h g self Hinv.
  - exists h, g, self. split; [reflexivity|]. split; [exact Hinv|].
    exists []. rewrite app_nil_r. reflexivity.
  - cbn [ticks].
    destruct (@update_keeps_inv is_open found _ _ _ Hinv)
      as (h1 & g1 & self1 & cs & added & -> & Hs & _ & _ & Hinv1 & _).
    cbn [bind].
    destruct (IH h1 g1 self1 Hinv1) as (h2 & g2 & self2 & E & Hinv2 & added' & Hs').
    exists h2, g2, self2. split; [exact E|]. split; [exact Hinv2|].
    exists (added ++ added'). rewrite Hs', Hs, app_assoc. reflexivity.
Qed.

Lemma initial_scales_inv (rate : Q) (baud : Z) :
  scales_inv [] (Searchers.MkSearchers [] []) (init rate baud).
Proof.
  unfold scales_inv. simpl. repeat split; try constructor. intros s [].
Qed.

End ScaleList.

(** X23. A scale once listed is never taken off the list: from the start of
    the application, after any number of calls of [updateAvailableScales],
    one more call raises nothing and only appends scales to [self.scales],
    whatever [isOpen()] says of the scales listed, since [availableScales]
    adds the scales of the bluetooth searcher to the list of the serial
    searcher itself, which nothing prunes. *)
Theorem X23_listed_scales_never_removed
        (rate : Q) (baud : Z) (before : list tick)
        (is_open : nat -> bool) (found : list (string * string)) :
  exists h g self h' g' self' cs added,
    ticks [] (Searchers.MkSearchers [] []) (init rate baud) before =
      Some (h, g, self) /\
    updateAvailableScales is_open found h g self = Some (h', g', self', cs) /\
    scales self' = scales self ++ added /\
    data self' = data self /\ scale self' = scale self.
Proof.
  destruct (@ticks_keep_inv before _ _ _ (initial_scales_inv rate baud))
    as (h & g & self & E & Hinv & _).
  destruct (@update_keeps_inv is_open found _ _ _ Hinv)
    as (h' & g' & self' & cs & added & E' & Hs & _ & _ & _ & Hd & Hsc).
  exists h, g, self, h', g', self', cs, added.
  repeat split; assumption.
Qed.

(** X24. After any number of calls of [updateAvailableScales] from the
    start of the application, no scale is listed twice in [self.scales] and
    every scale listed is an object of the store. *)
Theorem X24_scale_list_without_duplicates
        (rate : Q) (baud : Z) (l : list tick) :
  exists h g self,
    ticks [] (Searchers.MkSearchers [] []) (init rate baud) l = Some (h, g, self) /\
    NoDup (scales self) /\
    Forall (fun s => exists x, nth_error h s = Some x) (scales self).
Proof.
  destruct (@ticks_keep_inv l _ _ _ (initial_scales_inv rate baud))
    as (h & g & self & E & (Hincl & Hnd & Hvs & _) & _).
  exists h, g, self. split; [exact E|]. split; [exact Hnd|].
  apply Forall_forall. intros s Hs. rewrite Forall_forall in Hvs.
  specialize (Hvs s (Hincl s Hs)).
  destruct (nth_error h s) as [x|] eqn:En; [eauto|].
  apply nth_error_None in En. lia.
Qed.

(** ** Removing while iterating *)

Section RemoveDead.

Variable available : list nat.

Lemma list_remove_scale_nth (l : list nat) (i s : nat) :
  NoDup l -> nth_error l i = Some s ->
  list_remove_scale l s = Some (firstn i l ++ skipn (S i) l).
Proof.
  revert i. induction l as [|x l IH]; intros i Hnd Hn.
  - destruct i; discriminate.
  - inversion Hnd as [|? ? Hx Hnd']; subst. destruct i as [|i]; simpl in Hn.
    + injection Hn as ->. simpl. rewrite Nat.eqb_refl. reflexivity.
    + simpl. destruct (Nat.eqb_spec x s) as [->|Hne].
      * exfalso. apply Hx. eapply nth_error_In. exact Hn.
      * rewrite (IH i Hnd' Hn). reflexivity.
Qed.

Lemma NoDup_remove_nth (l : list nat) (i : nat) :
  NoDup l -> NoDup (firstn i l ++ skipn (S i) l).
Proof.
  revert i. induction l as [|x l IH]; intros i Hnd.
  - destruct i; simpl; constructor.
  - inversion Hnd as [|? ? Hx Hnd']; subst. destruct i as [|i]; simpl; trivial.
    constructor; [|apply IH, Hnd'].
    intros Hin. apply Hx. apply in_app_or in Hin.
    destruct Hin as [Hin|Hin].
    + rewrite <- (firstn_skipn i l). apply in_or_app. left. exact Hin.
    + rewrite <- (firstn_skipn (S i) l). apply in_or_app. right. exact Hin.
Qed.

Lemma incl_remove_nth (l : list nat) (i : nat) :
  incl (firstn i l ++ skipn (S i) l) l.
Proof.
  intros x Hin. apply in_app_or in Hin. destruct Hin as [Hin|Hin].
  - rewrite <- (firstn_skipn i l). apply in_or_app. left. exact Hin.
  - rewrite <- (firstn_skipn (S i) l). apply in_or_app. right. exact Hin.
Qed.

Lemma firstn_remove_nth (l : list nat) (i : nat) :
  firstn i (firstn i l ++ skipn (S i) l) = firstn i l.
Proof.
  revert i. induction l as [|x l IH]; intros i.
  - destruct i; reflexivity.
  - destruct i as [|i]; simpl; trivial. rewrite IH. reflexivity.
Qed.

Lemma firstn_firstn_S (l l' : list nat) (i : nat) :
  firstn (S i) l = firstn (S i) l' -> firstn i l = firstn i l'.
Proof.
  intros H. apply (f_equal (firstn i)) in H. rewrite !firstn_firstn in H.
  replace (Nat.min i (S i)) with i in H by lia. exact H.
Qed.

Lemma remove_dead_prefix (rounds i : nat) (self : LoadCellControl) :
  NoDup (scales self) ->
  exists self',
    remove_dead rounds i self available = Some self' /\
    firstn i (scales self') = firstn i (scales self) /\
    incl (scales self') (scales self).
Proof.
  revert i self. induction rounds as [|rounds IH]; intros i self Hnd.
  - exists self. split; [reflexivity|]. split; [reflexivity | apply incl_refl].
  - cbn [remove_dead].
    destruct (nth_error (scales self) i) as [s|] eqn:En.
    2:{ exists self. split; [reflexivity|]. split; [reflexivity | apply incl_refl]. }
    destruct (scale_in s available); cbn [negb].
    + destruct (IH (S i) self Hnd) as (self' & E & Hf & Hi).
      exists self'. split; [exact E|]. split; [|exact Hi].
      apply firstn_firstn_S, Hf.
    + unfold removeScale. rewrite (@list_remove_scale_nth _ _ _ Hnd En). cbn [bind].
      set (self1 := set_scales self (firstn i (scales self) ++ skipn (S i) (scales self))).
      assert (NoDup (scales self1)) as Hnd1 by (apply NoDup_remove_nth, Hnd).
      destruct (IH (S i) self1 Hnd1) as (self' & E & Hf & Hi).
      exists self'. split; [exact E|]. split.
      * apply firstn_firstn_S in Hf. rewrite Hf. unfold self1.
        cbn [scales set_scales]. apply firstn_remove_nth.
      * intros x Hx. apply Hi in Hx. unfold self1 in Hx.
        cbn [scales set_scales] in Hx. eapply incl_remove_nth. exact Hx.
Qed.

Lemma remove_dead_alive_prefix (k i rounds : nat) (self : LoadCellControl) :
  (forall j, (i <= j < i + k)%nat ->
     exists s, nth_error (scales self) j = Some s /\ scale_in s available = true) ->
  remove_dead (k + rounds) i self available =
  remove_dead rounds (i + k) self available.
Proof.
  revert i. induction k as [|k IH]; intros i Hall.
  - rewrite Nat.add_0_r. reflexivity.
  - cbn [Nat.add remove_dead].
    destruct (Hall i) as (s & -> & ->); [lia|]. cbn [negb].
    rewrite IH.
    + f_equal. lia.
    + intros j Hj. apply Hall. lia.
Qed.

Lemma remove_dead_skips_next (self : LoadCellControl)
      (pre post : list nat) (a b : nat) :
  scales self = pre ++ a :: b :: post ->
  NoDup (scales self) ->
  (forall s, In s pre -> In s available) ->
  ~ In a available ->
  exists self',
    remove_dead (List.length (scales self)) 0 self available = Some self' /\
    In b (scales self') /\ ~ In a (scales self').
Proof.
  intros Hs Hnd Hpre Ha.
  assert (List.length (scales self) =
          (List.length pre + S (S (List.length post)))%nat) as ->.
  { rewrite Hs, length_app. reflexivity. }
  rewrite remove_dead_alive_prefix.
  2:{ intros j Hj. rewrite Hs.
      destruct (nth_error pre j) as [s|] eqn:En.
      - exists s. rewrite nth_error_app1 by lia. split; [exact En|].
        apply scale_in_iff, Hpre. eapply nth_error_In. exact En.
      - apply nth_error_None in En. lia. }
  cbn [Nat.add remove_dead].
  assert (nth_error (scales self) (List.length pre) = Some a) as En.
  { rewrite Hs, nth_error_app2 by lia. rewrite Nat.sub_diag. reflexivity. }
  rewrite En. apply scale_in_false in Ha. rewrite Ha. cbn [negb].
  unfold removeScale. rewrite (@list_remove_scale_nth _ _ _ Hnd En). cbn [bind].
  assert (firstn (List.length pre) (scales self) ++
          skipn (S (List.length pre)) (scales self) = pre ++ b :: post) as E1.
  { rewrite Hs. rewrite firstn_app, Nat.sub_diag, firstn_all. cbn [firstn].
    rewrite app_nil_r.
    change (pre ++ a :: b :: post) with (pre ++ [a] ++ b :: post).
    rewrite app_assoc, skipn_app.
    replace (S (List.length pre)) with (List.length (pre ++ [a]))
      by (rewrite length_app; simpl; lia).
    rewrite skipn_all, Nat.sub_diag. reflexivity. }
  rewrite E1.
  set (self1 := set_scales self (pre ++ b :: post)).
  assert (NoDup (scales self1)) as Hnd1.
  { unfold self1. cbn [scales set_scales]. rewrite <- E1.
    apply NoDup_remove_nth, Hnd. }
  destruct (@remove_dead_prefix (S (List.length post)) (S (List.length pre)) self1 Hnd1)
    as (self' & E & Hf & Hi).
  exists self'. split; [exact E|]. split.
  - assert (In b (firstn (S (List.length pre)) (scales self'))) as Hin.
    { rewrite Hf. unfold self1. cbn [scales set_scales].
      change (pre ++ b :: post) with (pre ++ [b] ++ post).
      rewrite app_assoc.
      replace (S (List.length pre)) with (List.length (pre ++ [b]) + 0)%nat
        by (rewrite length_app; simpl; lia).
      rewrite firstn_app_2. cbn [firstn]. rewrite app_nil_r.
      apply in_or_app. right. left. reflexivity. }
    rewrite <- (firstn_skipn (S (List.length pre)) (scales self')).
    apply in_or_app. left. exact Hin.
  - intros Hin. apply Hi in Hin. unfold self1 in Hin. cbn [scales set_scales] in Hin.
    rewrite Hs in Hnd. apply NoDup_remove_2 in Hnd. contradiction.
Qed.

End RemoveDead.

(** X25. The loop of [updateAvailableScales] that clears the dead scales
    removes from [self.scales] while it iterates over it: when it removes a
    scale, the scale listed right after it is not examined and stays listed,
    dead or not. *)
Theorem X25_remove_dead_skips_next
        (available : list nat) (self : LoadCellControl)
        (pre post : list nat) (a b : nat) :
  scales self = pre ++ a :: b :: post ->
  NoDup (scales self) ->
  (forall s, In s pre -> In s available) ->
  ~ In a available ->
  exists self',
    remove_dead (List.length (scales self)) 0 self available = Some self' /\
    In b (scales self') /\ ~ In a (scales self').
Proof. apply remove_dead_skips_next. Qed.

Lemma X25_remove_dead_skips_next_witness :
  let self := set_scales (init 10 9600) [5; 0; 1; 2]%nat in
  exists self',
    remove_dead (List.length (scales self)) 0 self [5; 2]%nat = Some self' /\
    In 1%nat (scales self') /\ ~ In 0%nat (scales self').
Proof.
  apply (@X25_remove_dead_skips_next [5; 2]%nat
           (set_scales (init 10 9600) [5; 0; 1; 2]%nat) [5%nat] [2%nat] 0%nat 1%nat).
  - reflexivity.
  - simpl. repeat constructor; simpl; intuition lia.
  - intros s [<-|[]]. left. reflexivity.
  - simpl. intuition lia.
Defined.

(** ** The baudrate of the serial scales *)

Section Baudrate.

Variable h : store.

Lemma last_sent_snoc (log : list sent) (x : sent) (s : nat) :
  last_sent (log ++ [x]) s =
  if Nat.eqb (fst x) s then Some (snd x) else last_sent log s.
Proof. unfold last_sent. rewrite fold_left_app. reflexivity. Qed.

Lemma last_sent_app (log new : list sent) (s : nat) :
  last_sent (log ++ new) s =
  match last_sent new s with
  | Some c => Some c
  | None => last_sent log s
  end.
Proof.
  induction new as [|x new IH] using rev_ind.
  - rewrite app_nil_r. reflexivity.
  - rewrite app_assoc, !last_sent_snoc.
    destruct (Nat.eqb (fst x) s); [reflexivity | exact IH].
Qed.

Lemma last_sent_all (new : list sent) (s : nat) (c : SerialReader.command) :
  (forall x, In x new -> fst x = s -> snd x = c) ->
  (exists x, In x new /\ fst x = s) ->
  last_sent new s = Some c.
Proof.
  induction new as [|y new IH] using rev_ind; intros Hall (x & Hx & Ex).
  - destruct Hx.
  - rewrite last_sent_snoc.
    destruct (Nat.eqb_spec (fst y) s) as [Ey|Hne].
    + rewrite (Hall y); trivial. apply in_or_app. right. left. reflexivity.
    + apply IH.
      * intros z Hz. apply Hall. apply in_or_app. left. exact Hz.
      * apply in_app_or in Hx. destruct Hx as [Hx|[<-|[]]]; [eauto | congruence].
Qed.

Lemma setBaudrate_sent (self : LoadCellControl) (br : Z) (s : nat) :
  In s (scales self) -> is_SerialScale h s = true ->
  last_sent (snd (setBaudrate h self br)) s = Some (SerialReader.SetBaudrate br).
Proof.
  intros Hin Hser. cbn [setBaudrate snd]. apply last_sent_all.
  - intros x Hx _. apply in_flat_map in Hx. destruct Hx as (s' & _ & Hx).
    destruct (is_SerialScale h s'); [|destruct Hx].
    destruct Hx as [<-|[]]. reflexivity.
  - exists (s, SerialReader.SetBaudrate br). split; [|reflexivity].
    apply in_flat_map. exists s. split; [exact Hin|]. rewrite Hser.
    left. reflexivity.
Qed.

Lemma list_remove_scale_incl (l l' : list nat) (s : nat) :
  list_remove_scale l s = Some l' -> incl l' l.
Proof.
  revert l'. induction l as [|x l IH]; intros l'; simpl; [discriminate|].
  destruct (Nat.eqb x s).
  - intros [= <-]. apply incl_tl, incl_refl.
  - destruct (list_remove_scale l s) as [r|]; [|discriminate]. cbn [bind].
    intros [= <-]. intros y [<-|Hy]; [left; reflexivity|].
    right. apply (IH r eq_refl), Hy.
Qed.

Lemma scale_step_sent (st st' : LoadCellControl * list sent) (o : scale_op) :
  baudrate_sent h st -> scale_step h st o = Some st' -> baudrate_sent h st'.
Proof.
  destruct st as [self log]. intros Hinv. destruct o as [s|s|br]; cbn [scale_step].
  - cbn [addScale]. intros [= <-]. intros x Hx Hser.
    cbn [fst snd scales set_scales baudrate] in *.
    rewrite last_sent_app. apply in_app_or in Hx.
    destruct (Nat.eq_dec x s) as [->|Hne].
    + rewrite Hser. unfold last_sent at 1. cbn [fold_left fst snd].
      rewrite Nat.eqb_refl. reflexivity.
    + destruct Hx as [Hx|[Hx|[]]]; [|congruence].
      pose proof (Hinv x Hx Hser) as Hlast. cbn [fst snd] in Hlast.
      destruct (is_SerialScale h s); [|exact Hlast].
      unfold last_sent at 1. cbn [fold_left fst snd].
      destruct (Nat.eqb_spec s x); [congruence | exact Hlast].
  - unfold removeScale.
    destruct (list_remove_scale (scales self) s) as [l|] eqn:E; [|discriminate].
    cbn [bind]. intros [= <-]. intros x Hx Hser.
    cbn [fst snd scales set_scales baudrate] in *.
    apply (Hinv x); [|exact Hser]. eapply list_remove_scale_incl; eauto.
  - intros [= <-]. intros x Hx Hser. cbn [fst snd] in *.
    rewrite last_sent_app.
    cbn [setBaudrate fst scales baudrate] in Hx |- *.
    pose proof (@setBaudrate_sent self br x Hx Hser) as E.
    cbn [setBaudrate snd] in E. rewrite E. reflexivity.
Qed.

Lemma scale_ops_sent (l : list scale_op) (st st' : LoadCellControl * list sent) :
  baudrate_sent h st -> scale_ops h st l = Some st' -> baudrate_sent h st'.
Proof.
  revert st. induction l as [|o l IH]; intros st Hinv; cbn [scale_ops].
  - intros [= <-]. exact Hinv.
  - destruct (scale_step h st o) as [st1|] eqn:E; [|discriminate]. cbn [bind].
    apply IH. eapply scale_step_sent; eauto.
Qed.

End Baudrate.

(** X26. Every serial scale listed in [self.scales] has been sent the
    baudrate of the application as its last command: this holds after any
    calls of [addScale], [removeScale] and [setBaudrate], in any order, from
    the start of the application. *)
Theorem X26_serial_scales_have_baudrate
        (h : store) (rate : Q) (baud : Z) (l : list scale_op)
        (self : LoadCellControl) (log : list sent) (s : nat) :
  scale_ops h (init rate baud, []) l = Some (self, log) ->
  In s (scales self) -> is_SerialScale h s = true ->
  last_sent log s = Some (SerialReader.SetBaudrate (baudrate self)).
Proof.
  intros Hrun Hin Hser.
  assert (baudrate_sent h (init rate baud, [])) as H0 by (intros x []).
  apply (@scale_ops_sent h l _ _ H0 Hrun s Hin Hser).
Qed.

Lemma X26_serial_scales_have_baudrate_witness :
  let h := [SerialScale "/dev/ttyUSB0" (ReadingsQ.create 10000);
            BluetoothScale "00:11" "HC-05" (ReadingsQ.create 10000)] in
  exists self log,
    scale_ops h (init 10 9600, [])
      [AddScale 0; AddScale 1; SetBaudrate 115200; RemoveScale 1; SetBaudrate 57600] =
      Some (self, log) /\
    last_sent log 0 = Some (SerialReader.SetBaudrate (baudrate self)).
Proof.
  eexists _, _. split; [reflexivity|].
  apply (@X26_serial_scales_have_baudrate
           [SerialScale "/dev/ttyUSB0" (ReadingsQ.create 10000);
            BluetoothScale "00:11" "HC-05" (ReadingsQ.create 10000)]
           10 9600
           [AddScale 0; AddScale 1; SetBaudrate 115200; RemoveScale 1; SetBaudrate 57600]
           _ _ 0%nat eq_refl).
  - left. reflexivity.
  - reflexivity.
Defined.

(** ** Saving and opening again *)

Section ReadRows.

Variable float : string -> option Q.

Lemma read_rows_data (l : list (Q * Q)) :
  read_rows float (map data_row l) = l.
Proof.
  induction l as [|[t v] l IH]; simpl; [reflexivity|]. rewrite IH. reflexivity.
Qed.

Lemma read_rows_points (l : list (Q * Q)) :
  read_rows float (map (fun row => NumRow (fst row) (snd row)) l) = l.
Proof.
  induction l as [|[t v] l IH]; simpl; [reflexivity|]. rewrite IH. reflexivity.
Qed.

End ReadRows.

Section FixedPoints.

Local Open Scope Q_scope.

Variable base : Q.

Lemma assigned_none (rt : Q) (rs : list reading) :
  Forall (fun r => rounded base r == fst r) rs ->
  Forall (fun r => ~ fst r == rt) rs ->
  assigned base rt rs = [].
Proof.
  intros Hfix Hne. unfold assigned. induction rs as [|x rs IH]; [reflexivity|].
  inversion Hfix; subst. inversion Hne; subst. cbn [filter].
  assert (Qeq_bool (rounded base x) rt = false) as ->.
  { apply Qeq_bool_false. intros E. apply H3. rewrite <- H1. exact E. }
  apply IH; assumption.
Qed.

Lemma assigned_single (rt : Q) (rs : list reading) (r : reading) :
  ascending (map fst rs) ->
  Forall (fun r => rounded base r == fst r) rs ->
  In r rs -> rt == fst r ->
  assigned base rt rs = [r].
Proof.
  intros Hasc Hfix Hin Hrt. induction rs as [|x rs IH]; [destruct Hin|].
  cbn [map] in Hasc. inversion Hasc as [|? ? Hasc' Hall]; subst.
  inversion Hfix as [|? ? Hx Hfix']; subst.
  rewrite Forall_forall in Hall.
  assert (forall y, In y rs -> fst x < fst y) as Hlt.
  { intros y Hy. apply Hall. apply in_map, Hy. }
  unfold assigned in *. cbn [filter]. destruct Hin as [->|Hin].
  - assert (Qeq_bool (rounded base r) rt = true) as ->.
    { apply Qeq_bool_iff. rewrite Hx, Hrt. reflexivity. }
    f_equal. apply assigned_none; trivial.
    apply Forall_forall. intros y Hy E. specialize (Hlt y Hy). lra.
  - assert (Qeq_bool (rounded base x) rt = false) as ->.
    { apply Qeq_bool_false. intros E. specialize (Hlt r Hin). lra. }
    apply IH; trivial.
Qed.

Lemma Forall2_map_Qeq {A B : Type} (f : A -> Q) (g : B -> Q)
      (l1 : list A) (l2 : list B) :
  Forall2 Qeq (map f l1) (map g l2) ->
  Forall2 (fun a b => f a == g b) l1 l2.
Proof.
  revert l2. induction l1 as [|a l1 IH]; intros [|b l2] H; inversion H; subst;
    constructor; auto.
Qed.

Lemma Forall2_In_impl {A B : Type} (R S : A -> B -> Prop) (l1 : list A) (l2 : list B) :
  (forall a b, In a l1 -> In b l2 -> R a b -> S a b) ->
  Forall2 R l1 l2 -> Forall2 S l1 l2.
Proof.
  intros Himp H. induction H as [|a b l1 l2 Hab H IH]; constructor.
  - apply Himp; trivial; left; reflexivity.
  - apply IH. intros a' b' Ha Hb. apply Himp; right; assumption.
Qed.

Lemma mean_single (x : Q) : mean [x] == x.
Proof. unfold mean, Py.sum, Py.len. simpl. field. Qed.

Lemma downsample_fixed_points (rs : list reading) :
  ascending (map fst rs) ->
  Forall (fun r => rounded base r == fst r) rs ->
  Forall2 (fun (r : reading) (t : triple) =>
             key t == fst r /\ snd (fst t) == snd r /\ snd t = 1%Z)
          rs (downsample base rs).
Proof.
  intros Hasc Hfix.
  assert (Forall2 Qeq (map fst rs) (map key (downsample base rs))) as Hkeys.
  { apply ascending_same; trivial.
    - apply key_sorted_ascending, downsample_sorted.
    - intros x. rewrite downsample_key_mem, Exists_exists. split.
      + intros (y & Hy & E). apply in_map_iff in Hy. destruct Hy as (r & <- & Hr).
        exists r. split; trivial. rewrite Forall_forall in Hfix.
        rewrite (Hfix r Hr). exact E.
      + intros (r & Hr & E). exists (fst r). split; [apply in_map, Hr|].
        rewrite Forall_forall in Hfix. rewrite <- (Hfix r Hr). exact E. }
  apply Forall2_map_Qeq in Hkeys.
  eapply Forall2_In_impl; [|exact Hkeys].
  intros r [[rt v] n] Hr Ht E. cbn beta in E. unfold key in *. cbn [fst snd] in *.
  destruct (@downsample_triple base rs rt v n Ht) as (_ & Hv & Hn & _).
  assert (rt == fst r) as Hrt by (symmetry; exact E).
  rewrite (@assigned_single rt rs r Hasc Hfix Hr Hrt) in Hv, Hn.
  split; [symmetry; exact E|]. split.
  - rewrite Hv. apply mean_single.
  - rewrite Hn. reflexivity.
Qed.

Lemma ascending_slice (d : list (Q * Q)) (i k : nat) :
  ascending (times d) -> ascending (times (firstn k (skipn i d))).
Proof.
  intros H. unfold times in *.
  rewrite <- (firstn_skipn i d), map_app in H.
  apply ascending_suffix in H.
  rewrite <- (firstn_skipn k (skipn i d)), map_app in H.
  apply StronglySorted_app_inv in H. tauto.
Qed.

Lemma Forall_slice {A : Type} (P : A -> Prop) (d : list A) (i k : nat) :
  Forall P d -> Forall P (firstn k (skipn i d)).
Proof.
  intros H. rewrite <- (firstn_skipn i d) in H. apply Forall_app in H.
  destruct H as [_ H]. rewrite <- (firstn_skipn k (skipn i d)) in H.
  apply Forall_app in H. tauto.
Qed.

Lemma slice_length {A : Type} (d : list A) (i k : nat) :
  (List.length (firstn k (skipn i d)) <= List.length d)%nat.
Proof. rewrite length_firstn, length_skipn. lia. Qed.

End FixedPoints.

Section OpenRecording.

Local Open Scope Q_scope.

Variable float : string -> option Q.
Hypothesis float_time : float "time" = None.

Lemma saveRecording_rows (self : LoadCellControl) (startTime stopTime : Q)
      (rows : list csv_row) :
  saveRecording self startTime stopTime = Some rows ->
  exists i k, rows = header_row :: map data_row (firstn k (skipn i (data self))).
Proof.
  unfold saveRecording. destruct (Py.len (data self) <? 1)%Z; [discriminate|].
  set (ilo := searchsorted (map fst (data self)) startTime).
  set (ihi := searchsorted (map fst (data self)) stopTime).
  destruct (Nat.eqb ilo ihi); [discriminate|].
  intros [= <-]. exists ilo, (ihi - ilo)%nat. reflexivity.
Qed.

Lemma read_rows_recording (l : list (Q * Q)) :
  read_rows float (header_row :: map data_row l) = l.
Proof.
  unfold header_row. cbn [read_rows read_row]. rewrite float_time. cbn [bind].
  apply read_rows_data.
Qed.

Lemma openRecording_fixed_points (self : LoadCellControl) (rs : list reading) :
  0 < sampleRate self -> length self = 100000%Z ->
  (Py.len rs <= 100000)%Z ->
  ascending (times rs) ->
  Forall (fun r => rounded (sample_interval self) r == fst r) rs ->
  exists self',
    addReadings (clear self) rs = Some self' /\
    same_pairs rs (data self') /\
    ascending (times (data self')).
Proof.
  intros Hrate Hlength Hlen Hasc Hfix.
  destruct rs as [|r0 rs0].
  { exists (clear self). split; [reflexivity|]. split; constructor. }
  set (rs := r0 :: rs0) in *.
  assert (rs <> []) as Hne by discriminate.
  assert (~ sampleRate (clear self) == 0) as Hnz by (cbn; lra).
  assert (0 <= numSamplesLastReading (clear self))%Z as Hn by (cbn; lia).
  destruct (@addReadings_cases (clear self) rs Hne Hnz Hn)
    as (t & v & n & rest & Eds & Hcases).
  change (sample_interval (clear self)) with (sample_interval self) in Eds.
  destruct Hcases as [(_ & final & Hf & Ha)
                     |[(lt & lv & Hl & _)|(lt & lv & Hl & _)]];
    [|discriminate Hl|discriminate Hl].
  pose proof (@downsample_fixed_points (sample_interval self) rs Hasc Hfix) as H2.
  pose proof (downsample_length (sample_interval self) rs) as Hdl.
  unfold triple in *. rewrite Eds in H2, Hdl.
  eexists. split; [exact Ha|]. rewrite data_set_data.
  change (length (clear self)) with (length self). rewrite Hlength.
  rewrite deque_extend_app by (rewrite len_map; unfold Py.len in *; simpl in *; lia).
  cbn [app]. split.
  - unfold same_pairs. clear - H2.
    induction H2 as [|r t0 l1 l2 (Hk & Hv & _) _ IH]; cbn [map]; constructor; trivial.
    destruct t0 as [[rt v'] n']. unfold key, time_and_val in *. cbn [fst snd] in *.
    split; symmetry; assumption.
  - rewrite times_time_and_val. apply key_sorted_ascending.
    rewrite <- Eds. apply downsample_sorted.
Qed.

End OpenRecording.

(** X27. A recording that is saved and opened again comes back as it was:
    when the times of the series buffer are ascending and are whole multiples
    of the sample interval in force at opening (as [_round] leaves them),
    [openRecording] on the rows that [saveRecording] wrote passes over the
    header row and leaves in the buffer exactly the samples written, times
    and values, in order. *)
Theorem X27_recording_round_trip
        (float : string -> option Q)
        (self self2 : LoadCellControl) (startTime stopTime : Q)
        (rows : list csv_row) :
  float "time"%string = None ->
  saveRecording self startTime stopTime = Some rows ->
  (Py.len (data self) <= 100000)%Z ->
  ascending (times (data self)) ->
  0 < sampleRate self2 -> length self2 = 100000%Z ->
  Forall (fun e => rounded (sample_interval self2) e == fst e) (data self) ->
  exists written self3,
    rows = header_row :: map data_row written /\
    openRecording float self2 rows = Some self3 /\
    same_pairs written (data self3) /\
    ascending (times (data self3)).
Proof.
  intros Hfloat Hsave Hlen Hasc Hrate Hlength Hfix.
  destruct (@saveRecording_rows self startTime stopTime rows Hsave) as (i & k & ->).
  set (written := firstn k (skipn i (data self))).
  destruct (@openRecording_fixed_points self2 written Hrate Hlength)
    as (self3 & Ha & Hsame & Hasc3).
  - pose proof (slice_length (data self) i k) as Hl. subst written.
    unfold Py.len, reading in *. lia.
  - apply ascending_slice, Hasc.
  - apply Forall_slice, Hfix.
  - exists written, self3. split; [reflexivity|].
    unfold openRecording. rewrite (read_rows_recording float Hfloat).
    split; [exact Ha|]. split; assumption.
Qed.

Lemma X27_recording_round_trip_witness :
  let self := MkLoadCellControl 100000 [(0, 1); (1, 2); (2, 3)]%Q 1 [] NoScale
                (Calibration.MkCalibration [] None) 1 9600 in
  exists written self3,
    [header_row; NumRow 0 1; NumRow 1 2] = header_row :: map data_row written /\
    openRecording (fun _ => None) (init 1 9600)
      [header_row; NumRow 0 1; NumRow 1 2] = Some self3 /\
    same_pairs written (data self3) /\
    ascending (times (data self3)).
Proof.
  apply (@X27_recording_round_trip (fun _ => None)
           (MkLoadCellControl 100000 [(0, 1); (1, 2); (2, 3)]%Q 1 [] NoScale
              (Calibration.MkCalibration [] None) 1 9600)
           (init 1 9600) 0 2).
  - reflexivity.
  - reflexivity.
  - unfold Py.len. simpl. lia.
  - repeat constructor.
  - reflexivity.
  - reflexivity.
  - repeat (constructor; [vm_compute; reflexivity|]). constructor.
Defined.

(** X28. A calibration that is saved and opened again comes back with the
    points it had: [saveCalibration] writes nothing only when the calibration
    is empty; otherwise [openCalibration] on the rows written passes over the
    header row and builds a calibration with the same points, measured and
    real values, in order, and the fit of those points. *)
Theorem X28_calibration_round_trip
        (polyfit : list Q -> list Q -> option (Q * Q))
        (float : string -> option Q)
        (self self2 : LoadCellControl) :
  float "measured"%string = None ->
  distinct_pts (Calibration.pts (calibration self)) ->
  match saveCalibration self with
  | None => Calibration.pts (calibration self) = []
  | Some rows =>
      exists self3,
        openCalibration polyfit float self2 rows = Some self3 /\
        same_pairs (Calibration.pts (calibration self))
                   (Calibration.pts (calibration self3)) /\
        fit_current polyfit (calibration self3) /\
        data self3 = data self2
  end.
Proof.
  intros Hfloat Hd. unfold saveCalibration, Calibration_len.
  destruct (Z.eqb_spec (Py.len (Calibration.pts (calibration self))) 0) as [E|_].
  - destruct (Calibration.pts (calibration self)); [reflexivity|].
    unfold Py.len in E. simpl in E. lia.
  - unfold openCalibration. cbn [read_rows read_row]. rewrite Hfloat. cbn [bind].
    rewrite read_rows_points.
    assert (0 < 1.0)%Q as H1 by reflexivity.
    destruct (@add_points_reinterpreted polyfit "N" 1.0
                (Calibration.pts (calibration self)) [] None getitem_N H1)
      as (cal' & Ha & Hp & Hc).
    + cbn [app]. apply reinterpreted_distinct; assumption.
    + reflexivity.
    + unfold Calibration.init. rewrite Ha. cbn [bind].
      eexists. split; [reflexivity|]. cbn [calibration set_calibration data].
      split; [|split; [exact Hc | reflexivity]].
      rewrite Hp. cbn [app]. unfold same_pairs. clear.
      induction (Calibration.pts (calibration self)) as [|[m r] l IH];
        cbn [map]; constructor; trivial.
      unfold reinterpreted. cbn [fst snd]. split; [reflexivity | field].
Qed.

Lemma X28_calibration_round_trip_witness :
  let self := set_calibration (init 10 9600)
                (Calibration.MkCalibration [(1, 5); (2, 7)]%Q None) in
  match saveCalibration self with
  | None => Calibration.pts (calibration self) = []
  | Some rows =>
      exists self3,
        openCalibration Calibration.np_polyfit (fun _ => None) (init 10 9600) rows =
          Some self3 /\
        same_pairs (Calibration.pts (calibration self))
                   (Calibration.pts (calibration self3)) /\
        fit_current Calibration.np_polyfit (calibration self3) /\
        data self3 = data (init 10 9600)
  end.
Proof.
  apply (@X28_calibration_round_trip Calibration.np_polyfit (fun _ => None)
           (set_calibration (init 10 9600)
              (Calibration.MkCalibration [(1, 5); (2, 7)]%Q None))
           (init 10 9600)).
  - reflexivity.
  - repeat constructor.
Defined.

(** ** Downsampling loses no reading *)

Section Conservation.

Local Open Scope Q_scope.

Variable base : Q.

Lemma dict_add_count (d : dict) (k v : Q) :
  dict_count (dict_add d k v) = (dict_count d + 1)%Z /\
  dict_sum (dict_add d k v) == dict_sum d + v.
Proof.
  induction d as [|[k0 vs] d [IH1 IH2]]; cbn [dict_add].
  - cbn [dict_count dict_sum snd]. split.
    + unfold Py.len. simpl. lia.
    + rewrite sum_cons, sum_nil. ring.
  - destruct (Qeq_bool k0 k); cbn [dict_count dict_sum snd].
    + split.
      * rewrite len_app. unfold Py.len at 2. simpl. lia.
      * rewrite sum_app, sum_cons, sum_nil. ring.
    + split; [rewrite IH1; lia | rewrite IH2; ring].
Qed.

Lemma groups_count (rs : list reading) (d : dict) :
  dict_count (groups base rs d) = (dict_count d + Py.len rs)%Z /\
  dict_sum (groups base rs d) == dict_sum d + Py.sum (map snd rs).
Proof.
  revert d. induction rs as [|r rs IH]; intros d.
  - unfold groups. cbn [fold_left map].
    split; [unfold Py.len; simpl; lia | rewrite sum_nil; ring].
  - change (groups base (r :: rs) d)
      with (groups base rs (dict_add d (rounded base r) (snd r))).
    destruct (IH (dict_add d (rounded base r) (snd r))) as [H1 H2].
    destruct (dict_add_count d (rounded base r) (snd r)) as [A1 A2].
    split.
    + rewrite H1, A1. unfold Py.len. cbn [List.length]. lia.
    + rewrite H2, A2. cbn [map]. rewrite sum_cons. ring.
Qed.

Lemma triples_count (d : dict) :
  Forall (fun e => snd e <> []) d ->
  total_count (triples d) = dict_count d /\
  weighted_sum (triples d) == dict_sum d.
Proof.
  induction 1 as [|e d He _ [IH1 IH2]]; [split; reflexivity|].
  cbn [triples map total_count weighted_sum dict_count dict_sum fst snd].
  fold (triples d). split; [rewrite IH1; reflexivity|].
  rewrite IH2. unfold mean.
  pose proof (len_nonempty_nz He) as Hnz. field. exact Hnz.
Qed.

Lemma sort_insert_count (x : triple) (l : list triple) :
  total_count (sort_insert x l) = (snd x + total_count l)%Z /\
  weighted_sum (sort_insert x l) ==
    snd (fst x) * inject_Z (snd x) + weighted_sum l.
Proof.
  induction l as [|y l [IH1 IH2]]; cbn [sort_insert].
  - split; reflexivity.
  - destruct (Py.ltb (key x) (key y)); cbn [total_count weighted_sum].
    + split; reflexivity.
    + split; [rewrite IH1; lia | rewrite IH2; ring].
Qed.

Lemma sort_by_key_count (l : list triple) :
  total_count (sort_by_key l) = total_count l /\
  weighted_sum (sort_by_key l) == weighted_sum l.
Proof.
  induction l as [|x l [IH1 IH2]]; cbn [sort_by_key]; [split; reflexivity|].
  destruct (sort_insert_count x (sort_by_key l)) as [H1 H2].
  cbn [total_count weighted_sum]. split; [rewrite H1, IH1; reflexivity|].
  rewrite H2, IH2. reflexivity.
Qed.

Lemma downsample_conserves (rs : list reading) :
  total_count (downsample base rs) = Py.len rs /\
  weighted_sum (downsample base rs) == Py.sum (map snd rs).
Proof.
  unfold downsample.
  destruct (sort_by_key_count (triples (groups base rs []))) as [S1 S2].
  destruct (@triples_count (groups base rs [])) as [T1 T2].
  { destruct (groups_invariant base rs) as (Hok & _ & _).
    eapply Forall_impl; [|exact Hok]. intros e. apply entry_ok_nonempty. }
  destruct (groups_count rs []) as [G1 G2].
  split.
  - rewrite S1, T1, G1. cbn [dict_count]. lia.
  - rewrite S2, T2, G2. cbn [dict_sum]. ring.
Qed.

End Conservation.

(** X29. Downsampling loses no reading: whenever [_downSampleReadings]
    returns, the counts of its buckets add up to the number of readings. *)
Theorem X29_downsample_keeps_count (readings : list reading) (sampleInterval : Q)
        (result : list triple) :
  _downSampleReadings readings sampleInterval = Some result ->
  total_count result = Py.len readings.
Proof.
  destruct (Qeq_dec sampleInterval 0) as [Hz|Hnz].
  - destruct readings as [|[time val] rest].
    + cbn. intros [= <-]. reflexivity.
    + unfold _downSampleReadings. cbn [group_readings]. unfold _round.
      rewrite (truediv_none time Hz). cbn [bind]. discriminate.
  - rewrite (_downSampleReadings_some Hnz). intros [= <-].
    apply downsample_conserves.
Qed.

Lemma X29_downsample_keeps_count_witness :
  exists result,
    _downSampleReadings [(0.98, 4); (1.01, 6); (1.3, 11)]%Q (1 # 10) = Some result /\
    total_count result = Py.len [(0.98, 4); (1.01, 6); (1.3, 11)]%Q.
Proof.
  eexists. split; [vm_compute; reflexivity|].
  apply (@X29_downsample_keeps_count [(0.98, 4); (1.01, 6); (1.3, 11)]%Q (1 # 10)).
  vm_compute. reflexivity.
Defined.

(** ** A buffer that is full *)

Section FullBuffer.

Variable maxlen : Z.
Hypothesis maxlen_pos : (0 < maxlen)%Z.

Lemma deque_append_last_items (d : list (Q * Q)) (x : Q * Q) :
  (Py.len d <= maxlen)%Z ->
  deque_append maxlen d x = last_items (Z.to_nat maxlen) (d ++ [x]).
Proof.
  intros Hd. unfold deque_append, last_items, Py.len in *.
  rewrite length_app. cbn [List.length].
  destruct (Z.leb_spec maxlen 0); [lia|].
  destruct (Z.ltb_spec (Z.of_nat (List.length d)) maxlen).
  - replace (List.length d + 1 - Z.to_nat maxlen)%nat with 0%nat by lia.
    reflexivity.
  - replace (List.length d + 1 - Z.to_nat maxlen)%nat with 1%nat by lia.
    destruct d as [|a d]; [simpl in *; lia | reflexivity].
Qed.

Lemma deque_extend_last_items (l d : list (Q * Q)) :
  (Py.len d <= maxlen)%Z ->
  deque_extend maxlen d l = last_items (Z.to_nat maxlen) (d ++ l).
Proof.
  assert (0 < Z.to_nat maxlen)%nat as Hc by lia.
  revert d. induction l as [|x l IH]; intros d Hd.
  - cbn [deque_extend fold_left]. rewrite app_nil_r. unfold last_items, Py.len in *.
    replace (List.length d - Z.to_nat maxlen)%nat with 0%nat by lia. reflexivity.
  - unfold deque_extend in *. cbn [fold_left].
    rewrite IH.
    + rewrite deque_append_last_items by exact Hd.
      rewrite (last_items_again Hc). rewrite <- app_assoc. reflexivity.
    + rewrite (deque_append_length d x maxlen_pos Hd). lia.
Qed.

End FullBuffer.

(** X30. The buffer keeps the newest entries: a batch ingested into an empty
    buffer at a sample rate other than zero leaves in it the buckets of the
    batch in the order of their times, and only the last 100000 of them when
    there are more. *)
Theorem X30_buffer_keeps_newest (self : LoadCellControl) (rs : list reading) :
  bounded self -> data self = [] -> ~ sampleRate self == 0 -> rs <> [] ->
  exists self',
    addReadings self rs = Some self' /\
    data self' =
      last_items (Z.to_nat 100000)
        (map time_and_val (downsample (sample_interval self) rs)).
Proof.
  intros (Hlength & Hn & _) Hempty Hnz Hne.
  destruct (@addReadings_cases self rs Hne Hnz Hn)
    as (t & v & n & rest & Eds & Hcases).
  destruct Hcases as [(_ & final & Hf & Ha)
                     |[(lt & lv & Hl & _)|(lt & lv & Hl & _)]];
    [|rewrite Hempty in Hl; discriminate Hl|rewrite Hempty in Hl; discriminate Hl].
  eexists. split; [exact Ha|]. rewrite data_set_data.
  unfold triple in *. rewrite Eds, Hlength.
  rewrite deque_extend_last_items.
  - reflexivity.
  - lia.
  - unfold Py.len. simpl. lia.
Qed.

Lemma X30_buffer_keeps_newest_witness :
  exists self',
    addReadings (init 1 9600) [(2, 5); (0, 1); (1, 3)]%Q = Some self' /\
    data self' =
      last_items (Z.to_nat 100000)
        (map time_and_val
           (downsample (sample_interval (init 1 9600)) [(2, 5); (0, 1); (1, 3)]%Q)).
Proof.
  apply (@X30_buffer_keeps_newest (init 1 9600) [(2, 5); (0, 1); (1, 3)]%Q).
  - unfold bounded, Py.len. simpl. repeat split; lia.
  - reflexivity.
  - discriminate.
  - discriminate.
Defined.
